(** * StreamXBot: the streaming distribution layer

    A shallow embedding of the streaming core of the repository:

    - [StreamHub]: the class [_StreamHub] of [Api/services/stream_service.py]
      (rolling chunk buffer, consumer cursors, eviction, the consumer loop);
    - [HubRegistry]: [_get_or_create_hub] and [_StreamHub.start];
    - [Pool]: [acquire_stream_client] / [release_stream_client] of
      [stream/__init__.py];
    - [PlayProgress]: [_merge_ranges], [_covered_bytes], [_seconds_from_bytes],
      [_prune_play_progress_locked], [_update_play_progress];
    - [RangeRequest]: [_parse_range_header], [_direct_stream], [_stream_range]
      and the range section of [stream_track].

    Python integers are [Z]; [bytes] objects are [list byte]; dictionaries whose
    iteration order is irrelevant are [gmap]s, the others association lists;
    Python floats are IEEE-754 binary64 values ([PrimFloat.float]). *)

From Stdlib Require Import ZArith List Lia Bool.
From Stdlib.Strings Require Import Byte Ascii String.
From Stdlib Require Import Floats.
From stdpp Require Import gmap strings list fin_maps sorting pretty.

Local Open Scope Z_scope.

(** [len(b)] of a Python sequence, as an integer. *)
Definition len {A} (l : list A) : Z := Z.of_nat (length l).

(** ** The distribution hub *)

Module StreamHub.

Abbreviation bytes := (list byte).

(** [_MAX_STREAM_BUFFER_BYTES = 25_000_000] *)
Definition _MAX_STREAM_BUFFER_BYTES : Z := 25000000.

(** The fields of [_StreamHub] that the buffer logic reads or writes.  The
    condition variable, the producer task (see [HubRegistry]) and
    [_last_access] carry no buffer state and are left out. *)
Record hub := Hub {
  _chunks : list (Z * bytes);
  _total_written : Z;
  _done : bool;
  _error : option string;
  _consumers : gmap string Z;
  _lagged : gset string;
}.

(** [_StreamHub.__init__] *)
Definition init : hub :=
  {| _chunks := []; _total_written := 0; _done := false; _error := None;
     _consumers := ∅; _lagged := ∅ |}.

Definition with_chunks (h : hub) (cs : list (Z * bytes)) : hub :=
  {| _chunks := cs; _total_written := _total_written h; _done := _done h;
     _error := _error h; _consumers := _consumers h; _lagged := _lagged h |}.

Definition with_consumers (h : hub) (m : gmap string Z) : hub :=
  {| _chunks := _chunks h; _total_written := _total_written h; _done := _done h;
     _error := _error h; _consumers := m; _lagged := _lagged h |}.

Definition with_lagged (h : hub) (s : gset string) : hub :=
  {| _chunks := _chunks h; _total_written := _total_written h; _done := _done h;
     _error := _error h; _consumers := _consumers h; _lagged := s |}.

(** The start offset of a chunk list, [fallback] when it is empty. *)
Definition front_offset (fallback : Z) (cs : list (Z * bytes)) : Z :=
  match cs with
  | [] => fallback
  | (start, _) :: _ => start
  end.

(** [_buffer_start]: the first retained chunk's offset, or [_total_written]. *)
Definition _buffer_start (h : hub) : Z :=
  front_offset (_total_written h) (_chunks h).

(** [min(self._consumers.values(), default=self._total_written)] *)
Definition min_cursor (m : gmap string Z) (default : Z) : Z :=
  match (map_to_list m).*2 with
  | [] => default
  | x :: xs => foldr Z.min x xs
  end.

(** The loop [while self._chunks: ... if end <= bound: popleft; continue; break]. *)
Fixpoint pop_below (bound : Z) (cs : list (Z * bytes)) : list (Z * bytes) :=
  match cs with
  | [] => []
  | (start, data) :: rest =>
      if start + len data <=? bound then pop_below bound rest else cs
  end.

(** The chunks that [pop_below] removes, in order. *)
Fixpoint popped_below (bound : Z) (cs : list (Z * bytes)) : list (Z * bytes) :=
  match cs with
  | [] => []
  | (start, data) :: rest =>
      if start + len data <=? bound then (start, data) :: popped_below bound rest
      else []
  end.

(** The consumers the last loop of [_gc_locked] adds to [_lagged]. *)
Definition behind (m : gmap string Z) (new_start : Z) : gset string :=
  dom (filter (λ kv, kv.2 < new_start) m).

(** [_gc_locked] *)
Definition _gc_locked (h : hub) : hub :=
  let min_offset := min_cursor (_consumers h) (_total_written h) in
  let h1 := with_chunks h (pop_below min_offset (_chunks h)) in
  let buffer_start := _buffer_start h1 in
  let buffer_bytes := _total_written h1 - buffer_start in
  if buffer_bytes <=? _MAX_STREAM_BUFFER_BYTES then h1
  else
    let keep_from := _total_written h1 - _MAX_STREAM_BUFFER_BYTES in
    let h2 := with_chunks h1 (pop_below keep_from (_chunks h1)) in
    let new_start := _buffer_start h2 in
    if new_start <=? buffer_start then h2
    else with_lagged h2 (_lagged h2 ∪ behind (_consumers h2) new_start).

(** The body of the [async for] of [_run] for one chunk received from the
    upstream: empty chunks are skipped, the others appended at
    [_total_written], then eviction runs. *)
Definition append (chunk : bytes) (h : hub) : hub :=
  let start := _total_written h in
  {| _chunks := _chunks h ++ [(start, chunk)];
     _total_written := start + len chunk;
     _done := _done h; _error := _error h;
     _consumers := _consumers h; _lagged := _lagged h |}.

Definition run_chunk (chunk : bytes) (h : hub) : hub :=
  match chunk with
  | [] => h
  | _ => _gc_locked (append chunk h)
  end.

(** [except BaseException as e: self._error = e] *)
Definition run_error (e : string) (h : hub) : hub :=
  {| _chunks := _chunks h; _total_written := _total_written h; _done := _done h;
     _error := Some e; _consumers := _consumers h; _lagged := _lagged h |}.

(** [finally: self._done = True] *)
Definition run_finally (h : hub) : hub :=
  {| _chunks := _chunks h; _total_written := _total_written h; _done := true;
     _error := _error h; _consumers := _consumers h; _lagged := _lagged h |}.

(** The head of [iter_bytes]: [start_byte = max(0, int(start_byte))] and the
    registration of the cursor. *)
Definition clamp_start (start_byte : Z) : Z := Z.max 0 start_byte.

Definition iter_register (cid : string) (start_byte : Z) (h : hub) : hub :=
  with_consumers h (<[cid := clamp_start start_byte]> (_consumers h)).

(** The search [for start, data in self._chunks] of the consumer loop. *)
Fixpoint find_chunk (offset : Z) (cs : list (Z * bytes)) : option (Z * bytes) :=
  match cs with
  | [] => None
  | (start, data) :: rest =>
      if start + len data <=? offset then find_chunk offset rest
      else if offset <? start then None
      else Some (start, data)
  end.

(** What one pass through the [while True] body of [iter_bytes] does. *)
Inductive pass :=
  | Behind                  (* raise _StreamBehindError() *)
  | Failed (e : string)     (* raise self._error *)
  | Finished                (* return *)
  | Waiting                 (* await self._cond.wait(); continue *)
  | Advanced (out : bytes). (* cursor moved; [out] is yielded when not empty *)

(** One pass of the consumer loop, run under the hub's lock; [start_byte] is
    the clamped start offset held by the generator. *)
Definition iter_pass (cid : string) (start_byte : Z) (h : hub) : hub * pass :=
  if decide (cid ∈ _lagged h) then (h, Behind)
  else match _error h with
  | Some e => (h, Failed e)
  | None =>
      let offset := default start_byte (_consumers h !! cid) in
      let buffer_start := _buffer_start h in
      if (offset <? buffer_start) && (0 <? _total_written h) then (h, Behind)
      else if _done h && (_total_written h <=? offset) then (h, Finished)
      else match find_chunk offset (_chunks h) with
      | None => (h, Waiting)
      | Some (start, data) =>
          let rel := offset - start in
          let out := if 0 <? rel then drop (Z.to_nat rel) data else data in
          (_gc_locked (with_consumers h (<[cid := offset + len out]> (_consumers h))),
           Advanced out)
      end
  end.

(** The bytes a pass hands to the caller ([if out: yield out]). *)
Definition yielded (p : pass) : bytes :=
  match p with
  | Advanced out => out
  | _ => []
  end.

(** The [finally] block of [iter_bytes]. *)
Definition forget (cid : string) (h : hub) : hub :=
  {| _chunks := _chunks h; _total_written := _total_written h; _done := _done h;
     _error := _error h; _consumers := delete cid (_consumers h);
     _lagged := _lagged h ∖ {[cid]} |}.

Definition iter_exit (cid : string) (h : hub) : hub := _gc_locked (forget cid h).

(** *** Interleavings

    Every mutation of the hub happens under its lock, so a run of the hub is a
    sequence of the atomic steps below, in any order. *)
Inductive event :=
  | Chunk (data : bytes)                  (* [_run] receives a chunk *)
  | Error (e : string)                    (* [_run] catches an exception *)
  | Done                                  (* [_run] reaches its [finally] *)
  | Register (cid : string) (start_byte : Z)  (* head of [iter_bytes] *)
  | Pass (cid : string) (start_byte : Z)      (* one pass of its loop *)
  | Exit (cid : string).                      (* its [finally] *)

Definition apply (ev : event) (h : hub) : hub :=
  match ev with
  | Chunk data => run_chunk data h
  | Error e => run_error e h
  | Done => run_finally h
  | Register cid start_byte => iter_register cid start_byte h
  | Pass cid start_byte => (iter_pass cid start_byte h).1
  | Exit cid => iter_exit cid h
  end.

Definition run (h : hub) (tr : list event) : hub := foldl (λ h ev, apply ev h) h tr.

(** All bytes the producer appended during a trace, in order. *)
Fixpoint produced (tr : list event) : bytes :=
  match tr with
  | [] => []
  | Chunk data :: tr' => data ++ produced tr'
  | _ :: tr' => produced tr'
  end.

(** The consumer an event belongs to. *)
Definition actor (ev : event) : option string :=
  match ev with
  | Register cid _ | Pass cid _ | Exit cid => Some cid
  | _ => None
  end.

(** A trace made of producer steps only. *)
Definition producer_only (tr : list event) : bool :=
  forallb (λ ev, match actor ev with None => true | Some _ => false end) tr.

(** The life of one consumer [cid] after its registration, interleaved with
    the steps of the producer and of the other consumers: [consume] follows
    the trace for as long as the consumer's own passes either advance or wait,
    and collects what it yields.  It is [None] when the trace is not such a
    life: a pass of [cid] raised or returned before the end, or another
    generator used the same consumer id. *)
Fixpoint consume (cid : string) (start_byte : Z) (h : hub) (out : bytes)
    (tr : list event) : option (hub * bytes) :=
  match tr with
  | [] => Some (h, out)
  | ev :: tr' =>
      if decide (actor ev = Some cid) then
        match ev with
        | Pass _ sb =>
            if decide (sb = start_byte) then
              match iter_pass cid start_byte h with
              | (h', Advanced o) => consume cid start_byte h' (out ++ yielded (Advanced o)) tr'
              | (h', Waiting) => consume cid start_byte h' out tr'
              | _ => None
              end
            else None
        | _ => None
        end
      else consume cid start_byte (apply ev h) out tr'
  end.

(** The three ways [_gc_locked] returns. *)
Inductive gc_outcome (h : hub) : hub -> Prop :=
  | gc_within :
      let cs1 := pop_below (min_cursor (_consumers h) (_total_written h)) (_chunks h) in
      _total_written h - front_offset (_total_written h) cs1 <= _MAX_STREAM_BUFFER_BYTES ->
      gc_outcome h (with_chunks h cs1)
  | gc_stuck :
      let cs1 := pop_below (min_cursor (_consumers h) (_total_written h)) (_chunks h) in
      let cs2 := pop_below (_total_written h - _MAX_STREAM_BUFFER_BYTES) cs1 in
      _MAX_STREAM_BUFFER_BYTES < _total_written h - front_offset (_total_written h) cs1 ->
      front_offset (_total_written h) cs2 <= front_offset (_total_written h) cs1 ->
      gc_outcome h (with_chunks h cs2)
  | gc_forced :
      let cs1 := pop_below (min_cursor (_consumers h) (_total_written h)) (_chunks h) in
      let cs2 := pop_below (_total_written h - _MAX_STREAM_BUFFER_BYTES) cs1 in
      _MAX_STREAM_BUFFER_BYTES < _total_written h - front_offset (_total_written h) cs1 ->
      front_offset (_total_written h) cs1 < front_offset (_total_written h) cs2 ->
      gc_outcome h
        (with_lagged (with_chunks h cs2)
           (_lagged h ∪ behind (_consumers h) (front_offset (_total_written h) cs2))).

(** A chunk as the upstream transport delivers them: one MiB of data. *)
Definition chunk_1MiB : bytes := repeat "000"%byte (Z.to_nat (1024 * 1024)).

(** *** Invariants of the buffer *)

(** Chunks are non-empty and each ends where the next starts, the last one
    at [total]. *)
Fixpoint contiguous (total : Z) (cs : list (Z * bytes)) : Prop :=
  match cs with
  | [] => True
  | (start, data) :: rest =>
      0 <= start /\ data <> [] /\
      start + len data = front_offset total rest /\
      contiguous total rest
  end.

Definition hub_wf (h : hub) : Prop :=
  0 <= _total_written h /\ contiguous (_total_written h) (_chunks h).

(** [w[a:b]] *)
Definition slice (w : bytes) (a b : Z) : bytes :=
  drop (Z.to_nat a) (take (Z.to_nat b) w).

(** The buffer holds the bytes written at its offsets. *)
Definition holds (w : bytes) (h : hub) : Prop :=
  _total_written h = len w /\
  Forall (λ c, slice w c.1 (c.1 + len c.2) = c.2) (_chunks h).

(** The cursor of a running consumer that started at [sb], and the bytes it
    has yielded so far. *)
Definition cursor_inv (cid : string) (sb : Z) (h : hub) (w out : bytes) : Prop :=
  exists off, _consumers h !! cid = Some off /\
    sb <= off /\ (off = sb \/ off <= len w) /\ out = slice w sb off.

(** *** One run of the producer *)

(** A step of a producer task. *)
Definition producer_step (ev : event) : bool :=
  match ev with
  | Chunk _ | Error _ | Done => true
  | _ => false
  end.

(** The producer task is not created a second time: once [_run] has reached
    its [finally] block, no step of a producer follows. *)
Fixpoint runs_once (tr : list event) : bool :=
  match tr with
  | [] => true
  | Done :: tr' => forallb (λ ev, negb (producer_step ev)) tr'
  | _ :: tr' => runs_once tr'
  end.

End StreamHub.

(** ** Python dictionaries in insertion order

    [work_loads] and [_PLAY_PROGRESS] are iterated, so their order is kept:
    a dictionary is the list of its items, oldest insertion first. *)

Module Dict.
Section Dict.
Context {K V : Type} `{EqDecision K}.

(** [d.get(k)] *)
Fixpoint get (k : K) (d : list (K * V)) : option V :=
  match d with
  | [] => None
  | (k', v) :: d' => if decide (k' = k) then Some v else get k d'
  end.

(** [d[k] = v]: an existing key keeps its place, a new one goes last. *)
Fixpoint set (k : K) (v : V) (d : list (K * V)) : list (K * V) :=
  match d with
  | [] => [(k, v)]
  | (k', v') :: d' =>
      if decide (k' = k) then (k, v) :: d' else (k', v') :: set k v d'
  end.

(** [d.pop(k, None)] *)
Definition pop (k : K) (d : list (K * V)) : list (K * V) :=
  filter (λ kv, kv.1 <> k) d.

(** [list(d.keys())] *)
Definition keys (d : list (K * V)) : list K := d.*1.
End Dict.
End Dict.

(** ** The connection pool *)

Module Pool.

(** What the pool reads from its environment: whether streaming is enabled
    ([ONLY_API] false and [bot] present), [Config.MULTI_CLIENTS], and
    [_primary_user_id]. *)
Record config := Config {
  streaming_enabled : bool;
  MULTI_CLIENTS : bool;
  _primary_user_id : option Z;
}.

(** [work_loads] and [_rr_cursor].  [multi_clients] has the same keys as
    [work_loads] (they are written together) and holds the client objects. *)
Record pool := PoolState {
  work_loads : list (Z * Z);
  _rr_cursor : Z;
}.

(** [int(work_loads.get(c) or 0)] *)
Definition load (p : pool) (c : Z) : Z := default 0 (Dict.get c (work_loads p)).

(** The candidate handles: all of them, without the primary one when
    multi-client mode is on and there is more than one handle. *)
Definition candidates (cfg : config) (p : pool) : list Z :=
  let all := Dict.keys (work_loads p) in
  match _primary_user_id cfg with
  | Some primary =>
      if MULTI_CLIENTS cfg && (1 <? len all) then
        match filter (λ c, c <> primary) all with
        | [] => all
        | others => others
        end
      else all
  | None => all
  end.

(** [tied.index(x)] *)
Fixpoint index_of (x : Z) (l : list Z) : option nat :=
  match l with
  | [] => None
  | y :: l' => if decide (y = x) then Some 0%nat else S <$> index_of x l'
  end.

(** [min(work_loads, key=work_loads.get)]: the first key of least load. *)
Fixpoint first_min (d : list (Z * Z)) : option (Z * Z) :=
  match d with
  | [] => None
  | (k, v) :: d' =>
      match first_min d' with
      | Some (k', v') => if v' <? v then Some (k', v') else Some (k, v)
      | None => Some (k, v)
      end
  end.

(** [acquire_stream_client]; [None] stands for the [RuntimeError] (or any
    other exception) it raises. *)
Definition acquire_stream_client (cfg : config) (p : pool) : option (Z * pool) :=
  if negb (streaming_enabled cfg) then None
  else
    match candidates cfg p with
    | [] => None
    | c0 :: cs =>
        let min_load := foldr Z.min (load p c0) (load p <$> cs) in
        let tied := merge_sort Z.le (filter (λ c, load p c = min_load) (c0 :: cs)) in
        let choice :=
          match tied with
          | [] => (λ kv, (kv.1, _rr_cursor p)) <$> first_min (work_loads p)
          | _ =>
              let start_idx :=
                match index_of (_rr_cursor p) tied with
                | Some i => ((i + 1) mod length tied)%nat
                | None => 0%nat
                end in
              (λ cid, (cid, cid)) <$> tied !! start_idx
          end in
        match choice with
        | Some (cid, cursor) =>
            Some (cid, {| work_loads := Dict.set cid (load p cid + 1) (work_loads p);
                          _rr_cursor := cursor |})
        | None => None
        end
    end.

(** [release_stream_client] *)
Definition release_stream_client (client_id : Z) (p : pool) : pool :=
  match Dict.get client_id (work_loads p) with
  | None => p
  | Some _ =>
      let v := load p client_id - 1 in
      {| work_loads := Dict.set client_id (if 0 <? v then v else 0) (work_loads p);
         _rr_cursor := _rr_cursor p |}
  end.

(** Invariants: no negative counter; candidate loads within one of each other. *)
Definition nonneg (p : pool) : Prop := Forall (λ kv, 0 <= kv.2) (work_loads p).

Definition balanced (cfg : config) (p : pool) : Prop :=
  forall c1 c2, c1 ∈ candidates cfg p -> c2 ∈ candidates cfg p ->
    load p c1 <= load p c2 + 1.

(** A sequence of pool operations. *)
Inductive op :=
  | Acquire
  | Release (client_id : Z).

Definition step (cfg : config) (p : pool) (o : op) : pool :=
  match o with
  | Acquire =>
      match acquire_stream_client cfg p with
      | Some (_, p') => p'
      | None => p
      end
  | Release client_id => release_stream_client client_id p
  end.

Definition run (cfg : config) (p : pool) (ops : list op) : pool :=
  foldl (step cfg) p ops.

(** The pool right after its handles were registered ([work_loads[uid] = 0]). *)
Definition fresh (uids : list Z) : pool :=
  {| work_loads := foldl (λ d uid, Dict.set uid 0 d) [] uids; _rr_cursor := 0 |}.

End Pool.

(** ** The hub registry and producer tasks *)

Module HubRegistry.

(** [_hub_key] *)
Definition _hub_key (file_id : string) (source_chat_id source_message_id : option Z)
  : string :=
  match source_chat_id, source_message_id with
  | Some chat, Some msg => "m:" +:+ pretty chat +:+ ":" +:+ pretty msg
  | _, _ => "f:" +:+ file_id
  end.

(** A hub object, as far as its producer is concerned: the identity it was
    built for, every task ever created by [create_task(self._run())] with its
    [done()] flag, and the field [_producer] (an index into the tasks). *)
Record hub := HubObj {
  file_id : string;
  source_chat_id : option Z;
  source_message_id : option Z;
  tasks : list bool;
  _producer : option nat;
}.

(** The objects on the heap, by address, and the dictionary [_STREAM_HUBS]. *)
Record world := World {
  heap : list hub;
  _STREAM_HUBS : gmap string nat;
}.

Definition empty : world := {| heap := []; _STREAM_HUBS := ∅ |}.

(** [self._producer.done()] *)
Definition producer_done (h : hub) : bool :=
  match _producer h with
  | None => true
  | Some t => default true (tasks h !! t)
  end.

(** [_StreamHub.start] *)
Definition start (h : hub) : hub :=
  if producer_done h then
    {| file_id := file_id h; source_chat_id := source_chat_id h;
       source_message_id := source_message_id h;
       tasks := tasks h ++ [false];
       _producer := Some (length (tasks h)) |}
  else h.

(** [hub.start()] on the object at address [a]. *)
Definition start_at (a : nat) (w : world) : world :=
  {| heap := alter start a (heap w); _STREAM_HUBS := _STREAM_HUBS w |}.

(** [_get_or_create_hub], run under [_STREAM_HUBS_LOCK]: the address of the
    hub it returns, and the new world. *)
Definition _get_or_create_hub (fid : string) (chat msg : option Z) (w : world)
  : nat * world :=
  let key := _hub_key fid chat msg in
  match _STREAM_HUBS w !! key with
  | Some a => (a, start_at a w)
  | None =>
      let a := length (heap w) in
      let h := {| file_id := fid; source_chat_id := chat; source_message_id := msg;
                  tasks := []; _producer := None |} in
      (a, start_at a {| heap := heap w ++ [h];
                        _STREAM_HUBS := <[key := a]> (_STREAM_HUBS w) |})
  end.

(** A producer task runs to its end. *)
Definition finish (t : nat) (h : hub) : hub :=
  {| file_id := file_id h; source_chat_id := source_chat_id h;
     source_message_id := source_message_id h;
     tasks := <[t := true]> (tasks h);
     _producer := _producer h |}.

(** The steps of request handling that touch producers. *)
Inductive event :=
  | Request (fid : string) (chat msg : option Z)  (* [_get_or_create_hub] *)
  | Attach (a : nat)                              (* [iter_bytes] calls [start] *)
  | TaskEnds (a t : nat).                         (* task [t] of hub [a] is done *)

Definition apply (ev : event) (w : world) : world :=
  match ev with
  | Request fid chat msg => (_get_or_create_hub fid chat msg w).2
  | Attach a => start_at a w
  | TaskEnds a t =>
      {| heap := alter (finish t) a (heap w); _STREAM_HUBS := _STREAM_HUBS w |}
  end.

Definition run (w : world) (tr : list event) : world :=
  foldl (λ w ev, apply ev w) w tr.

Definition hub_key (h : hub) : string :=
  _hub_key (file_id h) (source_chat_id h) (source_message_id h).

(** The number of producer tasks that are running. *)
Definition running (h : hub) : nat := length (filter (λ d, d = false) (tasks h)).

(** ... for one resource identity, over every hub ever built for it. *)
Definition running_for (key : string) (w : world) : nat :=
  sum_list_with running (filter (λ h, hub_key h = key) (heap w)).

(** The number of producer tasks ever created for one resource identity. *)
Definition spawned_for (key : string) (w : world) : nat :=
  sum_list_with (λ h, length (tasks h)) (filter (λ h, hub_key h = key) (heap w)).

(** No task ends during the trace: the requests are concurrent with the
    producer. *)
Definition no_task_ends (tr : list event) : bool :=
  forallb (λ ev, match ev with TaskEnds _ _ => false | _ => true end) tr.

(** Invariants.  A running task is the one [_producer] points to; the
    registry and the heap name the same hubs; with no task ending, every hub
    has exactly its first task. *)
Definition hub_ok (h : hub) : Prop :=
  forall t, tasks h !! t = Some false -> _producer h = Some t.

Definition registered (w : world) : Prop :=
  (forall a h, heap w !! a = Some h -> _STREAM_HUBS w !! hub_key h = Some a) /\
  (forall key a, _STREAM_HUBS w !! key = Some a ->
     exists h, heap w !! a = Some h /\ hub_key h = key).

Definition single_task (h : hub) : Prop :=
  tasks h = [false] /\ _producer h = Some 0%nat.

(** Distinct hubs of a list have distinct keys. *)
Definition keys_distinct (l : list hub) : Prop :=
  forall a a' h h', l !! a = Some h -> l !! a' = Some h' ->
    hub_key h = hub_key h' -> a = a'.

(** The invariant of every run. *)
Definition world_ok (w : world) : Prop := Forall hub_ok (heap w) /\ registered w.

End HubRegistry.

(** ** The play-progress tracker *)

Module PlayProgress.

(** [float(n)] for a Python integer: the nearest binary64 value, ties to
    even. *)
Definition float_of_int (n : Z) : float :=
  SF2Prim (binary_normalize prec emax n 0 false).

Definition _PLAY_COUNT_THRESHOLD_SEC : float := 30%float.
Definition _PLAY_PROGRESS_TTL_SEC : float := 1800%float.
Definition _PLAY_PROGRESS_MAX : Z := 5000.

(** The dataclass [_PlayProgress]. *)
Record _PlayProgress := Progress {
  file_size : option Z;
  duration_sec : option float;
  bitrate_kbps : option Z;
  ranges : list (Z * Z);
  counted : bool;
  last_seen : float;
}.

(** The first loop of [_merge_ranges], from the state it has reached:
    [(start, end)] is the range being inserted, widened by every range it
    touches, and [out] the list built so far. *)
Fixpoint merge_loop (rs : list (Z * Z)) (start end_ : Z) (inserted : bool)
    (out : list (Z * Z)) : Z * Z * bool * list (Z * Z) :=
  match rs with
  | [] => (start, end_, inserted, out)
  | (a, b) :: rs' =>
      if b + 1 <? start then merge_loop rs' start end_ inserted (out ++ [(a, b)])
      else if end_ + 1 <? a then
        let out := if inserted then out else out ++ [(start, end_)] in
        merge_loop rs' start end_ true (out ++ [(a, b)])
      else merge_loop rs' (Z.min start a) (Z.max end_ b) inserted out
  end.

(** [out.sort(key=lambda x: x[0])]: a stable sort on the start offsets. *)
Fixpoint insert_by_start (x : Z * Z) (l : list (Z * Z)) : list (Z * Z) :=
  match l with
  | [] => [x]
  | y :: l' => if x.1 <=? y.1 then x :: l else y :: insert_by_start x l'
  end.

Fixpoint sort_by_start (l : list (Z * Z)) : list (Z * Z) :=
  match l with
  | [] => []
  | x :: l' => insert_by_start x (sort_by_start l')
  end.

(** The last loop of [_merge_ranges]: [last] is [merged[-1]], and the
    result is [last] and whatever follows it in [merged] at the end. *)
Fixpoint coalesce (last : Z * Z) (out : list (Z * Z)) : list (Z * Z) :=
  match out with
  | [] => [last]
  | (a, b) :: out' =>
      if a <=? last.2 + 1 then coalesce (last.1, Z.max last.2 b) out'
      else last :: coalesce (a, b) out'
  end.

(** [_merge_ranges] *)
Definition _merge_ranges (ranges : list (Z * Z)) (start end_ : Z) : list (Z * Z) :=
  if end_ <? start then ranges
  else match ranges with
  | [] => [(start, end_)]
  | _ =>
      let '(start', end', inserted, out) := merge_loop ranges start end_ false [] in
      let out := if inserted then out else out ++ [(start', end')] in
      match sort_by_start out with
      | [] => []
      | first :: rest => coalesce first rest
      end
  end.

(** [_covered_bytes] *)
Definition _covered_bytes (ranges : list (Z * Z)) : Z :=
  foldl (λ total r, total + Z.max 0 (r.2 - r.1 + 1)) 0 ranges.

(** [_seconds_from_bytes] *)
Definition _seconds_from_bytes (covered : Z) (file_size : option Z)
    (duration_sec : option float) (bitrate_kbps : option Z) : float :=
  let covered := Z.max 0 covered in
  let by_bitrate :=
    match bitrate_kbps with
    | Some br =>
        if (negb (br =? 0)) && (0 <? br) then
          let bytes_per_sec := (float_of_int br * 1000 / 8)%float in
          if PrimFloat.ltb 0 bytes_per_sec
          then (float_of_int covered / bytes_per_sec)%float
          else 0%float
        else 0%float
    | None => 0%float
    end in
  match file_size, duration_sec with
  | Some fs, Some dur =>
      if negb (fs =? 0) && negb (PrimFloat.eqb dur 0) && (0 <? fs) && PrimFloat.ltb 0 dur
      then (float_of_int covered * dur / float_of_int fs)%float
      else by_bitrate
  | _, _ => by_bitrate
  end.

(** The table [_PLAY_PROGRESS], in insertion order. *)
Abbreviation table := (list (string * _PlayProgress)).

(** [sorted(_PLAY_PROGRESS.items(), key=lambda kv: float(kv[1].last_seen))]:
    stable, oldest first. *)
Fixpoint insert_by_age (x : string * _PlayProgress) (l : table) : table :=
  match l with
  | [] => [x]
  | y :: l' =>
      if PrimFloat.ltb (last_seen y.2) (last_seen x.2)
      then y :: insert_by_age x l'
      else x :: l
  end.

Fixpoint sort_by_age (l : table) : table :=
  match l with
  | [] => []
  | x :: l' => insert_by_age x (sort_by_age l')
  end.

(** [for k in ks: _PLAY_PROGRESS.pop(k, None)] *)
Definition pop_all (ks : list string) (t : table) : table :=
  foldl (λ t k, Dict.pop k t) t ks.

(** [_prune_play_progress_locked] *)
Definition _prune_play_progress_locked (now : float) (t : table) : table :=
  match t with
  | [] => t
  | _ =>
      let expired :=
        (filter (λ kv, PrimFloat.ltb _PLAY_PROGRESS_TTL_SEC (now - last_seen kv.2)%float = true)
                t).*1 in
      let t := pop_all expired t in
      if len t <=? _PLAY_PROGRESS_MAX then t
      else
        let items := sort_by_age t in
        let oldest := take (Z.to_nat (Z.max 0 (len items - _PLAY_PROGRESS_MAX))) items in
        pop_all oldest.*1 t
  end.

(** The arguments of one call of [_update_play_progress], with the value
    [time.monotonic()] returns in it. *)
Record call := Call {
  c_now : float;
  c_key : string;
  c_start : Z;
  c_end : Z;
  c_file_size : option Z;
  c_duration_sec : option float;
  c_bitrate_kbps : option Z;
}.

(** The entry of the key after pruning, creation when missing, and the update
    of [last_seen] and of the metadata. *)
Definition refreshed (c : call) (t : table) : _PlayProgress :=
  let prog :=
    match Dict.get (c_key c) t with
    | Some prog => prog
    | None =>
        {| file_size := c_file_size c; duration_sec := c_duration_sec c;
           bitrate_kbps := c_bitrate_kbps c; ranges := []; counted := false;
           last_seen := c_now c |}
    end in
  {| file_size := match c_file_size c with Some n => Some n | None => file_size prog end;
     duration_sec :=
       match c_duration_sec c with Some d => Some d | None => duration_sec prog end;
     bitrate_kbps :=
       match c_bitrate_kbps c with Some b => Some b | None => bitrate_kbps prog end;
     ranges := ranges prog; counted := counted prog; last_seen := c_now c |}.

(** [_update_play_progress]: the value returned and the table afterwards. *)
Definition _update_play_progress (c : call) (t : table) : bool * table :=
  let t := _prune_play_progress_locked (c_now c) t in
  let prog := refreshed c t in
  if counted prog then (false, Dict.set (c_key c) prog t)
  else
    let merged := _merge_ranges (ranges prog) (c_start c) (c_end c) in
    let covered := _covered_bytes merged in
    let sec := _seconds_from_bytes covered (file_size prog) (duration_sec prog)
                 (bitrate_kbps prog) in
    let fire := PrimFloat.leb _PLAY_COUNT_THRESHOLD_SEC sec in
    (fire,
     Dict.set (c_key c)
       {| file_size := file_size prog; duration_sec := duration_sec prog;
          bitrate_kbps := bitrate_kbps prog; ranges := merged;
          counted := fire; last_seen := last_seen prog |} t).

(** A sequence of calls: the values returned, and the table at the end. *)
Fixpoint updates (cs : list call) (t : table) : list bool * table :=
  match cs with
  | [] => ([], t)
  | c :: cs' =>
      let '(hit, t') := _update_play_progress c t in
      let '(hits, t'') := updates cs' t' in
      (hit :: hits, t'')
  end.

(** How often the calls for [key] returned true. *)
Fixpoint fires (key : string) (cs : list call) (t : table) : nat :=
  match cs with
  | [] => 0
  | c :: cs' =>
      let '(hit, t') := _update_play_progress c t in
      ((if hit && bool_decide (c_key c = key) then 1 else 0) + fires key cs' t')%nat
  end.

(** Pruning spares the entry of [key] in every call of the sequence. *)
Fixpoint spared (key : string) (cs : list call) (t : table) : Prop :=
  match cs with
  | [] => True
  | c :: cs' =>
      (is_Some (Dict.get key t) ->
       is_Some (Dict.get key (_prune_play_progress_locked (c_now c) t))) /\
      spared key cs' (_update_play_progress c t).2
  end.

(** *** Covered sets *)

(** No range starts at or before [lo + 1]. *)
Definition head_above (lo : Z) (rs : list (Z * Z)) : Prop :=
  match rs with
  | [] => True
  | (a, _) :: _ => lo + 1 < a
  end.

(** Sorted, non-empty, pairwise disjoint and not adjacent. *)
Fixpoint canonical (rs : list (Z * Z)) : Prop :=
  match rs with
  | [] => True
  | (a, b) :: rs' => a <= b /\ head_above b rs' /\ canonical rs'
  end.

(** Byte [x] lies in one of the ranges. *)
Definition covers (rs : list (Z * Z)) (x : Z) : Prop :=
  Exists (λ r, r.1 <= x <= r.2) rs.

(** What the first loop of [_merge_ranges] and the append that follows it
    add to [out], written without the accumulator. *)
Fixpoint merged_tail (rs : list (Z * Z)) (start end_ : Z) (inserted : bool)
  : list (Z * Z) :=
  match rs with
  | [] => if inserted then [] else [(start, end_)]
  | (a, b) :: rs' =>
      if b + 1 <? start then (a, b) :: merged_tail rs' start end_ inserted
      else if end_ + 1 <? a then
        (if inserted then [] else [(start, end_)])
          ++ (a, b) :: merged_tail rs' start end_ true
      else merged_tail rs' (Z.min start a) (Z.max end_ b) inserted
  end.

(** Observing a sequence of ranges on one key. *)
Definition observe (rs : list (Z * Z)) (obs : list (Z * Z)) : list (Z * Z) :=
  foldl (λ rs r, _merge_ranges rs r.1 r.2) rs obs.

End PlayProgress.

(** ** Range requests *)

Module RangeRequest.

Abbreviation bytes := (list byte).

(** A Python [str] whose characters are code points below 256, which is what
    a header value decoded by the HTTP layer (latin-1) holds. *)
Definition code (c : ascii) : Z := Z.of_N (N_of_ascii c).

(** [c.isspace()] *)
Definition is_space (c : ascii) : bool :=
  let n := code c in
  ((9 <=? n) && (n <=? 13)) || ((28 <=? n) && (n <=? 32)) || (n =? 133) || (n =? 160).

(** [\d] *)
Definition is_digit (c : ascii) : bool :=
  let n := code c in (48 <=? n) && (n <=? 57).

(** Case folding, for [re.I]. *)
Definition lower (c : ascii) : ascii :=
  let n := code c in
  if (65 <=? n) && (n <=? 90) then ascii_of_N (Z.to_N (n + 32)) else c.

Fixpoint lower_string (s : string) : string :=
  match s with
  | EmptyString => EmptyString
  | String c s' => String (lower c) (lower_string s')
  end.

Fixpoint all_digits (s : string) : bool :=
  match s with
  | EmptyString => true
  | String c s' => is_digit c && all_digits s'
  end.

(** [value.strip()] *)
Fixpoint lstrip (s : string) : string :=
  match s with
  | EmptyString => EmptyString
  | String c s' => if is_space c then lstrip s' else s
  end.

Fixpoint rstrip (s : string) : string :=
  match s with
  | EmptyString => EmptyString
  | String c s' =>
      match rstrip s' with
      | EmptyString => if is_space c then EmptyString else String c EmptyString
      | r => String c r
      end
  end.

Definition strip (s : string) : string := rstrip (lstrip s).

(** Matching a literal prefix, ignoring case. *)
Fixpoint match_literal (lit s : string) : option string :=
  match lit, s with
  | EmptyString, _ => Some s
  | String l lit', String c s' =>
      if decide (lower c = lower l) then match_literal lit' s' else None
  | String _ _, EmptyString => None
  end.

(** The longest run of digits at the front ([\d+], greedy), and the rest. *)
Fixpoint span_digits (s : string) : string * string :=
  match s with
  | EmptyString => (EmptyString, EmptyString)
  | String c s' =>
      if is_digit c then
        let '(d, rest) := span_digits s' in (String c d, rest)
      else (EmptyString, s)
  end.

(** [re.match(r"^bytes=(\d+)-(\d+)?$", s, flags=re.I)]: the groups 1 and 2 of
    the match, [None] for group 2 when it did not take part.  [$] matches at
    the end of the string and before a newline that ends it. *)
Definition match_range (s : string) : option (string * option string) :=
  match match_literal "bytes=" s with
  | None => None
  | Some rest =>
      let '(g1, rest1) := span_digits rest in
      match g1, rest1 with
      | String _ _, String c rest' =>
          if decide (c = "-"%char) then
            let '(g2, tail) := span_digits rest' in
            if decide (tail = "" \/ tail = String "010" "") then
              Some (g1, match g2 with EmptyString => None | _ => Some g2 end)
            else None
          else None
      | _, _ => None
      end
  end.

(** [int(digits)], which raises [ValueError] beyond 4300 digits. *)
Definition decimal (digits : string) : Z :=
  foldl (λ acc c, 10 * acc + (code c - 48)) 0 (list_ascii_of_string digits).

Definition py_int (digits : string) : option Z :=
  if 4300 <? Z.of_nat (String.length digits) then None else Some (decimal digits).

(** [_parse_range_header] *)
Definition _parse_range_header (value : string) : option Z * option Z :=
  match value with
  | EmptyString => (None, None)
  | _ =>
      match match_range (strip value) with
      | None => (None, None)
      | Some (g1, g2) =>
          match py_int g1 with
          | None => (None, None)
          | Some start =>
              if start <? 0 then (None, None)
              else
                let end_ := match g2 with Some d => py_int d | None => None end in
                match end_ with
                | Some e => if e <? start then (None, None) else (Some start, Some e)
                | None => (Some start, None)
                end
          end
      end
  end.

(** [_CHUNK_SIZE] *)
Definition _CHUNK_SIZE : Z := 1024 * 1024.

(** [_direct_stream]: the chunks it yields from the chunks of the upstream. *)
Fixpoint _direct_stream_loop (remaining_skip : Z) (upstream : list bytes) : list bytes :=
  match upstream with
  | [] => []
  | chunk :: upstream' =>
      match chunk with
      | [] => _direct_stream_loop remaining_skip upstream'
      | _ =>
          if 0 <? remaining_skip then
            if len chunk <=? remaining_skip
            then _direct_stream_loop (remaining_skip - len chunk) upstream'
            else drop (Z.to_nat remaining_skip) chunk :: _direct_stream_loop 0 upstream'
          else chunk :: _direct_stream_loop remaining_skip upstream'
      end
  end.

Definition _direct_stream (start_byte : Z) (upstream : list bytes) : list bytes :=
  _direct_stream_loop (Z.max 0 start_byte) upstream.

(** [_stream_range]; [client.stream_media(file_id, offset=k)] skips the first
    [k] chunks of the upstream. *)
Fixpoint _stream_range_loop (from_bytes : Z) (until_bytes : option Z) (cursor : Z)
    (upstream : list bytes) : list bytes :=
  match upstream with
  | [] => []
  | chunk :: upstream' =>
      match chunk with
      | [] => _stream_range_loop from_bytes until_bytes cursor upstream'
      | _ =>
          let chunk_start := cursor in
          let chunk_end := cursor + len chunk - 1 in
          let cursor := cursor + len chunk in
          if chunk_end <? from_bytes
          then _stream_range_loop from_bytes until_bytes cursor upstream'
          else if match until_bytes with Some u => u <? chunk_start | None => false end
          then []
          else
            let out_start := Z.max from_bytes chunk_start in
            let out_end :=
              match until_bytes with Some u => Z.min u chunk_end | None => chunk_end end in
            let rel_start := out_start - chunk_start in
            let rel_end := out_end - chunk_start in
            let out := drop (Z.to_nat rel_start) (take (Z.to_nat (rel_end + 1)) chunk) in
            let stop :=
              match until_bytes with Some u => u <=? out_end | None => false end in
            (match out with [] => [] | _ => [out] end)
              ++ (if stop then []
                  else _stream_range_loop from_bytes until_bytes cursor upstream')
      end
  end.

Definition _stream_range (from_bytes : Z) (until_bytes : option Z)
    (upstream : list bytes) : list bytes :=
  let from_bytes := Z.max 0 from_bytes in
  let until_bytes := (λ u, Z.max from_bytes u) <$> until_bytes in
  let start_chunk := from_bytes / _CHUNK_SIZE in
  _stream_range_loop from_bytes until_bytes (start_chunk * _CHUNK_SIZE)
    (drop (Z.to_nat start_chunk) upstream).

(** The iterator [stream_track] hands to the response. *)
Inductive iterator :=
  | StreamRange (from_bytes : Z) (until_bytes : option Z)
  | DirectStream (start_byte : Z).

Record response := Response {
  status_code : Z;
  headers : list (string * string);
  body : iterator;
}.

(** The range section of [stream_track], from the raw [Range] header value
    (empty when the request has none) and the file size of the track document;
    [inl 416] is the [HTTPException] it raises. *)
Definition stream_track (range : string) (file_size : option Z) : Z + response :=
  let range_header := strip range in
  let '(start_byte, end_byte) := _parse_range_header range_header in
  let has_range :=
    match range_header, start_byte with
    | String _ _, Some _ => true
    | _, _ => false
    end in
  let from_bytes := default 0 start_byte in
  let until_bytes :=
    if has_range then
      match end_byte with
      | Some e => Some e
      | None => (λ size, size - 1) <$> file_size
      end
    else None in
  let until_bytes :=
    match file_size, until_bytes with
    | Some size, Some u => Some (Z.min u (size - 1))
    | _, _ => until_bytes
    end in
  if match file_size with Some size => has_range && (size <=? from_bytes) | None => false end
  then inl 416
  else
    match (if has_range then file_size else None), until_bytes with
    | Some size, Some u =>
        inr {| status_code := 206;
               headers :=
                 [("Accept-Ranges", "bytes");
                  ("Content-Range",
                   "bytes " +:+ pretty from_bytes +:+ "-" +:+ pretty u +:+ "/" +:+ pretty size);
                  ("Content-Length", pretty (u - from_bytes + 1))];
               body := StreamRange from_bytes (Some u) |}
    | _, _ =>
        inr {| status_code := 200;
               headers := [("Accept-Ranges", "bytes")];
               body := DirectStream 0 |}
    end.

(** The bytes of the response body, for the chunks the upstream delivers.
    [_wrap_with_play_count] passes every chunk through unchanged. *)
Definition body_bytes (it : iterator) (upstream : list bytes) : bytes :=
  match it with
  | StreamRange from_bytes until_bytes => concat (_stream_range from_bytes until_bytes upstream)
  | DirectStream start_byte => concat (_direct_stream start_byte upstream)
  end.

(** The header values the range grammar of the parser describes:
    [bytes=<digits>-] or [bytes=<digits>-<digits>], the unit in any case. *)
Definition range_form (s : string) : Prop :=
  exists unit d1 d2,
    s = unit +:+ d1 +:+ "-" +:+ d2 /\
    lower_string unit = "bytes=" /\
    d1 <> "" /\ all_digits d1 = true /\ all_digits d2 = true.

(** The string ends with a newline. *)
Fixpoint ends_with_newline (s : string) : bool :=
  match s with
  | EmptyString => false
  | String c EmptyString => bool_decide (c = "010"%char)
  | String _ s' => ends_with_newline s'
  end.

End RangeRequest.

(** ** Streaming through the hub, with the direct fallback *)

Module StreamFile.
Import StreamHub.

(** [_stream_file_id]: the bytes it yields, put end to end.  [h] is the hub
    [_get_or_create_hub] returned, in the state in which [iter_bytes]
    registers its cursor; [life] is what happens on the hub until the last pass
    of the consumer; [fallback] is what the connection acquired for
    [_direct_stream] delivers.  [None] stands for a producer error re-raised
    to the caller, or for a [life] that is not one (see [consume]). *)
Definition _stream_file_id (cid : string) (start_byte : Z) (h : hub)
    (life : list event) (fallback : list bytes) : option bytes :=
  match consume cid (clamp_start start_byte) (iter_register cid start_byte h) [] life with
  | None => None
  | Some (h', out) =>
      let sent := Z.max 0 start_byte + len out in
      match (iter_pass cid (clamp_start start_byte) h').2 with
      | Finished => Some out
      | Behind => Some (out ++ concat (RangeRequest._direct_stream sent fallback))
      | _ => None
      end
  end.

End StreamFile.

(** ** The connection pool: acquiring with a preference *)

Module PoolPrefer.
Import Pool.

(** The selection both acquire functions end with: the least-loaded
    candidates, the round-robin choice among them, and the increment. *)
Definition pick (p : pool) (cands : list Z) : option (Z * pool) :=
  match cands with
  | [] => None
  | c0 :: cs =>
      let min_load := foldr Z.min (load p c0) (load p <$> cs) in
      let tied := merge_sort Z.le (filter (λ c, load p c = min_load) (c0 :: cs)) in
      let choice :=
        match tied with
        | [] => (λ kv, (kv.1, _rr_cursor p)) <$> first_min (work_loads p)
        | _ =>
            let start_idx :=
              match index_of (_rr_cursor p) tied with
              | Some i => ((i + 1) mod length tied)%nat
              | None => 0%nat
              end in
            (λ cid, (cid, cid)) <$> tied !! start_idx
        end in
      match choice with
      | Some (cid, cursor) =>
          Some (cid, {| work_loads := Dict.set cid (load p cid + 1) (work_loads p);
                        _rr_cursor := cursor |})
      | None => None
      end
  end.

(** The list [tied] of a selection. *)
Definition tied_of (p : pool) (cands : list Z) : list Z :=
  match cands with
  | [] => []
  | c0 :: cs =>
      merge_sort Z.le
        (filter (λ c, load p c = foldr Z.min (load p c0) (load p <$> cs)) (c0 :: cs))
  end.

(** [acquire_stream_client_prefer]; [preferred] is the set built from
    [preferred_user_ids] (empty for [None] or an empty collection). *)
Definition acquire_stream_client_prefer (cfg : config) (preferred : list Z) (p : pool)
  : option (Z * pool) :=
  if negb (streaming_enabled cfg) then None
  else
    let cands := candidates cfg p in
    let cands :=
      match preferred with
      | [] => cands
      | _ =>
          match filter (λ c, c ∈ preferred) cands with
          | [] => cands
          | picked => picked
          end
      end in
    pick p cands.

End PoolPrefer.

(** ** Play counting around a response body *)

Module PlayCount.
Import PlayProgress.

Abbreviation bytes := (list byte).

(** [_PLAY_PROGRESS_UPDATE_EVERY_BYTES] *)
Definition _PLAY_PROGRESS_UPDATE_EVERY_BYTES : Z := 512 * 1024.

(** What [_wrap_with_play_count] reads from its arguments: whether the
    method of the request is HEAD, the key it builds from the user, the track
    and the fingerprint of the request, and the metadata of the track. *)
Record wrapped := Wrapped {
  w_head : bool;
  w_key : string;
  w_from_bytes : Z;
  w_file_size : option Z;
  w_duration_sec : option float;
  w_bitrate_kbps : option Z;
}.

(** The locals of the generator, the shared table [_PLAY_PROGRESS], and what
    the generator has done: the chunks it yielded, the calls of
    [_update_play_progress] it made, and the [_register_play] tasks it
    created. *)
Record state := State {
  cursor : Z;
  last_flush : Z;
  triggered : bool;
  progress : table;
  yields : list bytes;
  calls : list call;
  plays : nat;
}.

Definition initial (w : wrapped) (t : table) : state :=
  let cursor := Z.max 0 (w_from_bytes w) in
  {| cursor := cursor; last_flush := cursor; triggered := false; progress := t;
     yields := []; calls := []; plays := 0 |}.

(** One call of [_update_play_progress] for the bytes delivered since the
    last one. *)
Definition report (w : wrapped) (now : float) (st : state) : bool * state :=
  let c := Call now (w_key w) (last_flush st) (cursor st - 1)
             (w_file_size w) (w_duration_sec w) (w_bitrate_kbps w) in
  let '(hit, t) := _update_play_progress c (progress st) in
  (hit,
   {| cursor := cursor st; last_flush := last_flush st; triggered := triggered st;
      progress := t; yields := yields st; calls := calls st ++ [c]; plays := plays st |}).

(** What happens while the response is sent: the inner iterator delivers a
    chunk, the wrapper yields it and is resumed, so that the statements after
    the [yield] run (at time [now]); or another request updates the table.
    An update that falls between the [yield] of a chunk and the call that
    reports it touches the table only, so it is taken before the chunk. *)
Inductive event :=
  | Deliver (now : float) (chunk : bytes)
  | Elsewhere (c : call).

(** How the iteration ends: the inner iterator ends or raises, or the
    generator is closed while it is suspended at [yield chunk], that is,
    before [cursor] is advanced for that chunk. *)
Inductive ending :=
  | Exhausted
  | ClosedAtYield (chunk : bytes).

Definition advance (w : wrapped) (st : state) (ev : event) : state :=
  match ev with
  | Elsewhere c =>
      {| cursor := cursor st; last_flush := last_flush st; triggered := triggered st;
         progress := (_update_play_progress c (progress st)).2;
         yields := yields st; calls := calls st; plays := plays st |}
  | Deliver now chunk =>
      if w_head w then
        {| cursor := cursor st; last_flush := last_flush st; triggered := triggered st;
           progress := progress st; yields := yields st ++ [chunk];
           calls := calls st; plays := plays st |}
      else
        match chunk with
        | [] => st
        | _ =>
            let st :=
              {| cursor := cursor st; last_flush := last_flush st;
                 triggered := triggered st; progress := progress st;
                 yields := yields st ++ [chunk]; calls := calls st; plays := plays st |} in
            if len chunk <=? 0 then st
            else
              let st :=
                {| cursor := cursor st + len chunk; last_flush := last_flush st;
                   triggered := triggered st; progress := progress st;
                   yields := yields st; calls := calls st; plays := plays st |} in
              if triggered st then st
              else if cursor st - last_flush st <? _PLAY_PROGRESS_UPDATE_EVERY_BYTES then st
              else
                let '(hit, st) := report w now st in
                {| cursor := cursor st; last_flush := cursor st;
                   triggered := if hit then true else triggered st;
                   progress := progress st; yields := yields st; calls := calls st;
                   plays := if hit then S (plays st) else plays st |}
        end
  end.

(** [if chunk:] *)
Definition nonempty (chunk : bytes) : bool :=
  match chunk with [] => false | _ => true end.

(** The [finally] block, which runs however the iteration ends. *)
Definition finally_block (w : wrapped) (now : float) (st : state) : state :=
  if w_head w then st
  else if negb (triggered st) && (last_flush st <? cursor st) then
    let '(hit2, st) := report w now st in
    {| cursor := cursor st; last_flush := last_flush st; triggered := triggered st;
       progress := progress st; yields := yields st; calls := calls st;
       plays := if hit2 then S (plays st) else plays st |}
  else st.

Definition run (w : wrapped) (t : table) (evs : list event) : state :=
  foldl (advance w) (initial w t) evs.

(** The state in which the [finally] block starts: a generator closed at
    [yield chunk] has yielded the chunk and done nothing else for it.  An
    empty chunk is not yielded unless the method is HEAD. *)
Definition suspended (w : wrapped) (e : ending) (st : state) : state :=
  match e with
  | Exhausted => st
  | ClosedAtYield chunk =>
      if w_head w || nonempty chunk then
        {| cursor := cursor st; last_flush := last_flush st; triggered := triggered st;
           progress := progress st; yields := yields st ++ [chunk];
           calls := calls st; plays := plays st |}
      else st
  end.

(** [_wrap_with_play_count], over what happens until the iteration ends, in
    the way [e], and the [finally] block runs at time [now]. *)
Definition _wrap_with_play_count (w : wrapped) (t : table) (evs : list event)
    (e : ending) (now : float) : state :=
  finally_block w now (suspended w e (run w t evs)).

(** The chunks of the inner iterator after whose [yield] the wrapper was
    resumed, and all the chunks it was handed. *)
Definition chunks_of (evs : list event) : list bytes :=
  evs ≫= (λ ev, match ev with Deliver _ chunk => [chunk] | Elsewhere _ => [] end).

Definition last_chunk (e : ending) : list bytes :=
  match e with
  | Exhausted => []
  | ClosedAtYield chunk => [chunk]
  end.

Definition delivered (evs : list event) (e : ending) : list bytes :=
  chunks_of evs ++ last_chunk e.

(** The byte ranges of the calls. *)
Definition ranges_of (cs : list call) : list (Z * Z) :=
  (λ c, (c_start c, c_end c)) <$> cs.

(** What the loop maintains when the method is not HEAD. *)
Definition loop_inv (w : wrapped) (st : state) : Prop :=
  let first := Z.max 0 (w_from_bytes w) in
  first <= last_flush st <= cursor st /\
  cursor st = first + len (concat (yields st)) /\
  plays st = (if triggered st then 1 else 0)%nat /\
  (forall x, covers (ranges_of (calls st)) x <-> first <= x < last_flush st) /\
  Z.of_nat (length (calls st)) * _PLAY_PROGRESS_UPDATE_EVERY_BYTES
    <= last_flush st - first.

End PlayCount.

(** ** The chunks of the upstream *)

Module Upstream.
Import RangeRequest.

(** The chunking of [client.stream_media]: every chunk holds [_CHUNK_SIZE]
    bytes, but the last one, which holds what is left of the file. *)
Fixpoint regular (upstream : list bytes) : Prop :=
  match upstream with
  | [] => True
  | chunk :: rest =>
      match rest with
      | [] => 0 < len chunk <= _CHUNK_SIZE
      | _ => len chunk = _CHUNK_SIZE /\ regular rest
      end
  end.

End Upstream.

(** ** Registering a play *)

Module RegisterPlay.
Import RangeRequest.

(** Strings are those of [RangeRequest], and [strip] is its [str.strip]. *)

(** A document of [userplayback_collection], without its [_id]. *)
Record user_play := UserPlay {
  up_user_id : Z;
  up_track_id : string;
  up_played_at : float;
  up_bucket : Z;
  up_source : string;
  up_jam_id : option string;
}.

(** A document of [globalplayback_collection], without its [_id]; a counter
    that is missing from the document reads 0, as [$inc] takes it. *)
Record global_play := GlobalPlay {
  plays : Z;
  sources_direct : Z;
  sources_jam : Z;
  last_played_at : option float;
  updated_at : option float;
  last_jam_id : option string;
}.

(** The two collections, by [_id]. *)
Record db := Db {
  userplayback : gmap string user_play;
  globalplayback : gmap string global_play;
}.

Definition empty_db : db := {| userplayback := ∅; globalplayback := ∅ |}.

(** One call of [_register_play]: its arguments, what the clock gives
    ([time.time()] and [int(now // _PLAY_PROGRESS_TTL_SEC)]), and whether each
    of the two writes goes through (a write that raises changes nothing). *)
Record play := Play {
  track_id : string;
  user_id : option Z;
  source : string;
  jam_id : option string;
  now : float;
  played_bucket : Z;
  user_write_ok : bool;
  global_write_ok : bool;
}.

(** [(source or "").strip() or "direct"], then the check against
    [{"direct", "jam"}]. *)
Definition normal_source (source : string) : string :=
  let source := match strip source with EmptyString => "direct" | s => s end in
  if decide (source = "direct" \/ source = "jam") then source else "direct".

(** [f"{int(user_id)}:{track_id}:{played_bucket}"] *)
Definition user_play_id (uid : Z) (track : string) (bucket : Z) : string :=
  pretty uid +:+ ":" +:+ track +:+ ":" +:+ pretty bucket.

(** [if jam_id:] *)
Definition given (jam_id : option string) : option string :=
  match jam_id with
  | Some EmptyString => None
  | j => j
  end.

(** The upsert with [$setOnInsert] on [userplayback_collection]:
    [should_count_global] and the collection afterwards. *)
Definition user_upsert (c : play) (track src : string) (users : gmap string user_play)
  : bool * gmap string user_play :=
  match user_id c with
  | Some uid =>
      if 0 <? uid then
        if user_write_ok c then
          let id := user_play_id uid track (played_bucket c) in
          match users !! id with
          | Some _ => (false, users)
          | None =>
              (true,
               <[id := {| up_user_id := uid; up_track_id := track;
                          up_played_at := now c; up_bucket := played_bucket c;
                          up_source := src; up_jam_id := given (jam_id c) |}]> users)
          end
        else (false, users)
      else (true, users)
  | None => (true, users)
  end.

(** The upsert with [$inc] and [$set] on [globalplayback_collection]. *)
Definition global_upsert (c : play) (track src : string)
    (globals : gmap string global_play) : gmap string global_play :=
  let g := default {| plays := 0; sources_direct := 0; sources_jam := 0;
                      last_played_at := None; updated_at := None;
                      last_jam_id := None |} (globals !! track) in
  <[track := {| plays := plays g + 1;
                sources_direct :=
                  if decide (src = "direct") then sources_direct g + 1
                  else sources_direct g;
                sources_jam :=
                  if decide (src = "jam") then sources_jam g + 1 else sources_jam g;
                last_played_at := Some (now c);
                updated_at := Some (now c);
                last_jam_id :=
                  match given (jam_id c) with
                  | Some j => Some j
                  | None => last_jam_id g
                  end |}]> globals.

(** [_register_play] *)
Definition _register_play (c : play) (d : db) : db :=
  match strip (track_id c) with
  | EmptyString => d
  | track =>
      let src := normal_source (source c) in
      let '(should_count_global, users) := user_upsert c track src (userplayback d) in
      if negb should_count_global
      then {| userplayback := users; globalplayback := globalplayback d |}
      else if global_write_ok c
      then {| userplayback := users;
              globalplayback := global_upsert c track src (globalplayback d) |}
      else {| userplayback := users; globalplayback := globalplayback d |}
  end.

Definition registers (cs : list play) (d : db) : db :=
  foldl (λ d c, _register_play c d) d cs.

(** The [plays] counter of a track. *)
Definition plays_of (track : string) (d : db) : Z :=
  default 0 (plays <$> globalplayback d !! track).

(** Every play of a track is counted under one of the two sources. *)
Definition sources_add_up (d : db) : Prop :=
  map_Forall (λ _ g, plays g = sources_direct g + sources_jam g) (globalplayback d).

End RegisterPlay.

(** ** Shutting the hubs down *)

Module HubShutdown.
Import HubRegistry.

(** [_StreamHub.close]: the hub afterwards, and whether the call raises.  The
    field is cleared; a producer that is still running is cancelled and
    awaited.  The cancelled task ends as cancelled ([_run] re-raises
    [asyncio.CancelledError]), so [await producer] raises [CancelledError] in
    [close], and [except Exception] does not catch it. *)
Definition close (h : hub) : hub * bool :=
  let running := negb (producer_done h) in
  ({| file_id := file_id h; source_chat_id := source_chat_id h;
      source_message_id := source_message_id h;
      tasks := match _producer h with
               | Some t => if running then <[t := true]> (tasks h) else tasks h
               | None => tasks h
               end;
      _producer := None |},
   running).

(** The loop [for hub in hubs] of [close_stream_hubs], from the hub at address
    [a] on.  [list(_STREAM_HUBS.values())] holds the hubs of the registry in
    the order in which their keys were inserted, which is the order of their
    addresses.  The [CancelledError] of a [close] is not caught by
    [except Exception] either: the loop ends there. *)
Fixpoint close_each (reg : gmap string nat) (a : nat) (hs : list hub) : list hub * bool :=
  match hs with
  | [] => ([], false)
  | h :: hs' =>
      if decide (reg !! hub_key h = Some a) then
        if (close h).2 then ((close h).1 :: hs', true)
        else ((close h).1 :: (close_each reg (S a) hs').1, (close_each reg (S a) hs').2)
      else (h :: (close_each reg (S a) hs').1, (close_each reg (S a) hs').2)
  end.

(** [close_stream_hubs], with no request in between: the world afterwards,
    and whether it raises. *)
Definition close_stream_hubs (w : world) : world * bool :=
  ({| heap := (close_each (_STREAM_HUBS w) 0 (heap w)).1; _STREAM_HUBS := ∅ |},
   (close_each (_STREAM_HUBS w) 0 (heap w)).2).

(** The number of producer tasks that are running, over all hubs. *)
Definition running_total (w : world) : nat := sum_list_with running (heap w).

(** The address of the first hub whose producer is running. *)
Fixpoint first_running (a : nat) (hs : list hub) : option nat :=
  match hs with
  | [] => None
  | h :: hs' => if producer_done h then first_running (S a) hs' else Some a
  end.

End HubShutdown.

(** * Properties *)

Lemma len_nonneg {A} (l : list A) : 0 <= len l.
Proof. unfold len. lia. Qed.

Lemma len_app {A} (l k : list A) : len (l ++ k) = len l + len k.
Proof. unfold len. rewrite length_app. lia. Qed.

Lemma len_nil_iff {A} (l : list A) : len l = 0 <-> l = [].
Proof. unfold len. destruct l; simpl length; split; intros H; try done; lia. Qed.

Lemma len_pos {A} (l : list A) : l <> [] -> 0 < len l.
Proof.
  intros H. pose proof (len_nonneg l).
  destruct (Z.eq_dec (len l) 0) as [E|]; [by apply len_nil_iff in E | lia].
Qed.

Lemma foldr_min_le (x : Z) xs y : y ∈ x :: xs -> foldr Z.min x xs <= y.
Proof.
  induction xs as [|z xs IH]; simpl.
  - intros ->%list_elem_of_singleton. lia.
  - rewrite !elem_of_cons. intros [->|[->|Hin]].
    + assert (foldr Z.min x xs <= x) by (apply IH; left). lia.
    + lia.
    + assert (foldr Z.min x xs <= y) by (apply IH; by right). lia.
Qed.

Lemma foldr_min_in (x : Z) xs : foldr Z.min x xs ∈ x :: xs.
Proof.
  induction xs as [|z xs IH]; simpl; [left|].
  destruct (Z.min_spec z (foldr Z.min x xs)) as [[_ ->]|[_ ->]].
  - right; left.
  - apply elem_of_cons in IH as [->|IH]; [left | by do 2 right].
Qed.

(** ** The distribution hub: buffer and eviction *)

Module StreamHubFacts.
Import StreamHub.

Section MinCursor.
Implicit Types (m : gmap string Z) (d : Z).

Lemma min_cursor_empty d : min_cursor ∅ d = d.
Proof. unfold min_cursor. by rewrite map_to_list_empty. Qed.

Lemma min_cursor_le m d c o : m !! c = Some o -> min_cursor m d <= o.
Proof.
  intros Hc. unfold min_cursor.
  assert (Hin : o ∈ (map_to_list m).*2).
  { apply list_elem_of_fmap. exists (c, o). split; [done|].
    by apply elem_of_map_to_list. }
  destruct ((map_to_list m).*2) as [|x xs]; [by apply elem_of_nil in Hin|].
  by apply foldr_min_le.
Qed.

Lemma min_cursor_attained m d :
  m ≠ ∅ -> exists c, m !! c = Some (min_cursor m d).
Proof.
  intros Hne. unfold min_cursor.
  destruct ((map_to_list m).*2) as [|x xs] eqn:E.
  - apply fmap_nil_inv in E. by apply map_to_list_empty_iff in E.
  - pose proof (foldr_min_in x xs) as Hin. rewrite <- E in Hin.
    apply list_elem_of_fmap in Hin as [[c o] [Ho Hin]]. simpl in Ho.
    exists c. rewrite Ho. by apply elem_of_map_to_list.
Qed.
End MinCursor.

Section Chunks.
Implicit Types (cs : list (Z * bytes)) (total bound : Z).

Lemma pop_below_split bound cs :
  cs = popped_below bound cs ++ pop_below bound cs.
Proof.
  induction cs as [|[s d] cs IH]; simpl; [done|].
  destruct (s + len d <=? bound); simpl; [by f_equal | done].
Qed.

Lemma popped_below_ends bound cs :
  Forall (λ c, c.1 + len c.2 <= bound) (popped_below bound cs).
Proof.
  induction cs as [|[s d] cs IH]; simpl; [constructor|].
  destruct (s + len d <=? bound) eqn:E; constructor; [simpl; lia | done].
Qed.

Lemma pop_below_head bound cs s d rest :
  pop_below bound cs = (s, d) :: rest -> bound < s + len d.
Proof.
  induction cs as [|[s' d'] cs IH]; simpl; [done|].
  destruct (s' + len d' <=? bound) eqn:E; [done|].
  intros [= -> -> ->]. lia.
Qed.

Lemma contiguous_front_le total cs :
  0 <= total -> contiguous total cs -> front_offset total cs <= total.
Proof.
  intros Ht. induction cs as [|[s d] cs IH]; simpl; [lia|].
  intros (_ & _ & Hend & Hc). pose proof (len_nonneg d). specialize (IH Hc). lia.
Qed.

Lemma contiguous_ends total cs :
  0 <= total -> contiguous total cs ->
  Forall (λ c, c.1 + len c.2 <= total) cs.
Proof.
  intros Ht. induction cs as [|[s d] cs IH]; simpl; [constructor|].
  intros (_ & _ & Hend & Hc). constructor; [|by apply IH].
  simpl. rewrite Hend. by apply contiguous_front_le.
Qed.

Lemma contiguous_pop total bound cs :
  contiguous total cs -> contiguous total (pop_below bound cs).
Proof.
  induction cs as [|[s d] cs IH]; simpl; [done|].
  intros (H0 & Hd & Hend & Hc).
  destruct (s + len d <=? bound); [by apply IH | by simpl].
Qed.

Lemma front_pop_mono total bound cs :
  0 <= total -> contiguous total cs ->
  front_offset total cs <= front_offset total (pop_below bound cs).
Proof.
  intros Ht. induction cs as [|[s d] cs IH]; simpl; [lia|].
  intros (H0 & Hd & Hend & Hc).
  destruct (s + len d <=? bound); simpl; [|lia].
  specialize (IH Hc). pose proof (len_nonneg d). lia.
Qed.

(** When the loop pops something, the new front is at most the bound. *)
Lemma front_pop_bound total bound cs :
  contiguous total cs ->
  pop_below bound cs = cs \/ front_offset total (pop_below bound cs) <= bound.
Proof.
  induction cs as [|[s d] cs IH]; simpl; [by left|].
  intros (H0 & Hd & Hend & Hc).
  destruct (s + len d <=? bound) eqn:E; [|by left].
  right. destruct (IH Hc) as [->| ?]; lia.
Qed.

(** Popping a non-empty chunk moves the front strictly. *)
Lemma front_pop_strict total bound cs :
  0 <= total -> contiguous total cs ->
  pop_below bound cs <> cs ->
  front_offset total cs < front_offset total (pop_below bound cs).
Proof.
  intros Ht. destruct cs as [|[s d] cs]; simpl; [done|].
  intros (H0 & Hd & Hend & Hc).
  destruct (s + len d <=? bound); [|done]. intros _.
  pose proof (front_pop_mono total bound cs Ht Hc).
  pose proof (len_pos d Hd). lia.
Qed.

Lemma front_pop_same_or_strict total bound cs :
  0 <= total -> contiguous total cs ->
  pop_below bound cs = cs \/
  front_offset total cs < front_offset total (pop_below bound cs).
Proof.
  intros Ht. destruct cs as [|[s d] cs]; simpl; [by left|].
  intros (H0 & Hd & Hend & Hc).
  destruct (s + len d <=? bound); [right|by left].
  pose proof (front_pop_mono total bound cs Ht Hc).
  pose proof (len_pos d Hd). lia.
Qed.

Lemma pop_below_all total bound cs :
  0 <= total -> contiguous total cs -> total <= bound ->
  pop_below bound cs = [].
Proof.
  intros Ht Hc Hb. pose proof (contiguous_ends total cs Ht Hc) as Hends.
  induction cs as [|[s d] cs IH]; simpl; [done|].
  apply Forall_cons in Hends as [Hh Hends]. simpl in Hh, Hc.
  destruct (Z.leb_spec (s + len d) bound); [|lia].
  apply IH; [tauto | done].
Qed.

Lemma contiguous_snoc total cs data :
  0 <= total -> data <> [] -> contiguous total cs ->
  contiguous (total + len data) (cs ++ [(total, data)]).
Proof.
  intros Ht Hd. induction cs as [|[s d] cs IH]; simpl.
  - intros _. repeat split; auto.
  - intros (H0 & Hne & Hend & Hc). repeat split; auto.
    rewrite Hend. by destruct cs as [|[??] ?].
Qed.

Lemma front_offset_snoc total cs data :
  front_offset (total + len data) (cs ++ [(total, data)]) = front_offset total cs.
Proof. by destruct cs as [|[??] ?]. Qed.
End Chunks.

Section Eviction.
Implicit Types (h : hub).

Lemma popped_below_nil bound cs :
  pop_below bound cs = cs -> popped_below bound cs = [].
Proof.
  intros E. pose proof (pop_below_split bound cs) as S.
  rewrite E in S. apply (f_equal length) in S. rewrite length_app in S.
  destruct (popped_below bound cs); [done | simpl in S; lia].
Qed.

Lemma gc_locked_outcome h : gc_outcome h (_gc_locked h).
Proof.
  unfold _gc_locked, _buffer_start. simpl.
  destruct (Z.leb_spec
    (_total_written h - front_offset (_total_written h)
       (pop_below (min_cursor (_consumers h) (_total_written h)) (_chunks h)))
    _MAX_STREAM_BUFFER_BYTES) as [Hle|Hgt].
  - by apply gc_within.
  - match goal with |- context [if ?a <=? ?b then _ else _] =>
      destruct (Z.leb_spec a b) end.
    + by refine (eq_ind _ (gc_outcome h) (gc_stuck h Hgt _) _ eq_refl).
    + by refine (eq_ind _ (gc_outcome h) (gc_forced h Hgt _) _ eq_refl).
Qed.

End Eviction.

Ltac gc_cases h :=
  let cs1 := fresh "cs1" in
  let cs2 := fresh "cs2" in
  destruct (gc_locked_outcome h) as [cs1 ?|cs1 cs2 ? ?|cs1 cs2 ? ?];
  try subst cs2; subst cs1.

Section EvictionFacts.
Implicit Types (h : hub).

Lemma gc_locked_fields h :
  _total_written (_gc_locked h) = _total_written h /\
  _done (_gc_locked h) = _done h /\
  _error (_gc_locked h) = _error h /\
  _consumers (_gc_locked h) = _consumers h /\
  _lagged h ⊆ _lagged (_gc_locked h).
Proof.
  gc_cases h; simpl; repeat split; auto; set_solver.
Qed.

Lemma gc_locked_wf h : hub_wf h -> hub_wf (_gc_locked h).
Proof.
  intros [Ht Hc].
  gc_cases h; split; simpl; auto; repeat apply contiguous_pop; done.
Qed.

Lemma gc_locked_start_mono h :
  hub_wf h -> _buffer_start h <= _buffer_start (_gc_locked h).
Proof.
  intros [Ht Hc]. unfold _buffer_start.
  set (m := min_cursor (_consumers h) (_total_written h)).
  pose proof (front_pop_mono _ m _ Ht Hc) as H1.
  pose proof (front_pop_mono _ (_total_written h - _MAX_STREAM_BUFFER_BYTES) _ Ht
                (contiguous_pop _ m _ Hc)) as H2.
  gc_cases h; simpl; fold m; lia.
Qed.

Lemma elem_of_behind (m : gmap string Z) new_start cid :
  cid ∈ behind m new_start <-> exists off, m !! cid = Some off /\ off < new_start.
Proof.
  unfold behind. rewrite elem_of_dom. unfold is_Some.
  setoid_rewrite map_lookup_filter_Some. naive_solver.
Qed.
End EvictionFacts.

Section Steps.
Implicit Types (h : hub) (ev : event).

Lemma iter_pass_hub cid sb h :
  (iter_pass cid sb h).1 = h \/
  exists off, (iter_pass cid sb h).1 =
    _gc_locked (with_consumers h (<[cid := off]> (_consumers h))).
Proof.
  unfold iter_pass. destruct (decide _); [by left|].
  destruct (_error h); [by left|].
  destruct (_ && _); [by left|]. destruct (_ && _); [by left|].
  destruct (find_chunk _ _) as [[s d]|]; [|by left].
  right. eexists. reflexivity.
Qed.

Lemma append_wf data h : data <> [] -> hub_wf h -> hub_wf (append data h).
Proof.
  intros Hd [Ht Hc]. split; simpl.
  - pose proof (len_nonneg data). lia.
  - by apply contiguous_snoc.
Qed.

Lemma apply_wf ev h : hub_wf h -> hub_wf (apply ev h).
Proof.
  intros Hwf. destruct ev as [data|e| |cid sb|cid sb|cid]; simpl.
  - unfold run_chunk. destruct data as [|b data]; [done|].
    by apply gc_locked_wf, append_wf.
  - done.
  - done.
  - done.
  - destruct (iter_pass_hub cid sb h) as [->|[off ->]]; [done|].
    by apply gc_locked_wf.
  - by apply gc_locked_wf.
Qed.

Lemma run_snoc h tr ev : run h (tr ++ [ev]) = apply ev (run h tr).
Proof. unfold run. by rewrite foldl_app. Qed.

Lemma run_app h tr1 tr2 : run h (tr1 ++ tr2) = run (run h tr1) tr2.
Proof. unfold run. by rewrite foldl_app. Qed.

Lemma run_wf h tr : hub_wf h -> hub_wf (run h tr).
Proof.
  revert h. induction tr as [|ev tr IH]; intros h Hwf; [done|].
  simpl. apply IH. by apply apply_wf.
Qed.

Lemma init_wf : hub_wf init.
Proof. by split. Qed.

Lemma apply_start_mono ev h :
  hub_wf h -> _buffer_start h <= _buffer_start (apply ev h).
Proof.
  intros Hwf. destruct ev as [data|e| |cid sb|cid sb|cid]; simpl;
    try (unfold _buffer_start; simpl; lia).
  - unfold run_chunk. destruct data as [|b data]; [lia|].
    etransitivity; [|by apply gc_locked_start_mono, append_wf].
    unfold _buffer_start. simpl. rewrite front_offset_snoc. lia.
  - destruct (iter_pass_hub cid sb h) as [->|[off ->]]; [lia|].
    by apply (gc_locked_start_mono (with_consumers h _)).
  - by apply (gc_locked_start_mono (forget cid h)).
Qed.

Lemma run_start_mono h tr :
  hub_wf h -> _buffer_start h <= _buffer_start (run h tr).
Proof.
  revert h. induction tr as [|ev tr IH]; intros h Hwf; simpl; [lia|].
  etransitivity; [by apply (apply_start_mono ev)|].
  apply IH. by apply apply_wf.
Qed.
End Steps.

Section NoConsumers.
Implicit Types (h : hub) (tr : list event).

Lemma gc_locked_no_consumers h :
  hub_wf h -> _consumers h = ∅ -> _chunks (_gc_locked h) = [].
Proof.
  intros [Ht Hc] He.
  assert (E : pop_below (min_cursor (_consumers h) (_total_written h)) (_chunks h) = []).
  { rewrite He, min_cursor_empty. by apply (pop_below_all (_total_written h)). }
  gc_cases h; simpl; rewrite E; done.
Qed.

Lemma behind_empty new_start : behind ∅ new_start = ∅.
Proof. unfold behind. by rewrite map_filter_empty, dom_empty_L. Qed.

Lemma gc_locked_lagged_no_consumers h :
  _consumers h = ∅ -> _lagged (_gc_locked h) = _lagged h.
Proof.
  intros He. gc_cases h; simpl; [reflexivity|reflexivity|].
  rewrite He, behind_empty. set_solver.
Qed.

(** Every reachable hub without consumers has an empty buffer. *)
Lemma apply_idle ev h :
  hub_wf h ->
  (_consumers h = ∅ -> _chunks h = []) ->
  _consumers (apply ev h) = ∅ -> _chunks (apply ev h) = [].
Proof.
  intros Hwf Hh. destruct ev as [data|e| |cid sb|cid sb|cid]; simpl; try done.
  - unfold run_chunk. destruct data as [|b data]; [done|].
    intros He. apply gc_locked_no_consumers; [by apply append_wf|].
    by destruct (gc_locked_fields (append (b :: data) h)) as (_ & _ & _ & <- & _).
  - intros He. by apply insert_non_empty in He.
  - destruct (iter_pass_hub cid sb h) as [->|[off ->]]; [done|].
    intros He.
    destruct (gc_locked_fields (with_consumers h (<[cid:=off]> (_consumers h))))
      as (_ & _ & _ & Hcons & _).
    rewrite Hcons in He. simpl in He. by apply insert_non_empty in He.
  - intros He. apply gc_locked_no_consumers; [done|].
    by destruct (gc_locked_fields (forget cid h)) as (_ & _ & _ & <- & _).
Qed.

Lemma run_idle tr h :
  hub_wf h ->
  (_consumers h = ∅ -> _chunks h = []) ->
  _consumers (run h tr) = ∅ -> _chunks (run h tr) = [].
Proof.
  revert h. induction tr as [|ev tr IH]; intros h Hwf Hh; simpl; [done|].
  apply IH; [by apply apply_wf | by apply apply_idle].
Qed.

Lemma run_producer_only tr h :
  producer_only tr = true ->
  _consumers h = ∅ -> _lagged h = ∅ ->
  _consumers (run h tr) = ∅ /\ _lagged (run h tr) = ∅.
Proof.
  revert h. induction tr as [|ev tr IH]; intros h Hp Hc Hl; simpl; [done|].
  simpl in Hp. apply andb_true_iff in Hp as [Hev Hp].
  apply IH; [done| |]; destruct ev as [data|e| | | |]; simpl in *; try done.
  - unfold run_chunk. destruct data as [|b data]; [done|].
    by destruct (gc_locked_fields (append (b :: data) h)) as (_ & _ & _ & -> & _).
  - unfold run_chunk. destruct data as [|b data]; [done|].
    by rewrite gc_locked_lagged_no_consumers.
Qed.
End NoConsumers.

(** C9.  On every reachable hub with no registered consumer the eviction
    watermark is [_total_written], an eviction pass leaves the buffer empty, and
    so does every chunk append.  A hub that only ever ran its producer (the
    warm path) has no consumer, holds no chunk, and a consumer attaching below
    the bytes already written is told it is behind on its first pass. *)
Theorem idle_hub_retains_nothing (tr : list event) :
  let h := run init tr in
  (_consumers h = ∅ ->
     min_cursor (_consumers h) (_total_written h) = _total_written h /\
     _chunks (_gc_locked h) = [] /\
     forall data, _chunks (run_chunk data h) = []) /\
  (producer_only tr = true ->
     _consumers h = ∅ /\ _chunks h = [] /\
     forall cid start_byte,
       _error h = None ->
       clamp_start start_byte < _total_written h ->
       (iter_pass cid (clamp_start start_byte) (iter_register cid start_byte h)).2
         = Behind).
Proof.
  intros h. pose proof (run_wf init tr init_wf) as Hwf. fold h in Hwf.
  assert (Hidle : _consumers h = ∅ -> _chunks h = []).
  { by apply run_idle; [apply init_wf|]. }
  split.
  - intros He. split; [by rewrite He, min_cursor_empty|].
    split; [by apply gc_locked_no_consumers|].
    intros data. apply (apply_idle (Chunk data) h Hwf Hidle).
    simpl. unfold run_chunk. destruct data as [|b data]; [done|].
    by destruct (gc_locked_fields (append (b :: data) h)) as (_ & _ & _ & -> & _).
  - intros Hp.
    destruct (run_producer_only tr init Hp eq_refl eq_refl) as [Hc Hl].
    fold h in Hc, Hl. split; [done|]. split; [by apply Hidle|].
    intros cid sb Herr Hlt. unfold iter_pass, iter_register. simpl.
    rewrite Hl. destruct (decide (cid ∈ ∅)) as [Hin|_]; [set_solver|].
    rewrite Herr, lookup_insert_eq. simpl.
    unfold _buffer_start. simpl. rewrite (Hidle Hc). simpl.
    destruct (Z.ltb_spec (clamp_start sb) (_total_written h)); [|lia].
    destruct (Z.ltb_spec 0 (_total_written h)); [done|].
    unfold clamp_start in *. lia.
Qed.

Lemma idle_hub_retains_nothing_witness :
  _chunks (_gc_locked (run init [Chunk ["001"%byte; "002"%byte]])) = [] /\
  (iter_pass "late" (clamp_start 0)
     (iter_register "late" 0 (run init [Chunk ["001"%byte; "002"%byte]]))).2 = Behind.
Proof.
  pose proof (idle_hub_retains_nothing [Chunk ["001"%byte; "002"%byte]]) as [H1 H2].
  split.
  - apply H1. reflexivity.
  - apply H2; [reflexivity | reflexivity | reflexivity].
Defined.

(** C4.  One eviction pass removes a prefix of the buffer, in two runs.  The
    first run holds only chunks that end at or below the minimum consumer
    cursor.  The second, forced run is empty unless the bytes retained after
    the first one exceed the cap, and holds only chunks that end at or below
    [keep_from = _total_written - _MAX_STREAM_BUFFER_BYTES].  When the forced
    run removed something, every consumer whose cursor is below the new buffer
    start is in the lagged set; when it removed nothing, no cursor that was
    inside the buffer is below its new start. *)
Theorem gc_locked_eviction_discipline (h : hub) :
  hub_wf h ->
  let min_offset := min_cursor (_consumers h) (_total_written h) in
  let keep_from := _total_written h - _MAX_STREAM_BUFFER_BYTES in
  let g := _gc_locked h in
  exists normal forced : list (Z * bytes),
    _chunks h = normal ++ forced ++ _chunks g /\
    Forall (λ c, c.1 + len c.2 <= min_offset) normal /\
    Forall (λ c, c.1 + len c.2 <= keep_from) forced /\
    (forced <> [] ->
       _MAX_STREAM_BUFFER_BYTES <
         _total_written h - front_offset (_total_written h) (forced ++ _chunks g)) /\
    (forced <> [] ->
       forall cid off, _consumers h !! cid = Some off ->
         off < _buffer_start g -> cid ∈ _lagged g) /\
    (forced = [] ->
       forall cid off, _consumers h !! cid = Some off ->
         _buffer_start h <= off -> _buffer_start g <= off).
Proof.
  intros [Ht Hc] min_offset keep_from g.
  set (cs1 := pop_below min_offset (_chunks h)).
  assert (Hc1 : contiguous (_total_written h) cs1) by by apply contiguous_pop.
  assert (Hkeep : forall cid off, _consumers h !! cid = Some off ->
            front_offset (_total_written h) (_chunks h) <= off ->
            front_offset (_total_written h) cs1 <= off).
  { intros cid off Hoff Hin.
    destruct (front_pop_bound (_total_written h) min_offset (_chunks h) Hc) as [E|Hle].
    - unfold cs1. by rewrite E.
    - pose proof (min_cursor_le _ (_total_written h) _ _ Hoff). fold min_offset in H.
      unfold cs1. lia. }
  subst g. gc_cases h; fold min_offset; fold cs1; fold keep_from; simpl.
  - (* the buffer fits after the first run *)
    exists (popped_below min_offset (_chunks h)), [].
    split; [apply pop_below_split|]. split; [apply popped_below_ends|].
    split; [constructor|]. split; [done|]. split; [done|].
    intros _ cid off Hoff Hin. unfold _buffer_start in *. simpl. eauto.
  - (* over the cap, but nothing lies wholly below [keep_from] *)
    assert (E : pop_below keep_from cs1 = cs1).
    { destruct (front_pop_same_or_strict _ keep_from cs1 Ht Hc1) as [|Hlt]; [done|].
      fold min_offset cs1 keep_from in H0. lia. }
    exists (popped_below min_offset (_chunks h)), [].
    rewrite E. split; [apply pop_below_split|]. split; [apply popped_below_ends|].
    split; [constructor|]. split; [done|]. split; [done|].
    intros _ cid off Hoff Hin. unfold _buffer_start in *. simpl. eauto.
  - (* forced eviction *)
    exists (popped_below min_offset (_chunks h)), (popped_below keep_from cs1).
    rewrite <- (pop_below_split keep_from cs1).
    split; [apply pop_below_split|]. split; [apply popped_below_ends|].
    split; [apply popped_below_ends|]. split; [by intros _|].
    split.
    + intros _ cid off Hoff Hlt. apply elem_of_union_r, elem_of_behind.
      exists off. split; [done|]. by unfold _buffer_start in Hlt.
    + intros E. exfalso.
      pose proof (pop_below_split keep_from cs1) as S. rewrite E in S. simpl in S.
      fold min_offset cs1 keep_from in H0. rewrite <- S in H0. lia.
Qed.

Lemma gc_locked_eviction_discipline_witness :
  let h := run init [Register "a" 0; Chunk ["001"%byte; "002"%byte];
                     Chunk ["003"%byte]; Pass "a" 0] in
  exists normal forced : list (Z * bytes),
    _chunks h = normal ++ forced ++ _chunks (_gc_locked h) /\
    Forall (λ c, c.1 + len c.2 <= min_cursor (_consumers h) (_total_written h)) normal /\
    Forall (λ c, c.1 + len c.2 <= _total_written h - _MAX_STREAM_BUFFER_BYTES) forced.
Proof.
  intros h.
  destruct (gc_locked_eviction_discipline h) as (normal & forced & H1 & H2 & H3 & _).
  - apply run_wf, init_wf.
  - exists normal, forced. split; [exact H1|]. split; [exact H2 | exact H3].
Defined.

(** C3, as the code has it.  Along every run of a hub the buffer start never
    decreases, and when an eviction pass returns either the retained bytes are
    within the cap or the retained bytes that follow the first retained chunk
    are: eviction drops whole chunks only, so the chunk that straddles
    [keep_from] stays and the buffer may exceed the cap by less than that
    chunk's length. *)
Theorem buffer_start_monotone_cap_up_to_chunk (pre tr : list event) (h : hub) :
  _buffer_start (run init pre) <= _buffer_start (run (run init pre) tr) /\
  let g := _gc_locked h in
  (_total_written g - _buffer_start g <= _MAX_STREAM_BUFFER_BYTES \/
   exists start data rest,
     _chunks g = (start, data) :: rest /\
     _total_written g - (start + len data) < _MAX_STREAM_BUFFER_BYTES /\
     _total_written g - _buffer_start g < _MAX_STREAM_BUFFER_BYTES + len data).
Proof.
  split; [apply run_start_mono, run_wf, init_wf|].
  intros g. subst g.
  assert (Hcut : forall cs,
    _total_written h - front_offset (_total_written h)
       (pop_below (_total_written h - _MAX_STREAM_BUFFER_BYTES) cs)
      <= _MAX_STREAM_BUFFER_BYTES \/
    exists start data rest,
      pop_below (_total_written h - _MAX_STREAM_BUFFER_BYTES) cs = (start, data) :: rest /\
      _total_written h - (start + len data) < _MAX_STREAM_BUFFER_BYTES /\
      _total_written h - front_offset (_total_written h)
         (pop_below (_total_written h - _MAX_STREAM_BUFFER_BYTES) cs)
        < _MAX_STREAM_BUFFER_BYTES + len data).
  { intros cs.
    destruct (pop_below (_total_written h - _MAX_STREAM_BUFFER_BYTES) cs)
      as [|[s d] rest] eqn:E; simpl.
    - left. unfold _MAX_STREAM_BUFFER_BYTES. lia.
    - right. exists s, d, rest. apply pop_below_head in E. split; [done|]. lia. }
  gc_cases h; unfold _buffer_start; simpl; [by left | apply Hcut | apply Hcut].
Qed.

Section SlowConsumer.
(** A consumer registered at offset 0 that never reads pins the first chunk:
    as long as that chunk straddles [keep_from], eviction removes nothing. *)
Variable c : bytes.
Hypothesis c_nonempty : c <> [].

Lemma run_chunk_nonempty h : run_chunk c h = _gc_locked (append c h).
Proof using c_nonempty. by destruct c. Qed.

Lemma min_cursor_singleton cid off d : min_cursor {[cid := off]} d = off.
Proof using Type. unfold min_cursor. by rewrite map_to_list_singleton. Qed.

Lemma gc_locked_pinned h cid rest :
  _consumers h = {[cid := 0]} ->
  _chunks h = (0, c) :: rest ->
  _total_written h - _MAX_STREAM_BUFFER_BYTES < len c ->
  _gc_locked h = h.
Proof using c_nonempty.
  pose proof (len_pos c c_nonempty) as Hpos.
  destruct h as [cs tw dn er co la]; simpl. intros -> -> Hkeep.
  unfold _gc_locked, _buffer_start. simpl.
  rewrite min_cursor_singleton. simpl.
  destruct (Z.leb_spec (0 + len c) 0); [lia|]. simpl.
  destruct (Z.leb_spec (tw - 0) _MAX_STREAM_BUFFER_BYTES); [done|].
  destruct (Z.leb_spec (0 + len c) (tw - _MAX_STREAM_BUFFER_BYTES)); [lia|].
  simpl. done.
Qed.

Lemma pinned_run (n : nat) :
  Z.of_nat (S n) * len c - _MAX_STREAM_BUFFER_BYTES < len c ->
  let h := run (iter_register "slow" 0 init) (repeat (Chunk c) (S n)) in
  _consumers h = {["slow" := 0]} /\
  _total_written h = Z.of_nat (S n) * len c /\
  exists rest, _chunks h = (0, c) :: rest.
Proof using c_nonempty.
  pose proof (len_pos c c_nonempty) as Hpos.
  induction n as [|n IH]; intros Hn h; subst h.
  - change (repeat (Chunk c) 1) with ([] ++ [Chunk c]).
    rewrite run_snoc. cbn [run foldl apply].
    rewrite run_chunk_nonempty, (gc_locked_pinned _ "slow" []).
    + unfold append, iter_register. simpl. split; [done|]. split; [lia|]. by exists [].
    + done.
    + done.
    + unfold append, iter_register, _MAX_STREAM_BUFFER_BYTES. simpl. lia.
  - destruct IH as (Hc & Ht & rest & Hr); [lia|].
    change (repeat (Chunk c) (S (S n))) with (Chunk c :: repeat (Chunk c) (S n)).
    rewrite repeat_cons, run_snoc.
    set (h := run (iter_register "slow" 0 init) (repeat (Chunk c) (S n))) in *.
    cbn [apply].
    rewrite run_chunk_nonempty,
      (gc_locked_pinned _ "slow" (rest ++ [(_total_written h, c)])).
    + unfold append. cbn [_consumers _total_written _chunks].
      rewrite Hr, Ht. split; [done|]. split; [lia|].
      rewrite <- app_comm_cons. eauto.
    + done.
    + unfold append. cbn [_chunks]. by rewrite Hr.
    + unfold append. cbn [_total_written]. rewrite Ht. lia.
Qed.
End SlowConsumer.

Lemma len_chunk_1MiB : len chunk_1MiB = 1048576.
Proof. unfold chunk_1MiB, len. rewrite repeat_length, Z2Nat.id; lia. Qed.

(** C3, counterexample to the cap as stated.  A consumer registers at offset
    0 and does not read while the producer appends 24 chunks of one MiB.  The
    eviction pass that follows the last append returns with
    [_total_written - _buffer_start = 25165824 > 25000000]: the first chunk
    ends above [keep_from = 165824], so it is not dropped. *)
Lemma buffer_cap_exceeded_after_eviction :
  ~ (forall tr : list event,
       let g := _gc_locked (run init tr) in
       _total_written g - _buffer_start g <= _MAX_STREAM_BUFFER_BYTES).
Proof.
  intros H.
  specialize (H (Register "slow" 0 :: repeat (Chunk chunk_1MiB) 24)).
  pose proof len_chunk_1MiB as L. revert H L. generalize chunk_1MiB as c.
  intros c H L. cbv zeta in H.
  assert (N : c <> []) by (intros E%len_nil_iff; lia).
  change (run init (Register "slow" 0 :: repeat (Chunk c) 24))
    with (run (iter_register "slow" 0 init) (repeat (Chunk c) 24)) in H.
  destruct (pinned_run c N 23) as (Hc & Ht & rest & Hr).
  { rewrite L. unfold _MAX_STREAM_BUFFER_BYTES. lia. }
  rewrite (gc_locked_pinned c N _ "slow" rest) in H; try done.
  - unfold _buffer_start in H. rewrite Hr, Ht, L in H. simpl front_offset in H.
    unfold _MAX_STREAM_BUFFER_BYTES in H. lia.
  - rewrite Ht, L. unfold _MAX_STREAM_BUFFER_BYTES. lia.
Qed.

(** ** The distribution hub: what a consumer receives *)

Section Slices.
Implicit Types (w : bytes) (a b c : Z).

Lemma slice_app w a b c :
  0 <= a -> a <= b -> b <= c -> c <= len w ->
  slice w a b ++ slice w b c = slice w a c.
Proof.
  unfold slice, len. intros Ha Hab Hbc Hc.
  rewrite <- (take_drop (Z.to_nat b) (take (Z.to_nat c) w)) at 2.
  rewrite take_take, Nat.min_l by lia.
  rewrite drop_app_le; [done|]. rewrite length_take. lia.
Qed.

Lemma slice_empty w a : slice w a a = [].
Proof. unfold slice. apply drop_ge. rewrite length_take. lia. Qed.

Lemma slice_grow w x a b : b <= len w -> slice (w ++ x) a b = slice w a b.
Proof. unfold slice, len. intros Hb. rewrite take_app_le; [done|lia]. Qed.

Lemma slice_to_end w a b : len w <= b -> slice w a b = drop (Z.to_nat a) w.
Proof. unfold slice, len. intros Hb. rewrite take_ge; [done|lia]. Qed.

Lemma slice_tail w x : slice (w ++ x) (len w) (len w + len x) = x.
Proof.
  unfold slice, len. rewrite take_ge by (rewrite length_app; lia).
  rewrite Nat2Z.id. by rewrite drop_app_length.
Qed.

Lemma slice_drop w a b c :
  0 <= a -> a <= b ->
  drop (Z.to_nat (b - a)) (slice w a c) = slice w b c.
Proof.
  unfold slice. intros Ha Hab. rewrite drop_drop. f_equal. lia.
Qed.
End Slices.

Section Holds.
Implicit Types (h : hub) (w : bytes).

Lemma Forall_pop_below {P : Z * bytes -> Prop} bound cs :
  Forall P cs -> Forall P (pop_below bound cs).
Proof.
  intros H. rewrite (pop_below_split bound cs) in H.
  by apply Forall_app in H as [_ H].
Qed.

Lemma gc_locked_holds w h : holds w h -> holds w (_gc_locked h).
Proof.
  intros [Ht Hf].
  gc_cases h; split; simpl; auto; repeat apply Forall_pop_below; done.
Qed.

Lemma append_holds w data h :
  hub_wf h -> holds w h -> holds (w ++ data) (append data h).
Proof.
  intros [Ht Hc] [Hw Hf]. split; simpl.
  - rewrite len_app. lia.
  - apply Forall_app. split.
    + pose proof (contiguous_ends _ _ Ht Hc) as Hends.
      rewrite Forall_forall in *. intros [s d] Hin. simpl.
      specialize (Hf _ Hin). specialize (Hends _ Hin). simpl in *.
      rewrite slice_grow; [done|lia].
    + constructor; [|constructor]. simpl. rewrite Hw. apply slice_tail.
Qed.

Lemma apply_holds ev w h :
  hub_wf h -> holds w h -> holds (w ++ produced [ev]) (apply ev h).
Proof.
  intros Hwf Hh. destruct ev as [data|e| |cid sb|cid sb|cid]; simpl;
    rewrite ?app_nil_r; try done.
  - unfold run_chunk. destruct data as [|b data]; [by rewrite app_nil_r|].
    by apply gc_locked_holds, append_holds.
  - destruct (iter_pass_hub cid sb h) as [->|[off ->]]; [done|].
    by apply gc_locked_holds.
  - by apply gc_locked_holds.
Qed.

Lemma produced_app tr1 tr2 : produced (tr1 ++ tr2) = produced tr1 ++ produced tr2.
Proof.
  induction tr1 as [|[data|e| |cid sb|cid sb|cid] tr1 IH]; simpl; try done.
  by rewrite IH, app_assoc.
Qed.

Lemma run_holds tr w h :
  hub_wf h -> holds w h -> holds (w ++ produced tr) (run h tr).
Proof.
  revert w h. induction tr as [|ev tr IH]; intros w h Hwf Hh.
  - by rewrite app_nil_r.
  - change (ev :: tr) with ([ev] ++ tr).
    rewrite produced_app, app_assoc, run_app.
    apply IH; [by apply apply_wf | by apply apply_holds].
Qed.

Lemma init_holds : holds [] init.
Proof. split; [done | constructor]. Qed.

Lemma find_chunk_spec offset cs s d :
  find_chunk offset cs = Some (s, d) ->
  (s, d) ∈ cs /\ s <= offset < s + len d.
Proof.
  induction cs as [|[s' d'] cs IH]; simpl; [done|].
  destruct (Z.leb_spec (s' + len d') offset).
  - intros [Hin ?]%IH. split; [by right | done].
  - destruct (Z.ltb_spec offset s'); [done|].
    intros [= -> ->]. split; [left | lia].
Qed.
End Holds.

Section Consumer.
Variables (cid : string) (sb : Z).
Hypothesis sb_nonneg : 0 <= sb.

Local Abbreviation cursor_inv := (cursor_inv cid sb).

Lemma cursor_inv_grow h w x out :
  cursor_inv h w out -> cursor_inv h (w ++ x) out.
Proof using Type.
  intros (off & Hoff & Hle & Hcase & ->). exists off.
  split; [done|]. split; [done|]. split.
  - rewrite len_app. pose proof (len_nonneg x). lia.
  - destruct Hcase as [->|Hin]; [by rewrite !slice_empty|].
    by rewrite slice_grow.
Qed.

Lemma apply_other_cursor ev h :
  actor ev <> Some cid ->
  _consumers (apply ev h) !! cid = _consumers h !! cid.
Proof using Type.
  intros Hne. destruct ev as [data|e| |cid' sb'|cid' sb'|cid']; simpl in *;
    try done.
  - unfold run_chunk. destruct data as [|b data]; [done|].
    by destruct (gc_locked_fields (append (b :: data) h)) as (_ & _ & _ & -> & _).
  - apply lookup_insert_ne. congruence.
  - destruct (iter_pass_hub cid' sb' h) as [->|[off ->]]; [done|].
    destruct (gc_locked_fields (with_consumers h (<[cid':=off]> (_consumers h))))
      as (_ & _ & _ & -> & _).
    simpl. apply lookup_insert_ne. congruence.
  - unfold iter_exit.
    destruct (gc_locked_fields (forget cid' h)) as (_ & _ & _ & -> & _).
    simpl. apply lookup_delete_ne. congruence.
Qed.

Lemma iter_pass_advanced h w out h' o :
  hub_wf h -> holds w h -> cursor_inv h w out ->
  iter_pass cid sb h = (h', Advanced o) ->
  hub_wf h' /\ holds w h' /\ cursor_inv h' w (out ++ o).
Proof using sb_nonneg.
  intros Hwf Hh (off & Hoff & Hle & Hcase & ->). unfold iter_pass.
  destruct (decide _); [done|]. destruct (_error h); [done|].
  rewrite Hoff. simpl.
  destruct (_ && _); [done|]. destruct (_ && _); [done|].
  destruct (find_chunk off (_chunks h)) as [[s d]|] eqn:E; [|done].
  intros [= <- <-].
  apply find_chunk_spec in E as [Hin Hrange].
  pose proof Hh as [Hw Hf]. pose proof Hwf as [Ht Hc].
  pose proof (contiguous_ends _ _ Ht Hc) as Hends.
  rewrite Forall_forall in Hf, Hends.
  specialize (Hf _ Hin). specialize (Hends _ Hin). simpl in Hf, Hends.
  assert (Hs : 0 <= s).
  { clear -Hc Hin. induction (_chunks h) as [|[s' d'] cs IH]; [by apply elem_of_nil in Hin|].
    simpl in Hc. apply elem_of_cons in Hin as [[= -> ->]|Hin]; [tauto|].
    apply IH; tauto. }
  set (o := if 0 <? off - s then drop (Z.to_nat (off - s)) d else d).
  assert (Ho : o = slice w off (s + len d)).
  { rewrite <- (slice_drop w s off) by lia. rewrite Hf. unfold o.
    destruct (Z.ltb_spec 0 (off - s)); [done|].
    by replace (off - s) with 0 by lia. }
  assert (Hlen : off + len o = s + len d).
  { rewrite Ho. unfold slice, len. rewrite length_drop, length_take.
    unfold len in *. lia. }
  split; [|split].
  - apply gc_locked_wf. exact Hwf.
  - apply gc_locked_holds. exact Hh.
  - exists (s + len d).
    destruct (gc_locked_fields (with_consumers h (<[cid:=off + len o]> (_consumers h))))
      as (_ & _ & _ & -> & _).
    simpl. rewrite lookup_insert_eq, Hlen.
    split; [done|]. split; [lia|]. split; [right; lia|].
    rewrite Ho. apply slice_app; lia.
Qed.

Lemma iter_pass_waiting h h' :
  iter_pass cid sb h = (h', Waiting) -> h' = h.
Proof using Type.
  unfold iter_pass. destruct (decide _); [done|]. destruct (_error h); [done|].
  destruct (_ && _); [done|]. destruct (_ && _); [done|].
  destruct (find_chunk _ _) as [[s d]|]; [done|]. by intros [= <-].
Qed.

Lemma consume_inv tr h w out h' out' :
  hub_wf h -> holds w h -> cursor_inv h w out ->
  consume cid sb h out tr = Some (h', out') ->
  hub_wf h' /\ holds (w ++ produced tr) h' /\
  cursor_inv h' (w ++ produced tr) out'.
Proof using sb_nonneg.
  revert h w out. induction tr as [|ev tr IH]; intros h w out Hwf Hh Hcur Hrun;
    simpl in Hrun.
  - injection Hrun as <- <-. by rewrite app_nil_r.
  - destruct (decide (actor ev = Some cid)) as [Hme|Hother].
    + destruct ev as [data|e| |cid' sb'|cid' sb'|cid']; try done.
      destruct (decide (sb' = sb)) as [->|]; [|done].
      destruct (iter_pass cid sb h) as [h1 [| | | |o]] eqn:Hp; try done.
      * apply iter_pass_waiting in Hp as ->. simpl. by apply (IH h w out).
      * destruct (iter_pass_advanced h w out h1 o Hwf Hh Hcur Hp) as (? & ? & ?).
        simpl. by apply (IH h1 w (out ++ o)).
    + change (ev :: tr) with ([ev] ++ tr). rewrite produced_app, app_assoc.
      apply (IH (apply ev h) (w ++ produced [ev]) out); [| | |done].
      * by apply apply_wf.
      * by apply apply_holds.
      * apply (cursor_inv_grow _ _ (produced [ev])) in Hcur.
        destruct Hcur as (off & Hoff & ?). exists off.
        split; [|done]. by rewrite apply_other_cursor.
Qed.

Lemma iter_pass_finished h w out :
  holds w h -> cursor_inv h w out ->
  (iter_pass cid sb h).2 = Finished ->
  out = drop (Z.to_nat sb) w.
Proof using Type.
  intros [Hw Hf] (off & Hoff & Hle & Hcase & ->). unfold iter_pass.
  destruct (decide _); [done|]. destruct (_error h); [done|].
  rewrite Hoff. simpl. destruct (_ && _); [done|].
  destruct (_done h); simpl.
  - destruct (Z.leb_spec (_total_written h) off).
    + intros _. apply slice_to_end. lia.
    + by destruct (find_chunk _ _) as [[??]|].
  - by destruct (find_chunk _ _) as [[??]|].
Qed.
End Consumer.

(** A consumer registers with [iter_bytes(start_byte)] on a hub in any
    reachable state and runs interleaved with the producer and with other
    consumers (which use other consumer ids).  If each of its passes advances
    or waits and a last pass returns normally, then what it yielded, in order,
    is exactly the bytes the producer has appended by then from offset
    [max(0, start_byte)] on, and the hub's [_total_written] is their end
    offset. *)
Lemma iter_bytes_yields_written_so_far
    (cid : string) (start_byte : Z) (pre mid : list event) (h : hub) (out : bytes) :
  consume cid (clamp_start start_byte)
    (iter_register cid start_byte (run init pre)) [] mid = Some (h, out) ->
  (iter_pass cid (clamp_start start_byte) h).2 = Finished ->
  out = drop (Z.to_nat (clamp_start start_byte)) (produced (pre ++ mid)) /\
  _total_written h = len (produced (pre ++ mid)).
Proof.
  intros Hrun Hfin.
  assert (Hsb : 0 <= clamp_start start_byte) by (unfold clamp_start; lia).
  pose proof (run_wf init pre init_wf) as Hwf.
  pose proof (run_holds pre [] init init_wf init_holds) as Hh. simpl in Hh.
  destruct (consume_inv cid (clamp_start start_byte) Hsb mid
              (iter_register cid start_byte (run init pre)) (produced pre) []
              h out) as (Hwf' & Hh' & Hcur'); try done.
  - exists (clamp_start start_byte). unfold iter_register. simpl.
    rewrite lookup_insert_eq. split; [done|]. split; [lia|]. split; [by left|].
    by rewrite slice_empty.
  - rewrite produced_app. split; [|by destruct Hh'].
    by apply (iter_pass_finished cid (clamp_start start_byte) h).
Qed.

Section FirstRun.
Implicit Types (h : hub) (tr : list event) (ev : event).

Lemma iter_pass_done cid sb h : _done (iter_pass cid sb h).1 = _done h.
Proof.
  destruct (iter_pass_hub cid sb h) as [->|[off ->]]; [done|].
  by destruct (gc_locked_fields (with_consumers h (<[cid:=off]> (_consumers h))))
    as (_ & -> & _).
Qed.

Lemma apply_done ev h : _done (apply ev h) = true -> _done h = true \/ ev = Done.
Proof.
  destruct ev as [data|e| |cid sb|cid sb|cid]; simpl; auto.
  - unfold run_chunk. destruct data as [|b data]; [auto|].
    destruct (gc_locked_fields (append (b :: data) h)) as (_ & -> & _). auto.
  - rewrite iter_pass_done. auto.
  - unfold iter_exit. destruct (gc_locked_fields (forget cid h)) as (_ & -> & _). auto.
Qed.

Lemma run_done tr h : _done (run h tr) = true -> _done h = true \/ Done ∈ tr.
Proof.
  revert h. induction tr as [|ev tr IH]; intros h; [by left|].
  change (run h (ev :: tr)) with (run (apply ev h) tr).
  intros [[?| ->]%apply_done|Hin]%IH.
  - by left.
  - right. left.
  - right. by right.
Qed.

Lemma consume_done cid sb tr h out h' out' :
  consume cid sb h out tr = Some (h', out') ->
  _done h' = true -> _done h = true \/ Done ∈ tr.
Proof.
  revert h out. induction tr as [|ev tr IH]; intros h out; simpl.
  { intros [= <- <-]. by left. }
  destruct (decide (actor ev = Some cid)) as [Hme|Hother].
  - destruct ev as [data|e| |cid' sb'|cid' sb'|cid']; try done.
    destruct (decide (sb' = sb)) as [->|]; [|done].
    pose proof (iter_pass_done cid sb h) as Hd.
    destruct (iter_pass cid sb h) as [h1 [| | | |o]]; try done; simpl in Hd;
      intros Hrun Hdone; destruct (IH _ _ Hrun Hdone) as [?|?];
      try (left; congruence); right; by right.
  - intros Hrun Hdone. destruct (IH _ _ Hrun Hdone) as [[?| ->]%apply_done|?].
    + by left.
    + right. left.
    + right. by right.
Qed.

Lemma quiet_produced tr :
  forallb (λ ev, negb (producer_step ev)) tr = true -> produced tr = [].
Proof.
  induction tr as [|[data|e| |cid sb|cid sb|cid] tr IH]; simpl; try done.
Qed.

Lemma runs_once_after tr1 tr2 :
  runs_once (tr1 ++ tr2) = true -> Done ∈ tr1 -> produced tr2 = [].
Proof.
  induction tr1 as [|ev tr1 IH]; [by intros _ ?%elem_of_nil|].
  intros Hrun Hin.
  destruct ev as [data|e| |cid sb|cid sb|cid];
    try (apply elem_of_cons in Hin as [?|Hin]; [done|]; by apply IH).
  simpl in Hrun. rewrite forallb_app in Hrun.
  apply andb_true_iff in Hrun as [_ Hq]. by apply quiet_produced.
Qed.

Lemma finished_done cid sb h : (iter_pass cid sb h).2 = Finished -> _done h = true.
Proof.
  unfold iter_pass. destruct (decide _); [done|]. destruct (_error h); [done|].
  destruct (_ && _); [done|]. destruct (_done h); [done|]. simpl.
  by destruct (find_chunk _ _) as [[??]|].
Qed.
End FirstRun.

(** C1, as amended.  On a hub whose producer runs once (after [_run] has
    reached its [finally] block no producer step follows, in particular
    [start] has not created a second task), a consumer registers with
    [iter_bytes(start_byte)] in any reachable state and runs interleaved with
    the producer and with other consumers, none of which uses its consumer
    id.  If each of its passes advances or waits and a last pass returns
    normally, then what it yielded, in order, is exactly the bytes of the
    stream from offset [max(0, start_byte)] to its end: the producer appends
    nothing afterwards, whatever [post] happens on the hub. *)
Theorem iter_bytes_yields_exact_suffix
    (cid : string) (start_byte : Z) (pre life post : list event) (h : hub)
    (out : bytes) :
  runs_once (pre ++ life ++ post) = true ->
  consume cid (clamp_start start_byte)
    (iter_register cid start_byte (run init pre)) [] life = Some (h, out) ->
  (iter_pass cid (clamp_start start_byte) h).2 = Finished ->
  out = drop (Z.to_nat (clamp_start start_byte)) (produced (pre ++ life ++ post)) /\
  produced post = [] /\
  _total_written h = len (produced (pre ++ life ++ post)).
Proof.
  intros Honce Hrun Hfin.
  destruct (iter_bytes_yields_written_so_far cid start_byte pre life h out Hrun Hfin)
    as [Hout Htotal].
  assert (Hdone : Done ∈ pre ++ life).
  { apply finished_done in Hfin.
    destruct (consume_done _ _ _ _ _ _ _ Hrun Hfin) as [Hd|Hd].
    - unfold iter_register in Hd. simpl in Hd.
      apply run_done in Hd as [Hd|Hd]; [done|]. apply elem_of_app. by left.
    - apply elem_of_app. by right. }
  rewrite app_assoc in Honce.
  pose proof (runs_once_after _ _ Honce Hdone) as Hpost.
  rewrite app_assoc, (produced_app (pre ++ life) post), Hpost, app_nil_r.
  done.
Qed.

Lemma iter_bytes_yields_exact_suffix_witness :
  let life := [Chunk ["001"; "002"; "003"]%byte; Pass "a" 1; Register "b" 0;
               Chunk ["004"; "005"]%byte; Pass "b" 0; Pass "a" 1; Done] in
  let post := [Pass "b" 0; Pass "b" 0; Exit "b"] in
  exists h,
    consume "a" (clamp_start 1) (iter_register "a" 1 (run init [])) [] life
    = Some (h, ["002"; "003"; "004"; "005"]%byte) /\
    ["002"; "003"; "004"; "005"]%byte
    = drop (Z.to_nat (clamp_start 1)) (produced ([] ++ life ++ post)).
Proof.
  intros life post. eexists. split; [reflexivity|].
  refine (proj1 (iter_bytes_yields_exact_suffix "a" 1 [] life post _ _ _ _ _));
    reflexivity.
Defined.

(** C1, counterexamples to the claim as stated.

    First, a producer that is spawned again.  [start] creates a new [_run]
    task whenever the last one is done, and nothing clears [_done],
    [_total_written] or the buffer, so the second run appends the file once
    more behind the first copy while [_done] is still set.  The file has the
    chunks [1 2] and [3].  Consumer ["a"] registers at offset 0, the producer
    delivers the file and ends, a second producer appends the first chunk
    again, and ["a"] makes its passes: it yields [1 2 3 1 2] and then returns
    normally, because its cursor has reached [_total_written].  That is not
    the file, and not what the producers have appended when the second one
    ends ([1 2 3 1 2 3]).

    Second, a consumer id that is drawn twice.  The id is
    [str(time.time_ns())]; two generators that read the same clock value
    share one cursor.  Consumer ["b"] keeps the chunk [1 2 3] in the buffer;
    generator ["a"] yields it, a second generator registers under the same
    id at offset 0 and so resets the cursor, and the first generator yields
    the chunk again before it returns normally: [1 2 3 1 2 3] for a stream of
    three bytes. *)
Lemma iter_bytes_not_exact_suffix :
  (let c1 := ["001"; "002"]%byte in
   let c2 := ["003"]%byte in
   let life := [Chunk c1; Chunk c2; Done; Chunk c1;
                Pass "a" 0; Pass "a" 0; Pass "a" 0] in
   exists h,
     consume "a" (clamp_start 0) (iter_register "a" 0 (run init [])) [] life
       = Some (h, c1 ++ c2 ++ c1) /\
     (iter_pass "a" (clamp_start 0) h).2 = Finished /\
     c1 ++ c2 ++ c1 <> c1 ++ c2 /\
     c1 ++ c2 ++ c1
       <> drop (Z.to_nat (clamp_start 0)) (produced ([] ++ life ++ [Chunk c2; Done]))) /\
  (let c := ["001"; "002"; "003"]%byte in
   let h1 := run init [Register "b" 0; Register "a" 0; Chunk c] in
   let h2 := apply (Register "a" 0) (iter_pass "a" (clamp_start 0) h1).1 in
   let h3 := apply Done (iter_pass "a" (clamp_start 0) h2).1 in
   (iter_pass "a" (clamp_start 0) h1).2 = Advanced c /\
   (iter_pass "a" (clamp_start 0) h2).2 = Advanced c /\
   (iter_pass "a" (clamp_start 0) h3).2 = Finished /\
   runs_once [Register "b" 0; Register "a" 0; Chunk c; Pass "a" 0; Register "a" 0;
              Pass "a" 0; Done; Pass "a" 0] = true /\
   c ++ c <> drop (Z.to_nat (clamp_start 0))
               (produced [Register "b" 0; Register "a" 0; Chunk c; Pass "a" 0;
                          Register "a" 0; Pass "a" 0; Done; Pass "a" 0])).
Proof.
  split.
  - intros c1 c2 life. eexists. split; [vm_compute; reflexivity|].
    split; [vm_compute; reflexivity|]. split; by intros ?.
  - intros c h1 h2 h3. split; [vm_compute; reflexivity|].
    split; [vm_compute; reflexivity|]. split; [vm_compute; reflexivity|].
    split; [reflexivity | by intros ?].
Qed.

End StreamHubFacts.

(** ** Dictionaries *)

Module DictFacts.
Section DictFacts.
Context {K V : Type} `{EqDecision K}.
Implicit Types (d : list (K * V)) (k : K) (v : V).

Lemma get_set k k' v d :
  Dict.get k' (Dict.set k v d) = if decide (k = k') then Some v else Dict.get k' d.
Proof.
  induction d as [|[k0 v0] d IH]; simpl.
  - repeat case_decide; congruence.
  - destruct (decide (k0 = k)) as [->|Hne]; simpl; repeat case_decide; congruence.
Qed.

Lemma get_is_Some k d : is_Some (Dict.get k d) <-> k ∈ Dict.keys d.
Proof.
  unfold Dict.keys. induction d as [|[k0 v0] d IH]; simpl.
  - split; [by intros [? ?] | by intros ?%elem_of_nil].
  - rewrite elem_of_cons. case_decide; [naive_solver|].
    rewrite IH. naive_solver.
Qed.

Lemma keys_set_present k v d :
  k ∈ Dict.keys d -> Dict.keys (Dict.set k v d) = Dict.keys d.
Proof.
  unfold Dict.keys. induction d as [|[k0 v0] d IH]; simpl.
  - by intros ?%elem_of_nil.
  - intros Hin. case_decide as Hk; simpl; [by subst|].
    f_equal. apply IH. apply elem_of_cons in Hin as [->|]; done.
Qed.

Lemma Forall_set (P : K * V -> Prop) k v d :
  P (k, v) -> Forall P d -> Forall P (Dict.set k v d).
Proof.
  intros Hk. induction 1 as [|[k0 v0] d H0 Hd IH]; simpl.
  - by repeat constructor.
  - case_decide; constructor; auto.
Qed.

Lemma get_Forall (P : K * V -> Prop) k v d :
  Forall P d -> Dict.get k d = Some v -> P (k, v).
Proof.
  induction 1 as [|[k0 v0] d H0 Hd IH]; simpl; [done|].
  case_decide; [|done]. intros [= <-]. by subst.
Qed.

Lemma get_pop k k' d :
  Dict.get k (Dict.pop k' d) = if decide (k = k') then None else Dict.get k d.
Proof.
  unfold Dict.pop. induction d as [|[k0 v0] d IH]; [by case_decide|].
  rewrite filter_cons. cbn [fst]. destruct (decide (k0 <> k')) as [Hne|Heq].
  - cbn [Dict.get]. rewrite IH. repeat case_decide; congruence.
  - rewrite IH. cbn [Dict.get]. repeat case_decide; try congruence.
    subst. exfalso. by apply Heq.
Qed.
End DictFacts.
End DictFacts.

(** ** The connection pool *)

Module PoolFacts.
Import Pool DictFacts.


Section Selection.
Variable cfg : config.
Implicit Types (p : pool) (c : Z).

Local Abbreviation balanced := (balanced cfg).

Lemma load_nonneg p c : nonneg p -> 0 <= load p c.
Proof using Type.
  intros Hp. unfold load. destruct (Dict.get c (work_loads p)) as [v|] eqn:E; [|done].
  apply (get_Forall _ _ _ _ Hp E).
Qed.

Lemma candidates_subset p c :
  c ∈ candidates cfg p -> c ∈ Dict.keys (work_loads p).
Proof using Type.
  unfold candidates. destruct (_primary_user_id cfg) as [primary|]; [|done].
  destruct (_ && _); [|done].
  destruct (filter _ _) as [|o os] eqn:E; [done|].
  rewrite <- E. by intros [_ ?]%list_elem_of_filter.
Qed.

Lemma candidates_same_keys p p' :
  Dict.keys (work_loads p') = Dict.keys (work_loads p) ->
  candidates cfg p' = candidates cfg p.
Proof using Type. unfold candidates. by intros ->. Qed.

(** What a successful acquire chose and did. *)
Lemma acquire_spec p cid p' :
  acquire_stream_client cfg p = Some (cid, p') ->
  cid ∈ candidates cfg p /\
  (forall c, c ∈ candidates cfg p -> load p cid <= load p c) /\
  work_loads p' = Dict.set cid (load p cid + 1) (work_loads p).
Proof using Type.
  unfold acquire_stream_client. destruct (negb _); [done|].
  destruct (candidates cfg p) as [|c0 cs] eqn:Ecand; [done|].
  set (min_load := foldr Z.min (load p c0) (load p <$> cs)).
  set (tied := merge_sort Z.le (filter (λ c, load p c = min_load) (c0 :: cs))).
  assert (Htied : forall c, c ∈ tied -> c ∈ c0 :: cs /\ load p c = min_load).
  { intros c Hc. unfold tied in Hc. rewrite merge_sort_Permutation in Hc.
    apply list_elem_of_filter in Hc. tauto. }
  assert (Hmin : forall c, c ∈ c0 :: cs -> min_load <= load p c).
  { intros c Hc. apply foldr_min_le.
    change (load p c0 :: (load p <$> cs)) with (load p <$> c0 :: cs).
    by apply list_elem_of_fmap_2. }
  assert (Hne : tied <> []).
  { pose proof (foldr_min_in (load p c0) (load p <$> cs)) as Hin.
    change (load p c0 :: (load p <$> cs)) with (load p <$> c0 :: cs) in Hin.
    apply list_elem_of_fmap in Hin as (c & Hc & Hin).
    assert (c ∈ tied) as Hct.
    { unfold tied. rewrite merge_sort_Permutation.
      apply list_elem_of_filter. split; [by unfold min_load|done]. }
    intros E. rewrite E in Hct. by apply elem_of_nil in Hct. }
  destruct tied as [|t0 ts] eqn:Et; [done|].
  destruct (_ !! _) as [c|] eqn:Eidx; simpl; [|done].
  intros [= <- <-]. apply list_elem_of_lookup_2 in Eidx.
  destruct (Htied _ Eidx) as [Hin Hload].
  split; [done|]. split; [|done].
  intros c' Hc'. rewrite Hload. by apply Hmin.
Qed.

Lemma acquire_keys p cid p' :
  acquire_stream_client cfg p = Some (cid, p') ->
  Dict.keys (work_loads p') = Dict.keys (work_loads p).
Proof using Type.
  intros (Hin & _ & ->)%acquire_spec.
  by apply keys_set_present, candidates_subset.
Qed.

Lemma acquire_load p cid p' c :
  acquire_stream_client cfg p = Some (cid, p') ->
  load p' c = if decide (cid = c) then load p cid + 1 else load p c.
Proof using Type.
  intros (_ & _ & E)%acquire_spec. unfold load at 1. rewrite E, get_set.
  by case_decide.
Qed.

Lemma step_nonneg p o : nonneg p -> nonneg (step cfg p o).
Proof using Type.
  intros Hp. destruct o as [|client_id]; simpl.
  - destruct (acquire_stream_client cfg p) as [[cid p']|] eqn:E; [|done].
    apply acquire_spec in E as (_ & _ & E). unfold nonneg. rewrite E.
    apply Forall_set; [|done]. simpl. pose proof (load_nonneg p cid Hp). lia.
  - unfold release_stream_client. destruct (Dict.get _ _); [|done].
    apply Forall_set; [|done]. simpl.
    destruct (Z.ltb_spec 0 (load p client_id - 1)); lia.
Qed.

Lemma run_nonneg p ops : nonneg p -> nonneg (run cfg p ops).
Proof using Type.
  revert p. induction ops as [|o ops IH]; intros p Hp; [done|].
  change (nonneg (run cfg (step cfg p o) ops)).
  by apply IH, step_nonneg.
Qed.

Lemma acquire_balanced p : balanced p -> balanced (step cfg p Acquire).
Proof using Type.
  intros Hb. simpl.
  destruct (acquire_stream_client cfg p) as [[cid p']|] eqn:E; [|done].
  pose proof (acquire_spec _ _ _ E) as (Hin & Hmin & _).
  intros c1 c2. rewrite (candidates_same_keys p p') by by eapply acquire_keys.
  intros H1 H2. rewrite !(acquire_load _ _ _ _ E).
  specialize (Hb c1 c2 H1 H2). pose proof (Hmin c1 H1). pose proof (Hmin c2 H2).
  pose proof (Hb' := Hb). repeat case_decide; subst; lia.
Qed.

Lemma acquires_balanced p n : balanced p -> balanced (run cfg p (repeat Acquire n)).
Proof using Type.
  revert p. induction n as [|n IH]; intros p Hb; [done|].
  change (balanced (run cfg (step cfg p Acquire) (repeat Acquire n))).
  by apply IH, acquire_balanced.
Qed.
End Selection.

Lemma fresh_zero uids :
  Forall (λ kv : Z * Z, kv.2 = 0) (work_loads (fresh uids)).
Proof.
  unfold fresh. simpl.
  assert (H0 : Forall (λ kv : Z * Z, kv.2 = 0) []) by constructor.
  revert H0. generalize (@nil (Z * Z)).
  induction uids as [|u uids IH]; intros d Hd; simpl; [exact Hd|].
  apply IH. by apply Forall_set.
Qed.

Lemma fresh_load uids c : load (fresh uids) c = 0.
Proof.
  unfold load. destruct (Dict.get c _) as [v|] eqn:E; [|done].
  apply (get_Forall _ _ _ _ (fresh_zero uids) E).
Qed.

(** C6, as the code has it.  From a pool whose handles were just registered,
    every load counter stays non-negative along any sequence of acquires and
    releases; and along any sequence of acquires with no release in between,
    the loads of any two candidate handles differ by at most 1.  The
    candidates are all handles, without the primary one when multi-client mode
    is on and another handle exists. *)
Theorem pool_loads_nonneg_and_candidates_balanced (cfg : config) (uids : list Z) :
  (forall ops c, 0 <= load (run cfg (fresh uids) ops) c) /\
  (forall n c1 c2,
     let p := run cfg (fresh uids) (repeat Acquire n) in
     c1 ∈ candidates cfg p -> c2 ∈ candidates cfg p ->
     Z.abs (load p c1 - load p c2) <= 1).
Proof.
  split.
  - intros ops c. apply load_nonneg, run_nonneg.
    unfold nonneg. eapply Forall_impl; [apply fresh_zero|]. simpl. intros; lia.
  - intros n c1 c2 p H1 H2.
    assert (Hb : balanced cfg p).
    { apply acquires_balanced. intros ? ? _ _. rewrite !fresh_load. lia. }
    pose proof (Hb c1 c2 H1 H2). pose proof (Hb c2 c1 H2 H1). lia.
Qed.

Lemma pool_loads_nonneg_and_candidates_balanced_witness :
  let cfg := Config true true (Some 1) in
  let p := run cfg (fresh [1; 2; 3]) (repeat Acquire 3) in
  Z.abs (load p 2 - load p 3) <= 1.
Proof.
  intros cfg p.
  assert (E : candidates cfg p = [2; 3]) by (vm_compute; reflexivity).
  pose proof (proj2 (pool_loads_nonneg_and_candidates_balanced cfg [1; 2; 3]) 3%nat 2 3)
    as H.
  cbv zeta in H. fold p in H. rewrite E in H.
  apply H; [left | right; left].
Defined.

(** C6, counterexamples to the bound over all handles and all sequences.
    (1) Multi-client mode is on with the primary handle 1 and one more handle
    2.  Two acquires both go to handle 2, the only candidate: its load is 2
    while the primary's stays 0.  (2) Without multi-client mode, four acquires
    on the handles 1 and 2 give each a load of 2; releasing handle 1 twice
    leaves the loads 0 and 2 with two acquires outstanding. *)
Lemma pool_primary_left_idle :
  ~ (forall cfg uids n c1 c2,
       c1 ∈ uids -> c2 ∈ uids ->
       let p := run cfg (fresh uids) (repeat Acquire n) in
       Z.abs (load p c1 - load p c2) <= 1) /\
  ~ (forall uids ops c1 c2,
       c1 ∈ uids -> c2 ∈ uids ->
       let p := run (Config true false None) (fresh uids) ops in
       Z.abs (load p c1 - load p c2) <= 1).
Proof.
  split; intros H.
  - assert (H2 : (2 : Z) ∈ [1; 2]) by set_solver.
    assert (H1 : (1 : Z) ∈ [1; 2]) by set_solver.
    pose proof (H (Config true true (Some 1)) [1; 2] 2%nat 2 1 H2 H1) as Hbad.
    vm_compute in Hbad. by apply Hbad.
  - assert (H2 : (2 : Z) ∈ [1; 2]) by set_solver.
    assert (H1 : (1 : Z) ∈ [1; 2]) by set_solver.
    pose proof (H [1; 2] [Acquire; Acquire; Acquire; Acquire; Release 1; Release 1]
                  2 1 H2 H1) as Hbad.
    vm_compute in Hbad. by apply Hbad.
Qed.

End PoolFacts.

(** ** The hub registry: one producer per resource identity *)

Module HubRegistryFacts.
Import HubRegistry.

Section Hubs.
Implicit Types (h : hub) (w : world) (l : list hub).

Lemma start_ok h : hub_ok h -> hub_ok (start h).
Proof.
  intros Hok. unfold start. destruct (producer_done h) eqn:Hd; [|done].
  intros t. simpl. intros Ht. apply lookup_app_Some in Ht as [Ht|[Hle Ht]].
  - apply Hok in Ht as Hp. unfold producer_done in Hd. rewrite Hp, Ht in Hd. done.
  - apply list_lookup_singleton_Some in Ht as [Ht _]. f_equal. lia.
Qed.

Lemma finish_ok t h : hub_ok h -> hub_ok (finish t h).
Proof.
  intros Hok t'. simpl. intros Ht.
  destruct (decide (t = t')) as [->|Hne].
  - apply list_lookup_insert_Some in Ht as [(_ & ? & _)|[? _]]; done.
  - rewrite list_lookup_insert_ne in Ht by done. by apply Hok.
Qed.

Lemma start_key h : hub_key (start h) = hub_key h.
Proof. unfold start. by destruct (producer_done h). Qed.

Lemma finish_key t h : hub_key (finish t h) = hub_key h.
Proof. done. Qed.

Lemma no_running (bs : list bool) :
  (forall t, bs !! t <> Some false) -> filter (λ d, d = false) bs = [].
Proof.
  induction bs as [|b bs IH]; intros H; [done|].
  rewrite filter_cons. destruct (decide (b = false)) as [->|_].
  - by specialize (H 0%nat).
  - apply IH. intros t. apply (H (S t)).
Qed.

Lemma running_le_1 h : hub_ok h -> (running h <= 1)%nat.
Proof.
  unfold hub_ok, running. generalize (_producer h). generalize (tasks h).
  induction l as [|b bs IH]; intros prod Hok; [simpl; lia|].
  rewrite filter_cons. destruct (decide (b = false)) as [->|_].
  - rewrite no_running; [simpl; lia|].
    intros t Ht. pose proof (Hok 0%nat eq_refl). pose proof (Hok (S t) Ht). congruence.
  - apply (IH (pred <$> prod)). intros t Ht. by rewrite (Hok (S t) Ht).
Qed.

Lemma keyed_at_most_once key l :
  keys_distinct l -> (length (filter (λ h, hub_key h = key) l) <= 1)%nat.
Proof.
  induction l as [|h l IH]; intros Hd; [simpl; lia|].
  assert (Hd' : keys_distinct l).
  { intros a a' x x' Ha Ha' E. by pose proof (Hd (S a) (S a') x x' Ha Ha' E) as [= ->]. }
  rewrite filter_cons. destruct (decide (hub_key h = key)) as [Hk|_]; [|by apply IH].
  assert (E : filter (λ h, hub_key h = key) l = []); [|rewrite E; simpl; lia].
  destruct (filter _ l) as [|x xs] eqn:Ef; [done|].
  assert (Hx : x ∈ filter (λ h, hub_key h = key) l) by (rewrite Ef; left).
  apply list_elem_of_filter in Hx as [Hkx [a Ha]%list_elem_of_lookup].
  by pose proof (Hd 0%nat (S a) h x eq_refl Ha (eq_trans Hk (eq_sym Hkx))).
Qed.

Lemma sum_keyed (f : hub -> nat) key l :
  keys_distinct l -> Forall (λ h, (f h <= 1)%nat) l ->
  (sum_list_with f (filter (λ h, hub_key h = key) l) <= 1)%nat.
Proof.
  intros Hd Hf. pose proof (keyed_at_most_once key l Hd) as Hlen.
  assert (Hf' : Forall (λ h, (f h <= 1)%nat) (filter (λ h, hub_key h = key) l)).
  { rewrite Forall_forall in *. intros x [_ Hx]%list_elem_of_filter. by apply Hf. }
  destruct (filter _ l) as [|x [|y ys]]; simpl in *; [lia| |lia].
  apply Forall_cons in Hf' as [Hx _]. lia.
Qed.

Lemma sum_keyed_one (f : hub -> nat) key l a h :
  keys_distinct l -> Forall (λ h, f h = 1%nat) l ->
  l !! a = Some h -> hub_key h = key ->
  sum_list_with f (filter (λ h, hub_key h = key) l) = 1%nat.
Proof.
  intros Hd Hf Ha Hk. pose proof (keyed_at_most_once key l Hd) as Hlen.
  assert (Hin : h ∈ filter (λ h, hub_key h = key) l).
  { apply list_elem_of_filter. split; [done|]. by eapply list_elem_of_lookup_2. }
  assert (Hf' : Forall (λ h, f h = 1%nat) (filter (λ h, hub_key h = key) l)).
  { rewrite Forall_forall in *. intros x [_ Hx]%list_elem_of_filter. by apply Hf. }
  destruct (filter _ l) as [|x [|y ys]]; simpl in *;
    [by apply elem_of_nil in Hin| |lia].
  apply Forall_cons in Hf' as [Hx _]. lia.
Qed.

Lemma registered_distinct w : registered w -> keys_distinct (heap w).
Proof.
  intros [Hheap _] a a' h h' Ha Ha' E.
  apply Hheap in Ha, Ha'. rewrite E in Ha. congruence.
Qed.

Lemma alter_registered (f : hub -> hub) a w :
  (forall h, hub_key (f h) = hub_key h) -> registered w ->
  registered {| heap := alter f a (heap w); _STREAM_HUBS := _STREAM_HUBS w |}.
Proof.
  intros Hf [Hheap Hreg]. split; simpl.
  - intros a' h. rewrite list_lookup_alter. case_decide as E.
    + subst a'. destruct (heap w !! a) as [h0|] eqn:E0; [|done].
      simpl. intros [= <-]. rewrite Hf. by apply Hheap.
    + apply Hheap.
  - intros key a' Hk. destruct (Hreg key a' Hk) as (h & Hh & Hkey).
    destruct (decide (a = a')) as [->|Hne].
    + exists (f h). rewrite list_lookup_alter_eq, Hh. simpl. by rewrite Hf.
    + exists h. by rewrite list_lookup_alter_ne.
Qed.

Lemma create_registered fid chat msg w :
  registered w -> _STREAM_HUBS w !! _hub_key fid chat msg = None ->
  registered
    {| heap := heap w ++ [HubObj fid chat msg [] None];
       _STREAM_HUBS := <[_hub_key fid chat msg := length (heap w)]> (_STREAM_HUBS w) |}.
Proof.
  intros [Hheap Hreg] Hnone. split; simpl.
  - intros a h Ha. apply lookup_app_Some in Ha as [Ha|[Hle Ha]].
    + pose proof (Hheap a h Ha) as Hk. rewrite lookup_insert_ne; [done|].
      intros E. rewrite <- E in Hk. congruence.
    + apply list_lookup_singleton_Some in Ha as [Ha <-].
      unfold hub_key. simpl. rewrite lookup_insert_eq. f_equal. lia.
  - intros key a. rewrite lookup_insert. case_decide as E.
    + intros [= <-]. subst key. exists (HubObj fid chat msg [] None).
      split; [|done]. by rewrite lookup_app_r, Nat.sub_diag.
    + intros Hk. destruct (Hreg key a Hk) as (h & Hh & Hkey).
      exists h. split; [|done]. by apply lookup_app_l_Some.
Qed.

Lemma start_at_ok a w : world_ok w -> world_ok (start_at a w).
Proof.
  intros [Hok Hreg]. split.
  - apply Forall_alter; [done|]. intros h _. apply start_ok.
  - apply alter_registered; [apply start_key | done].
Qed.

Lemma apply_ok ev w : world_ok w -> world_ok (apply ev w).
Proof.
  intros Hw. destruct ev as [fid chat msg|a|a t]; simpl.
  - unfold _get_or_create_hub.
    destruct (_STREAM_HUBS w !! _hub_key fid chat msg) as [a|] eqn:E; simpl.
    + by apply start_at_ok.
    + apply start_at_ok. destruct Hw as [Hok Hreg]. split; simpl.
      * apply Forall_app. split; [done|]. constructor; [|constructor].
        intros t. simpl. by rewrite lookup_nil.
      * by apply create_registered.
  - by apply start_at_ok.
  - destruct Hw as [Hok Hreg]. split; simpl.
    + apply Forall_alter; [done|]. intros h _. apply finish_ok.
    + apply alter_registered; [apply finish_key | done].
Qed.

Lemma run_ok tr w : world_ok w -> world_ok (run w tr).
Proof.
  revert w. induction tr as [|ev tr IH]; intros w Hw; [done|].
  apply (IH (apply ev w)), apply_ok, Hw.
Qed.

Lemma empty_ok : world_ok empty.
Proof.
  split; [constructor|]. split; simpl.
  - intros a h. by rewrite lookup_nil.
  - intros key a. by rewrite lookup_empty.
Qed.

(** The registry never forgets or moves a hub. *)
Lemma apply_keeps key a ev w :
  _STREAM_HUBS w !! key = Some a -> _STREAM_HUBS (apply ev w) !! key = Some a.
Proof.
  intros Hk. destruct ev as [fid chat msg|a'|a' t]; simpl; try done.
  unfold _get_or_create_hub.
  destruct (_STREAM_HUBS w !! _hub_key fid chat msg) as [a'|] eqn:E; simpl; [done|].
  rewrite lookup_insert_ne; [done|]. intros E'. rewrite E' in E. congruence.
Qed.

Lemma run_keeps key a tr w :
  _STREAM_HUBS w !! key = Some a -> _STREAM_HUBS (run w tr) !! key = Some a.
Proof.
  revert w. induction tr as [|ev tr IH]; intros w Hk; [done|].
  apply (IH (apply ev w)), apply_keeps, Hk.
Qed.

Lemma get_or_create_registers fid chat msg w :
  _STREAM_HUBS (_get_or_create_hub fid chat msg w).2 !! _hub_key fid chat msg
    = Some (_get_or_create_hub fid chat msg w).1.
Proof.
  unfold _get_or_create_hub.
  destruct (_STREAM_HUBS w !! _hub_key fid chat msg) as [a|] eqn:E; simpl; [done|].
  apply lookup_insert_eq.
Qed.

(** With no task ending, every hub has exactly its first task. *)
Lemma start_single h : single_task h -> single_task (start h).
Proof.
  intros [Ht Hp]. unfold start, producer_done. rewrite Hp, Ht. simpl.
  unfold single_task. by rewrite Ht, Hp.
Qed.

Lemma apply_single ev w :
  no_task_ends [ev] = true ->
  Forall single_task (heap w) -> Forall single_task (heap (apply ev w)).
Proof.
  intros Hev Hs. destruct ev as [fid chat msg|a|a t]; simpl in *; [| |done].
  - unfold _get_or_create_hub.
    destruct (_STREAM_HUBS w !! _hub_key fid chat msg) as [a|] eqn:E; simpl.
    + apply Forall_alter; [done|]. intros h _. apply start_single.
    + rewrite <- (Nat.add_0_r (length (heap w))), alter_app_r. simpl.
      apply Forall_app. split; [done|]. by repeat constructor.
  - apply Forall_alter; [done|]. intros h _. apply start_single.
Qed.

Lemma run_single tr w :
  no_task_ends tr = true ->
  Forall single_task (heap w) -> Forall single_task (heap (run w tr)).
Proof.
  revert w. induction tr as [|ev tr IH]; intros w Htr Hs; [done|].
  simpl in Htr. apply andb_true_iff in Htr as [Hev Htr].
  apply (IH (apply ev w) Htr), apply_single; [|done].
  simpl. by rewrite Hev.
Qed.
End Hubs.

(** C5.  Along every run of request handling that starts with an empty
    registry: (1) for every resource identity at most one producer task is
    running; (2) a request for an identity gets the hub that any earlier request
    for the same identity got, whatever happened in between; (3) as long as
    no producer task has ended, every identity that was requested has exactly
    one producer task, created once and running, however many requests and
    consumers arrived. *)
Theorem one_producer_per_identity (tr : list event) :
  let w := run empty tr in
  (forall key, (running_for key w <= 1)%nat) /\
  (forall fid chat msg fid' chat' msg' tr',
     _hub_key fid chat msg = _hub_key fid' chat' msg' ->
     (_get_or_create_hub fid' chat' msg'
        (run (_get_or_create_hub fid chat msg w).2 tr')).1
     = (_get_or_create_hub fid chat msg w).1) /\
  (no_task_ends tr = true ->
   forall key,
     (spawned_for key w <= 1)%nat /\
     (is_Some (_STREAM_HUBS w !! key) ->
        spawned_for key w = 1%nat /\ running_for key w = 1%nat)).
Proof.
  intros w. destruct (run_ok tr empty empty_ok) as [Hok Hreg]. fold w in Hok, Hreg.
  pose proof (registered_distinct w Hreg) as Hd.
  split; [|split].
  - intros key. unfold running_for. apply sum_keyed; [done|].
    eapply Forall_impl; [exact Hok|]. apply running_le_1.
  - intros fid chat msg fid' chat' msg' tr' Hkey.
    pose proof (get_or_create_registers fid chat msg w) as Hr.
    apply (run_keeps _ _ tr') in Hr. rewrite Hkey in Hr.
    unfold _get_or_create_hub at 1. by rewrite Hr.
  - intros Htr key.
    assert (Hs : Forall single_task (heap w)).
    { apply run_single; [done | constructor]. }
    unfold spawned_for, running_for. split.
    + apply sum_keyed; [done|]. eapply Forall_impl; [exact Hs|].
      intros h [-> _]. simpl. lia.
    + intros [a Ha]. destruct Hreg as [_ Hreg].
      destruct (Hreg key a Ha) as (h & Hh & Hk).
      split; eapply sum_keyed_one; try done.
      * eapply Forall_impl; [exact Hs|]. by intros ? [-> _].
      * eapply Forall_impl; [exact Hs|]. intros ? [E _]. unfold running. by rewrite E.
Qed.

Lemma one_producer_per_identity_witness :
  let tr := [Request "f1" (Some (-1001)) (Some 7); Attach 0%nat;
             Request "f2" (Some (-1001)) (Some 7); Attach 0%nat] in
  spawned_for "m:-1001:7" (run empty tr) = 1%nat /\
  running_for "m:-1001:7" (run empty tr) = 1%nat.
Proof.
  intros tr.
  destruct (one_producer_per_identity tr) as (_ & _ & H).
  apply (H eq_refl "m:-1001:7"). vm_compute. eauto.
Defined.

End HubRegistryFacts.

(** ** The play-progress tracker: merging covered ranges *)

Module MergeFacts.
Import PlayProgress.

Section Loop.
Implicit Types (rs out : list (Z * Z)) (s e lo : Z).

Lemma merge_loop_tail rs s e ins out :
  let '(s', e', ins', out') := merge_loop rs s e ins out in
  out' ++ (if ins' then [] else [(s', e')]) = out ++ merged_tail rs s e ins.
Proof.
  revert s e ins out. induction rs as [|[a b] rs IH]; intros s e ins out; simpl.
  - done.
  - destruct (b + 1 <? s).
    + specialize (IH s e ins (out ++ [(a, b)])).
      destruct (merge_loop rs s e ins (out ++ [(a, b)])) as [[[s' e'] ins'] out'].
      by rewrite IH, <- app_assoc.
    + destruct (e + 1 <? a).
      * specialize (IH s e true ((if ins then out else out ++ [(s, e)]) ++ [(a, b)])).
        destruct (merge_loop rs s e true _) as [[[s' e'] ins'] out'].
        rewrite IH. destruct ins; by rewrite <- ?app_assoc.
      * apply IH.
Qed.

Lemma merge_ranges_unfold rs s e :
  s <= e ->
  _merge_ranges rs s e =
    match sort_by_start (merged_tail rs s e false) with
    | [] => []
    | first :: rest => coalesce first rest
    end.
Proof.
  intros Hse. unfold _merge_ranges. destruct (Z.ltb_spec e s); [lia|].
  destruct rs as [|r rs]; [done|].
  pose proof (merge_loop_tail (r :: rs) s e false []) as Hl.
  destruct (merge_loop (r :: rs) s e false []) as [[[s' e'] ins'] out'].
  change ([] ++ merged_tail (r :: rs) s e false)
    with (merged_tail (r :: rs) s e false) in Hl.
  rewrite <- Hl. by destruct ins'; rewrite ?app_nil_r.
Qed.

Lemma canonical_above lo rs x :
  canonical rs -> head_above lo rs -> covers rs x -> lo + 1 < x.
Proof.
  revert lo. induction rs as [|[a b] rs IH]; intros lo Hc Hh Hx.
  - by apply Exists_nil in Hx.
  - simpl in Hc, Hh. destruct Hc as (Hab & Hb & Hc).
    apply Exists_cons in Hx as [Hx|Hx]; simpl in *; [lia|].
    specialize (IH b Hc Hb Hx). lia.
Qed.

Lemma head_above_weaken lo lo' rs : lo' <= lo -> head_above lo rs -> head_above lo' rs.
Proof. destruct rs as [|[a b] rs]; simpl; [done | lia]. Qed.

(** Once the new range is placed, the rest is copied. *)
Lemma merged_tail_inserted rs s e :
  s <= e -> canonical rs -> head_above e rs -> merged_tail rs s e true = rs.
Proof.
  revert e. induction rs as [|[a b] rs IH]; intros e Hse Hc Hh; simpl; [done|].
  simpl in Hc, Hh. destruct Hc as (Hab & Hb & Hc).
  destruct (Z.ltb_spec (b + 1) s); [lia|].
  destruct (Z.ltb_spec (e + 1) a); [|lia]. simpl. f_equal.
  apply IH; [done | done |]. eapply head_above_weaken; [|done]. lia.
Qed.

Lemma merged_tail_canonical rs s e lo :
  s <= e -> canonical rs -> head_above lo rs -> lo + 1 < s ->
  canonical (merged_tail rs s e false) /\
  head_above lo (merged_tail rs s e false) /\
  forall x, covers (merged_tail rs s e false) x <-> covers rs x \/ s <= x <= e.
Proof.
  revert s e lo. induction rs as [|[a b] rs IH]; intros s e lo Hse Hc Hh Hlo; simpl.
  - split; [by simpl|]. split; [by simpl|]. intros x.
    unfold covers. rewrite Exists_cons, !Exists_nil. simpl. tauto.
  - simpl in Hc, Hh. destruct Hc as (Hab & Hb & Hc).
    destruct (Z.ltb_spec (b + 1) s) as [Hbefore|Hnb].
    { destruct (IH s e b Hse Hc Hb Hbefore) as (IHc & IHh & IHx).
      split; [by simpl|]. split; [by simpl|]. intros x. specialize (IHx x).
      unfold covers in *. rewrite !Exists_cons. simpl. tauto. }
    destruct (Z.ltb_spec (e + 1) a) as [Hafter|Hna].
    { simpl. rewrite merged_tail_inserted;
        [|done|done|eapply head_above_weaken; [|done]; lia].
      split; [by simpl|]. split; [by simpl|]. intros x.
      unfold covers. rewrite !Exists_cons. simpl. tauto. }
    destruct (IH (Z.min s a) (Z.max e b) lo) as (IHc & IHh & IHx);
      [lia | done | eapply head_above_weaken; [|done]; lia | lia |].
    split; [done|]. split; [done|]. intros x. specialize (IHx x).
    unfold covers in *. rewrite Exists_cons. simpl.
    split; [intros Hx; apply IHx in Hx|intros Hx; apply IHx]; intuition lia.
Qed.

Lemma sort_canonical rs : canonical rs -> sort_by_start rs = rs.
Proof.
  induction rs as [|[a b] rs IH]; simpl; [done|].
  intros (Hab & Hb & Hc). rewrite (IH Hc).
  destruct rs as [|[a' b'] rs]; [done|]. simpl in Hb. simpl.
  destruct (Z.leb_spec a a'); [done | lia].
Qed.

Lemma coalesce_canonical r rs : canonical (r :: rs) -> coalesce r rs = r :: rs.
Proof.
  revert r. induction rs as [|[a' b'] rs IH]; intros [a b]; simpl; [done|].
  intros (Hab & Hb & Hc). destruct (Z.leb_spec a' (b + 1)); [lia|].
  f_equal. by apply IH.
Qed.

(** [_merge_ranges] keeps the list canonical and adds exactly the bytes of the
    new range. *)
Lemma merge_ranges_canonical rs s e :
  canonical rs ->
  canonical (_merge_ranges rs s e) /\
  forall x, covers (_merge_ranges rs s e) x <-> covers rs x \/ s <= x <= e.
Proof.
  intros Hc. destruct (Z.lt_ge_cases e s) as [Hes|Hse].
  - unfold _merge_ranges. destruct (Z.ltb_spec e s); [|lia].
    split; [done|]. intros x. split; [by left | intros [?|?]; [done | lia]].
  - rewrite merge_ranges_unfold by done.
    assert (Hlo : head_above (Z.min s (fst (hd (s, e) rs)) - 2) rs).
    { destruct rs as [|[a b] rs]; simpl; [done | lia]. }
    destruct (merged_tail_canonical rs s e _ Hse Hc Hlo) as (Hm & _ & Hx); [lia|].
    rewrite (sort_canonical _ Hm).
    destruct (merged_tail rs s e false) as [|r rest] eqn:E.
    + split; [done|]. apply Hx.
    + rewrite (coalesce_canonical _ _ Hm). by split.
Qed.

(** Two canonical lists that cover the same bytes are the same list. *)
Lemma canonical_unique rs1 rs2 :
  canonical rs1 -> canonical rs2 ->
  (forall x, covers rs1 x <-> covers rs2 x) -> rs1 = rs2.
Proof.
  revert rs2. induction rs1 as [|[a1 b1] rs1 IH]; intros [|[a2 b2] rs2] H1 H2 Hx.
  - done.
  - simpl in H2. assert (covers [] a2) as Hn; [|by apply Exists_nil in Hn].
    apply Hx. left. simpl. lia.
  - simpl in H1. assert (covers [] a1) as Hn; [|by apply Exists_nil in Hn].
    apply Hx. left. simpl. lia.
  - simpl in H1, H2. destruct H1 as (Hab1 & Hh1 & Hc1), H2 as (Hab2 & Hh2 & Hc2).
    assert (Hin : forall a b rs x, a <= b -> head_above b rs -> canonical rs ->
              covers ((a, b) :: rs) x -> a <= x /\ (x <= b \/ b + 1 < x)).
    { intros a b rs x Hab Hh Hc Hcov. apply Exists_cons in Hcov as [Hcov|Hcov].
      - simpl in Hcov. lia.
      - pose proof (canonical_above b rs x Hc Hh Hcov). lia. }
    assert (Ha : a1 = a2).
    { assert (covers ((a2, b2) :: rs2) a1) as C1 by (apply Hx; left; simpl; lia).
      assert (covers ((a1, b1) :: rs1) a2) as C2 by (apply Hx; left; simpl; lia).
      apply Hin in C1; [|done..]. apply Hin in C2; [|done..]. lia. }
    subst a2.
    assert (Hb : b1 = b2).
    { destruct (Z.lt_trichotomy b1 b2) as [Hlt|[?|Hgt]]; [|done|].
      - assert (covers ((a1, b1) :: rs1) (b1 + 1)) as C
          by (apply Hx; left; simpl; lia).
        apply Hin in C; [|done..]. lia.
      - assert (covers ((a1, b2) :: rs2) (b2 + 1)) as C
          by (apply Hx; left; simpl; lia).
        apply Hin in C; [|done..]. lia. }
    subst b2. f_equal. apply IH; [done|done|]. intros x. split; intros Hcov.
    + pose proof (canonical_above b1 rs1 x Hc1 Hh1 Hcov).
      assert (covers ((a1, b1) :: rs2) x) as C by (apply Hx; by right).
      apply Exists_cons in C as [C|C]; [simpl in C; lia | done].
    + pose proof (canonical_above b1 rs2 x Hc2 Hh2 Hcov).
      assert (covers ((a1, b1) :: rs1) x) as C by (apply Hx; by right).
      apply Exists_cons in C as [C|C]; [simpl in C; lia | done].
Qed.

Lemma observe_canonical obs rs :
  canonical rs ->
  canonical (observe rs obs) /\
  forall x, covers (observe rs obs) x <-> covers rs x \/ covers obs x.
Proof.
  revert rs. induction obs as [|[s e] obs IH]; intros rs Hc; simpl.
  - split; [done|]. intros x. split; [by left | intros [?|Hn]; [done|]].
    by apply Exists_nil in Hn.
  - destruct (merge_ranges_canonical rs s e Hc) as (Hm & Hmx).
    destruct (IH _ Hm) as (Ho & Hox). split; [done|].
    intros x. rewrite Hox, Hmx. unfold covers at 4. rewrite Exists_cons. simpl.
    tauto.
Qed.
End Loop.

(** C8.  Observing [0,999] then [1000,1999] gives the one range [0,1999], and
    so does observing [500,1499], [0,999], [1000,1999].  In general
    [_merge_ranges] keeps a sorted list of disjoint, non-adjacent ranges whose
    covered bytes are those covered before together with the new range; so two
    sequences of observations that cover the same bytes give the same list, in
    particular two orderings of the same observations, and the same
    [_covered_bytes]. *)
Theorem merge_ranges_order_independent :
  observe [] [(0, 999); (1000, 1999)] = [(0, 1999)] /\
  observe [] [(500, 1499); (0, 999); (1000, 1999)] = [(0, 1999)] /\
  (forall rs s e, canonical rs ->
     canonical (_merge_ranges rs s e) /\
     forall x, covers (_merge_ranges rs s e) x <-> covers rs x \/ s <= x <= e) /\
  (forall obs x, covers (observe [] obs) x <-> covers obs x) /\
  (forall obs1 obs2, (forall x, covers obs1 x <-> covers obs2 x) ->
     observe [] obs1 = observe [] obs2) /\
  (forall obs1 obs2, obs1 ≡ₚ obs2 ->
     observe [] obs1 = observe [] obs2 /\
     _covered_bytes (observe [] obs1) = _covered_bytes (observe [] obs2)).
Proof.
  assert (Hsame : forall obs1 obs2, (forall x, covers obs1 x <-> covers obs2 x) ->
            observe [] obs1 = observe [] obs2).
  { intros obs1 obs2 Hx.
    destruct (observe_canonical obs1 [] I) as (H1 & Hx1).
    destruct (observe_canonical obs2 [] I) as (H2 & Hx2).
    apply canonical_unique; [done|done|]. intros x. rewrite Hx1, Hx2, Hx. done. }
  split; [reflexivity|]. split; [reflexivity|].
  split; [apply merge_ranges_canonical|].
  split.
  { intros obs x. destruct (observe_canonical obs [] I) as (_ & ->).
    split; [intros [Hn|?]; [by apply Exists_nil in Hn | done] | by right]. }
  split; [done|].
  intros obs1 obs2 Hp.
  assert (E : observe [] obs1 = observe [] obs2); [|by rewrite E].
  apply Hsame. intros x. unfold covers. by rewrite Hp.
Qed.

Lemma merge_ranges_order_independent_witness :
  canonical (_merge_ranges [(0, 9); (30, 40)] 5 20) /\
  observe [] [(3, 4); (0, 1); (2, 2)] = observe [] [(0, 1); (2, 2); (3, 4)].
Proof.
  destruct merge_ranges_order_independent as (_ & _ & H & _ & _ & Hp).
  split.
  - apply (H [(0, 9); (30, 40)] 5 20). simpl. lia.
  - apply (Hp [(3, 4); (0, 1); (2, 2)] [(0, 1); (2, 2); (3, 4)]).
    apply (Permutation_cons_append [(0, 1); (2, 2)] (3, 4)).
Defined.

End MergeFacts.

(** ** The play-progress tracker: counting a play *)

Module PlayProgressFacts.
Import PlayProgress DictFacts.

Section Table.
Implicit Types (t : table) (k key : string) (c : call) (p : _PlayProgress).

Lemma get_pop_Some k k' p t :
  Dict.get k (Dict.pop k' t) = Some p -> Dict.get k t = Some p.
Proof. rewrite get_pop. by case_decide. Qed.

Lemma get_pop_all_Some k ks p t :
  Dict.get k (pop_all ks t) = Some p -> Dict.get k t = Some p.
Proof.
  revert t. induction ks as [|k' ks IH]; intros t; simpl; [done|].
  intros H. apply IH in H. by apply get_pop_Some in H.
Qed.

(** Pruning removes entries; it never changes one. *)
Lemma prune_get_Some now k p t :
  Dict.get k (_prune_play_progress_locked now t) = Some p -> Dict.get k t = Some p.
Proof.
  unfold _prune_play_progress_locked. destruct t as [|kv t]; [done|].
  destruct (_ <=? _).
  - apply get_pop_all_Some.
  - intros H. by do 2 apply get_pop_all_Some in H.
Qed.

(** The entry of the key once the call returns. *)
Lemma update_entry c t :
  exists p, Dict.get (c_key c) (_update_play_progress c t).2 = Some p /\
    ((_update_play_progress c t).1 = true -> counted p = true) /\
    (counted (refreshed c (_prune_play_progress_locked (c_now c) t)) = true ->
     p = refreshed c (_prune_play_progress_locked (c_now c) t)).
Proof.
  unfold _update_play_progress.
  destruct (counted (refreshed c _)) eqn:E; simpl.
  - eexists. rewrite get_set. case_decide; [|done]. by repeat split.
  - eexists. rewrite get_set. case_decide; [|done]. split; [done|]. by split.
Qed.

Lemma update_other c t k :
  c_key c <> k ->
  Dict.get k (_update_play_progress c t).2
    = Dict.get k (_prune_play_progress_locked (c_now c) t).
Proof.
  intros Hne. unfold _update_play_progress.
  destruct (counted (refreshed c _)); simpl; rewrite get_set; by case_decide.
Qed.

Lemma refreshed_counted c t p :
  Dict.get (c_key c) t = Some p -> counted (refreshed c t) = counted p.
Proof. intros E. unfold refreshed. by rewrite E. Qed.

(** A counted entry that pruning spares stays counted, and the call does not
    fire for its key. *)
Lemma update_counted c t key p :
  Dict.get key t = Some p -> counted p = true ->
  is_Some (Dict.get key (_prune_play_progress_locked (c_now c) t)) ->
  (exists p', Dict.get key (_update_play_progress c t).2 = Some p' /\ counted p' = true) /\
  (_update_play_progress c t).1 && bool_decide (c_key c = key) = false.
Proof.
  intros Hget Hcnt [p1 Hp1].
  pose proof (prune_get_Some _ _ _ _ Hp1) as Hsame.
  rewrite Hget in Hsame. injection Hsame as <-.
  destruct (decide (c_key c = key)) as [<-|Hne].
  - pose proof (refreshed_counted c _ p Hp1) as Hr. rewrite Hcnt in Hr.
    destruct (update_entry c t) as (p' & Hp' & _ & Hkeep).
    split.
    + exists p'. split; [done|]. by rewrite (Hkeep Hr).
    + unfold _update_play_progress. by rewrite Hr.
  - split.
    + exists p. by rewrite update_other.
    + rewrite bool_decide_eq_false_2 by done. apply andb_false_r.
Qed.

Lemma fires_step key c cs t :
  fires key (c :: cs) t =
    ((if (_update_play_progress c t).1 && bool_decide (c_key c = key) then 1 else 0)
     + fires key cs (_update_play_progress c t).2)%nat.
Proof. simpl. by destruct (_update_play_progress c t). Qed.

Lemma fires_counted key cs t p :
  Dict.get key t = Some p -> counted p = true -> spared key cs t ->
  fires key cs t = 0%nat.
Proof.
  revert t p. induction cs as [|c cs IH]; intros t p Hget Hcnt Hsp; [done|].
  destruct Hsp as [Hkeep Hsp]. rewrite fires_step.
  destruct (update_counted c t key p Hget Hcnt) as ((p' & Hp' & Hc') & ->).
  { apply Hkeep. by rewrite Hget. }
  by rewrite (IH _ p' Hp' Hc' Hsp).
Qed.

Lemma fires_at_most_once key cs t :
  spared key cs t -> (fires key cs t <= 1)%nat.
Proof.
  revert t. induction cs as [|c cs IH]; intros t Hsp; [simpl; lia|].
  destruct Hsp as [Hkeep Hsp]. rewrite fires_step.
  destruct ((_update_play_progress c t).1 && bool_decide (c_key c = key)) eqn:E.
  - apply andb_true_iff in E as [Hhit Hk]. apply bool_decide_eq_true in Hk. subst key.
    destruct (update_entry c t) as (p' & Hp' & Hc' & _).
    rewrite (fires_counted _ cs _ p' Hp' (Hc' Hhit) Hsp). lia.
  - specialize (IH _ Hsp). lia.
Qed.
End Table.

(** C7, as the code has it.  A call returns true exactly when, after pruning
    and the metadata update, the key's entry is not counted and the estimated
    seconds of the merged ranges reach the threshold; the entry is then counted.
    A call that finds the entry counted returns false and stores the entry with
    the refreshed metadata.  Over any sequence of calls in which pruning never
    removes the key's entry, the calls for that key return true at most once. *)
Theorem play_counted_once_while_tracked (key : string) (cs : list call) (t : table) :
  (forall c,
     let prog := refreshed c (_prune_play_progress_locked (c_now c) t) in
     let merged := _merge_ranges (ranges prog) (c_start c) (c_end c) in
     let sec := _seconds_from_bytes (_covered_bytes merged) (file_size prog)
                  (duration_sec prog) (bitrate_kbps prog) in
     ((_update_play_progress c t).1 = true <->
        counted prog = false /\ PrimFloat.leb _PLAY_COUNT_THRESHOLD_SEC sec = true) /\
     ((_update_play_progress c t).1 = true ->
        exists p, Dict.get (c_key c) (_update_play_progress c t).2 = Some p /\
                  counted p = true) /\
     (counted prog = true ->
        (_update_play_progress c t).1 = false /\
        Dict.get (c_key c) (_update_play_progress c t).2 = Some prog /\
        (forall n, c_file_size c = Some n -> file_size prog = Some n))) /\
  (spared key cs t -> (fires key cs t <= 1)%nat).
Proof.
  split; [|apply fires_at_most_once].
  intros c prog merged sec. split; [|split].
  - unfold _update_play_progress. cbv zeta. fold prog.
    destruct (counted prog) eqn:E; cbn [fst].
    + split; [done | by intros [? _]].
    + split; [intros H; split; [done | exact H] | intros [_ H]; exact H].
  - intros Hhit. destruct (update_entry c t) as (p & Hp & Hc & _). eauto.
  - intros Hc. destruct (update_entry c t) as (p & Hp & _ & Hkeep).
    fold prog in Hkeep. rewrite (Hkeep Hc) in Hp. split; [|split; [done|]].
    + unfold _update_play_progress. fold prog. by rewrite Hc.
    + intros n Hn. unfold prog, refreshed. by rewrite Hn.
Qed.

Lemma play_counted_once_while_tracked_witness :
  let c1 := Call 0 "7:t:fp" 0 9999999 (Some 10000000) (Some 200%float) None in
  let c2 := Call 60 "7:t:fp" 10000 20000 (Some 10000000) (Some 200%float) None in
  (fires "7:t:fp" [c1; c2; c2] [] <= 1)%nat.
Proof.
  intros c1 c2.
  apply (proj2 (play_counted_once_while_tracked "7:t:fp" [c1; c2; c2] [])).
  vm_compute. repeat split; eauto.
Defined.

(** C7, counterexample to "at most once per key".  The same key covers the
    whole of a 10,000,000-byte, 200-second file at time 0 and again at time
    2000.  The second call first prunes the entry, idle for more than 1800
    seconds, builds a fresh one with [counted = False], and fires again. *)
Lemma play_counted_again_after_ttl :
  ~ (forall key cs, (fires key cs [] <= 1)%nat).
Proof.
  intros H.
  specialize (H "7:t:fp"
    [Call 0 "7:t:fp" 0 9999999 (Some 10000000) (Some 200%float) None;
     Call 2000 "7:t:fp" 0 9999999 (Some 10000000) (Some 200%float) None]).
  vm_compute in H. lia.
Qed.

End PlayProgressFacts.

(** ** Range requests *)

Module RangeRequestFacts.
Import RangeRequest.

Section Strings.
Implicit Types (s u lit rest : string) (c : ascii).

Lemma append_cons c u s : String c u +:+ s = String c (u +:+ s).
Proof. reflexivity. Qed.

Lemma append_nil_l s : "" +:+ s = s.
Proof. reflexivity. Qed.

Lemma append_nil_r s : s +:+ "" = s.
Proof. induction s as [|c s IH]; [done | by rewrite append_cons, IH]. Qed.

Lemma match_literal_spec lit s rest :
  match_literal lit s = Some rest ->
  exists u, s = u +:+ rest /\ lower_string u = lower_string lit.
Proof.
  revert s. induction lit as [|l lit IH]; intros s; simpl.
  - intros [= <-]. by exists "".
  - destruct s as [|c s]; [done|]. case_decide as Hc; [|done].
    intros (u & -> & Hu)%IH. exists (String c u).
    rewrite append_cons. simpl. by rewrite Hc, Hu.
Qed.

Lemma span_digits_spec s d rest :
  span_digits s = (d, rest) -> s = d +:+ rest /\ all_digits d = true.
Proof.
  revert d rest. induction s as [|c s IH]; intros d rest; simpl.
  - by intros [= <- <-].
  - destruct (is_digit c) eqn:Hc; [|by intros [= <- <-]].
    destruct (span_digits s) as [d' rest'] eqn:E. intros [= <- <-].
    destruct (IH _ _ eq_refl) as [-> Hd]. rewrite append_cons. simpl.
    by rewrite Hc, Hd.
Qed.

Lemma ends_with_newline_append u s :
  s <> "" -> ends_with_newline (u +:+ s) = ends_with_newline s.
Proof.
  intros Hs. induction u as [|c u IH]; [done|].
  change (String c u +:+ s) with (String c (u +:+ s)).
  destruct (u +:+ s) as [|c' r] eqn:E; [|done].
  destruct u; [by subst | done].
Qed.

Lemma rstrip_no_newline s : ends_with_newline (rstrip s) = false.
Proof.
  induction s as [|c s IH]; [done|].
  simpl. destruct (rstrip s) as [|c' r] eqn:E.
  - destruct (is_space c) eqn:Hc; [done|]. simpl.
    apply bool_decide_eq_false_2. by intros ->.
  - done.
Qed.

Lemma rstrip_idemp s : rstrip (rstrip s) = rstrip s.
Proof.
  induction s as [|c s IH]; [done|].
  simpl. destruct (rstrip s) as [|c' r] eqn:E.
  - destruct (is_space c) eqn:Hc; [done|]. simpl. by rewrite Hc.
  - change (rstrip (String c (String c' r)))
      with (match rstrip (String c' r) with
            | EmptyString => if is_space c then EmptyString else String c EmptyString
            | r' => String c r'
            end).
    by rewrite IH.
Qed.

Lemma lstrip_head s : lstrip (lstrip s) = lstrip s.
Proof.
  induction s as [|c s IH]; [done|].
  simpl. destruct (is_space c) eqn:Hc; [done|]. simpl. by rewrite Hc.
Qed.

Lemma lstrip_rstrip s : lstrip s = s -> lstrip (rstrip s) = rstrip s.
Proof.
  destruct s as [|c s]; [done|]. simpl.
  destruct (is_space c) eqn:Hc.
  - intros E. exfalso.
    assert (Hlen : forall x, (String.length (lstrip x) <= String.length x)%nat).
    { clear. induction x as [|c x IH]; simpl; [lia|]. destruct (is_space c); simpl; lia. }
    specialize (Hlen s). rewrite E in Hlen. simpl in Hlen. lia.
  - intros _. destruct (rstrip s); simpl; by rewrite Hc.
Qed.

Lemma strip_idemp s : strip (strip s) = strip s.
Proof.
  unfold strip. rewrite (lstrip_rstrip (lstrip s) (lstrip_head s)).
  apply rstrip_idemp.
Qed.
End Strings.

Section Parser.
Implicit Types (s value : string).

(** A match of the regular expression on a stripped value has the form. *)
Lemma match_range_form s g :
  match_range s = Some g -> ends_with_newline s = false -> range_form s.
Proof.
  unfold match_range.
  destruct (match_literal "bytes=" s) as [rest|] eqn:El; [|done].
  apply match_literal_spec in El as (u & -> & Hu).
  destruct (span_digits rest) as [g1 rest1] eqn:E1.
  apply span_digits_spec in E1 as [-> H1].
  destruct g1 as [|c1 g1]; [done|]. destruct rest1 as [|c rest']; [done|].
  case_decide as Hc; [subst c|done].
  destruct (span_digits rest') as [g2 tail] eqn:E2.
  apply span_digits_spec in E2 as [-> H2].
  case_decide as Ht; [|done]. intros _ Hnl.
  destruct Ht as [->| ->].
  - exists u, (String c1 g1), g2. rewrite append_nil_r.
    by repeat split.
  - exfalso. rewrite !ends_with_newline_append in Hnl; try done.
    rewrite <- append_cons, ends_with_newline_append in Hnl; done.
Qed.

Lemma parse_range_header_none value :
  ~ range_form (strip value) -> _parse_range_header value = (None, None).
Proof.
  intros Hform. unfold _parse_range_header. destruct value as [|c value]; [done|].
  destruct (match_range _) as [g|] eqn:E; [|done].
  exfalso. apply Hform. eapply match_range_form; [done|]. apply rstrip_no_newline.
Qed.

Lemma stream_track_no_range range file_size :
  _parse_range_header (strip range) = (None, None) ->
  stream_track range file_size =
    inr {| status_code := 200; headers := [("Accept-Ranges", "bytes")];
           body := DirectStream 0 |}.
Proof.
  intros E. unfold stream_track. rewrite E. simpl.
  destruct (strip range); by destruct file_size.
Qed.

Lemma stream_track_unknown_size range :
  stream_track range None =
    inr {| status_code := 200; headers := [("Accept-Ranges", "bytes")];
           body := DirectStream 0 |}.
Proof.
  unfold stream_track.
  destruct (_parse_range_header (strip range)) as [[start|] [e|]];
    destruct (strip range); done.
Qed.

(** [_direct_stream] from offset 0 passes the upstream through. *)
Lemma direct_stream_whole upstream :
  concat (_direct_stream 0 upstream) = concat upstream.
Proof.
  unfold _direct_stream. simpl.
  induction upstream as [|chunk upstream IH]; [done|].
  destruct chunk as [|b chunk]; simpl; [done|]. by rewrite IH.
Qed.
End Parser.

(** C10.  A header value that, once stripped, is not [bytes=<digits>-] or
    [bytes=<digits>-<digits>] (the unit in any case) makes
    [_parse_range_header] return [(None, None)]; so do the suffix range
    [bytes=-500] and the multi-range [bytes=0-1,5-6].  [stream_track] then
    answers as it does without a [Range] header, whatever the file size:
    status 200, no [Content-Range], and the whole file as the body. *)
Theorem unparsed_range_served_in_full (value : string) :
  ~ range_form (strip value) ->
  _parse_range_header value = (None, None) /\
  _parse_range_header "bytes=-500" = (None, None) /\
  _parse_range_header "bytes=0-1,5-6" = (None, None) /\
  forall file_size upstream,
    stream_track value file_size = stream_track "" file_size /\
    exists r, stream_track value file_size = inr r /\
      status_code r = 200 /\
      headers r = [("Accept-Ranges", "bytes")] /\
      body_bytes (body r) upstream = concat upstream.
Proof.
  intros Hform. split; [by apply parse_range_header_none|].
  split; [reflexivity|]. split; [reflexivity|].
  intros file_size upstream.
  assert (E : _parse_range_header (strip value) = (None, None)).
  { apply parse_range_header_none. by rewrite strip_idemp. }
  rewrite (stream_track_no_range value file_size E).
  split.
  - by rewrite (stream_track_no_range "" file_size eq_refl).
  - eexists. split; [done|]. repeat split. apply direct_stream_whole.
Qed.

Lemma unparsed_range_served_in_full_witness :
  _parse_range_header " bytes = 5-" = (None, None) /\
  stream_track " bytes = 5-" (Some 100) = stream_track "" (Some 100).
Proof.
  assert (Hn : ~ range_form (strip " bytes = 5-")).
  { intros (u & d1 & d2 & E & Hu & _).
    destruct u as [|c0 [|c1 [|c2 [|c3 [|c4 [|c5 [|c6 u]]]]]]]; try done.
    simpl in E. injection E as _ _ _ _ _ E _. subst c5. done. }
  destruct (unparsed_range_served_in_full " bytes = 5-" Hn) as (H1 & _ & _ & H2).
  split; [exact H1|]. apply (H2 (Some 100) []).
Defined.

(** C2, as the code has it.  With an unknown total size every request, with
    any [Range] header, is answered with status 200 and without
    [Content-Range] or [Content-Length]; the body is [_direct_stream] from
    offset 0, that is the whole file from its first byte.  The header
    [bytes=500-] is parsed as the open range from 500, and its start is not
    applied to the body. *)
Theorem unknown_size_serves_whole_file (range : string) (upstream : list bytes) :
  _parse_range_header "bytes=500-" = (Some 500, None) /\
  exists r, stream_track range None = inr r /\
    status_code r = 200 /\
    Dict.get "Content-Range" (headers r) = None /\
    Dict.get "Content-Length" (headers r) = None /\
    body r = DirectStream 0 /\
    body_bytes (body r) upstream = concat upstream.
Proof.
  split; [reflexivity|].
  rewrite stream_track_unknown_size. eexists. split; [done|].
  repeat split. apply direct_stream_whole.
Qed.

(** C2, counterexample to "the body starts at byte 500".  The file is 500
    zero bytes followed by one byte 1, in one chunk.  The request carries
    [Range: bytes=500-] and the size is unknown: the body is all 501 bytes, not
    the single byte at offset 500. *)
Lemma unknown_size_body_starts_at_zero :
  ~ (forall upstream r,
       stream_track "bytes=500-" None = inr r ->
       body_bytes (body r) upstream = drop 500 (concat upstream)).
Proof.
  intros H.
  specialize (H [repeat "000"%byte 500 ++ ["001"%byte]] _ eq_refl).
  apply (f_equal length) in H. vm_compute in H. done.
Qed.

End RangeRequestFacts.

(** ** The distribution hub: further properties *)

Module StreamHubMore.
Import StreamHub StreamHubFacts.

Section Window.
Implicit Types (h : hub) (w : bytes) (cs : list (Z * bytes)).

Lemma contiguous_nonneg total cs c :
  contiguous total cs -> c ∈ cs -> 0 <= c.1.
Proof.
  induction cs as [|[s d] cs IH]; [by intros _ ?%elem_of_nil|].
  simpl. intros (H0 & _ & _ & Hc) [->|Hin]%elem_of_cons; [done | by apply IH].
Qed.

Lemma chunks_concat w total cs :
  0 <= total -> total <= len w -> contiguous total cs ->
  Forall (λ c, slice w c.1 (c.1 + len c.2) = c.2) cs ->
  concat cs.*2 = slice w (front_offset total cs) total.
Proof.
  intros Ht Hw. induction cs as [|[s d] cs IH].
  - intros _ _. simpl. by rewrite slice_empty.
  - cbn [contiguous front_offset]. intros (H0 & Hd & Hend & Hc) [Hs Hf]%Forall_cons.
    simpl in Hs. rewrite fmap_cons.
    change (concat ((s, d).2 :: cs.*2)) with (d ++ concat cs.*2).
    rewrite (IH Hc Hf), <- Hend. rewrite <- Hs at 1.
    pose proof (contiguous_front_le total cs Ht Hc). pose proof (len_nonneg d).
    apply slice_app; lia.
Qed.

Lemma find_chunk_inside total cs offset :
  contiguous total cs -> front_offset total cs <= offset < total ->
  exists s d, find_chunk offset cs = Some (s, d) /\ s <= offset < s + len d.
Proof.
  induction cs as [|[s d] cs IH]; simpl; [lia|].
  intros (H0 & Hd & Hend & Hc) Hin.
  destruct (Z.leb_spec (s + len d) offset).
  - apply IH; [done | lia].
  - destruct (Z.ltb_spec offset s); [lia|]. exists s, d. split; [done | lia].
Qed.
End Window.

(** X1.  In every reachable state the buffer is the tail of what the producer
    wrote: [_total_written] is the number of bytes appended, the buffer start
    lies between 0 and it, and the retained chunks, put end to end, are the
    bytes written from the buffer start on. *)
Theorem buffer_is_tail_of_written (tr : list event) :
  let h := run init tr in
  _total_written h = len (produced tr) /\
  0 <= _buffer_start h <= _total_written h /\
  concat (_chunks h).*2 = drop (Z.to_nat (_buffer_start h)) (produced tr).
Proof.
  intros h.
  pose proof (run_wf init tr init_wf) as [Ht Hc].
  pose proof (run_holds tr [] init init_wf init_holds) as [Hw Hf].
  simpl in Hw, Hf. fold h in Ht, Hc, Hw, Hf.
  pose proof (contiguous_front_le _ _ Ht Hc) as Hle.
  split; [done|]. split.
  - split; [|done]. unfold _buffer_start.
    destruct (_chunks h) as [|[s d] cs]; simpl in *; [done | tauto].
  - rewrite (chunks_concat (produced tr) (_total_written h)); [|done|lia|done|done].
    apply slice_to_end. unfold _buffer_start. lia.
Qed.

(** X2.  A consumer that is not lagged, on a hub without a producer error,
    whose cursor lies inside the buffered window, never waits: its pass yields
    a non-empty slice, and its cursor moves forward by exactly the length of
    that slice, not beyond [_total_written]. *)
Theorem pass_inside_window_advances (cid : string) (sb off : Z) (h : hub) :
  hub_wf h ->
  cid ∉ _lagged h -> _error h = None ->
  _consumers h !! cid = Some off ->
  _buffer_start h <= off < _total_written h ->
  exists out,
    (iter_pass cid sb h).2 = Advanced out /\ out <> [] /\
    _consumers (iter_pass cid sb h).1 !! cid = Some (off + len out) /\
    off + len out <= _total_written h.
Proof.
  intros [Ht Hc] Hlag Herr Hoff Hin.
  destruct (find_chunk_inside _ _ off Hc Hin) as (s & d & Hfind & Hs).
  pose proof (find_chunk_spec _ _ _ _ Hfind) as [Hmem _].
  pose proof (contiguous_ends _ _ Ht Hc) as Hends.
  rewrite Forall_forall in Hends. specialize (Hends _ Hmem). simpl in Hends.
  unfold iter_pass.
  destruct (decide (cid ∈ _lagged h)); [done|]. rewrite Herr, Hoff. simpl.
  destruct (Z.ltb_spec off (_buffer_start h)); [lia|]. simpl.
  destruct (Z.leb_spec (_total_written h) off); [lia|]. rewrite andb_false_r.
  rewrite Hfind.
  set (out := if 0 <? off - s then drop (Z.to_nat (off - s)) d else d).
  assert (Hlen : len out = s + len d - off).
  { unfold out, len in *. destruct (Z.ltb_spec 0 (off - s)).
    - rewrite length_drop. lia.
    - lia. }
  exists out. split; [done|]. split.
  { intros E. rewrite E in Hlen. change (len (@nil byte)) with 0 in Hlen. lia. }
  cbn [fst].
  destruct (gc_locked_fields (with_consumers h (<[cid:=off + len out]> (_consumers h))))
    as (_ & _ & _ & -> & _).
  simpl. rewrite lookup_insert_eq. split; [done | lia].
Qed.

Lemma pass_inside_window_advances_witness :
  exists out,
    (iter_pass "a" 0 (run init [Register "a" 1; Chunk ["001"; "002"; "003"]%byte])).2
      = Advanced out /\ out <> [].
Proof.
  destruct (pass_inside_window_advances "a" 0 1
              (run init [Register "a" 1; Chunk ["001"; "002"; "003"]%byte]))
    as (out & H1 & H2 & _).
  - apply run_wf, init_wf.
  - vm_compute. set_solver.
  - reflexivity.
  - reflexivity.
  - vm_compute. split; [by intros ? | reflexivity].
  - by exists out.
Defined.

(** X3.  A consumer in the lagged set is told it is behind on every pass, and
    the hub is left as it is; it stays lagged whatever the producer and the
    consumers do, until its own [finally] block runs. *)
Theorem lagged_consumer_stays_behind (cid : string) (sb : Z) (h : hub) (tr : list event) :
  cid ∈ _lagged h ->
  Forall (λ ev, ev <> Exit cid) tr ->
  cid ∈ _lagged (run h tr) /\
  iter_pass cid sb (run h tr) = (run h tr, Behind).
Proof.
  intros Hlag Htr.
  assert (Hkeep : cid ∈ _lagged (run h tr)).
  { revert h Hlag. induction Htr as [|ev tr Hev Htr IH]; intros h Hlag; [done|].
    simpl. apply IH. clear IH Htr.
    destruct ev as [data|e| |cid' sb'|cid' sb'|cid']; simpl; try done.
    - unfold run_chunk. destruct data as [|b data]; [done|].
      by apply (gc_locked_fields (append (b :: data) h)).
    - destruct (iter_pass_hub cid' sb' h) as [->|[off ->]]; [done|].
      by apply (gc_locked_fields (with_consumers h _)).
    - unfold iter_exit. apply (gc_locked_fields (forget cid' h)). simpl.
      apply elem_of_difference. split; [done|].
      intros ->%elem_of_singleton. by apply Hev. }
  split; [done|]. unfold iter_pass. by destruct (decide _).
Qed.

Lemma lagged_consumer_stays_behind_witness :
  let h := with_lagged (iter_register "a" 0 init) {["a"]} in
  iter_pass "a" 0 (run h [Chunk ["001"%byte]; Pass "a" 0; Done])
  = (run h [Chunk ["001"%byte]; Pass "a" 0; Done], Behind).
Proof.
  intros h.
  apply (lagged_consumer_stays_behind "a" 0 h [Chunk ["001"%byte]; Pass "a" 0; Done]).
  - vm_compute. set_solver.
  - repeat constructor; done.
Defined.

(** X4.  The [finally] block of a consumer removes its cursor and its lagged
    mark and leaves the other cursors alone; when it was the last consumer the
    eviction pass it runs empties the buffer. *)
Theorem exit_deregisters (cid : string) (h : hub) :
  hub_wf h ->
  let g := iter_exit cid h in
  _consumers g !! cid = None /\
  cid ∉ _lagged g /\
  (forall c, c <> cid -> _consumers g !! c = _consumers h !! c) /\
  (dom (_consumers h) ⊆ {[cid]} -> _chunks g = []).
Proof.
  intros Hwf g. subst g. unfold iter_exit.
  pose proof (gc_locked_fields (forget cid h)) as (_ & _ & _ & Hcons & _).
  split; [|split; [|split]].
  - rewrite Hcons. simpl. apply lookup_delete_eq.
  - gc_cases (forget cid h); simpl; try set_solver.
    rewrite elem_of_union, elem_of_behind, lookup_delete_eq.
    intros [Hin|(off & ? & _)]; [set_solver | done].
  - intros c Hc. rewrite Hcons. simpl. by apply lookup_delete_ne.
  - intros Hdom. apply gc_locked_no_consumers; [done|]. simpl.
    apply map_eq. intros c. rewrite lookup_empty.
    destruct (decide (c = cid)) as [->|Hne]; [apply lookup_delete_eq|].
    rewrite lookup_delete_ne by done. apply not_elem_of_dom. set_solver.
Qed.

Lemma exit_deregisters_witness :
  _chunks (iter_exit "a" (run init [Register "a" 0; Chunk ["001"%byte]])) = [].
Proof.
  apply (exit_deregisters "a" (run init [Register "a" 0; Chunk ["001"%byte]])).
  - apply run_wf, init_wf.
  - vm_compute. set_solver.
Defined.

End StreamHubMore.

(** ** The direct streamer and the fallback path *)

Module StreamFileFacts.
Import StreamHub StreamHubFacts RangeRequest StreamFile.

Section Direct.
Implicit Types (upstream : list bytes) (skip : Z).

Lemma direct_stream_loop_spec skip upstream :
  0 <= skip ->
  concat (_direct_stream_loop skip upstream) = drop (Z.to_nat skip) (concat upstream) /\
  Forall (λ chunk, chunk <> []) (_direct_stream_loop skip upstream).
Proof.
  revert skip. induction upstream as [|chunk upstream IH]; intros skip Hskip.
  - simpl. by rewrite drop_nil.
  - destruct chunk as [|b chunk]; [by apply IH|].
    cbn [_direct_stream_loop]. set (c := b :: chunk).
    assert (Hc : 0 < len c) by (unfold len, c; simpl; lia).
    change (concat (c :: upstream)) with (c ++ concat upstream).
    destruct (Z.ltb_spec 0 skip) as [Hpos|Hzero].
    + destruct (Z.leb_spec (len c) skip) as [Hle|Hgt].
      * destruct (IH (skip - len c)) as [E F]; [lia|]. split; [|done].
        rewrite E, drop_app_ge by (unfold len in *; lia).
        f_equal. unfold len in *. lia.
      * destruct (IH 0) as [E F]; [lia|]. split.
        -- change (concat (?x :: ?l)) with (x ++ concat l).
           rewrite E, drop_app_le by (unfold len in *; lia). done.
        -- constructor; [|done]. intros E'%(f_equal length).
           rewrite length_drop in E'. unfold len in *.
           change (length (@nil byte)) with 0%nat in E'. lia.
    + replace skip with 0 by lia. destruct (IH 0) as [E F]; [lia|]. split.
      * change (concat (?x :: ?l)) with (x ++ concat l). by rewrite E.
      * by constructor.
Qed.

Lemma direct_stream_spec (start_byte : Z) upstream :
  concat (_direct_stream start_byte upstream)
    = drop (Z.to_nat start_byte) (concat upstream) /\
  Forall (λ chunk, chunk <> []) (_direct_stream start_byte upstream).
Proof.
  unfold _direct_stream.
  destruct (direct_stream_loop_spec (Z.max 0 start_byte) upstream) as [E F]; [lia|].
  split; [|done]. rewrite E. f_equal. lia.
Qed.
End Direct.

(** X5.  [_direct_stream] yields the file from [start_byte] on (from the
    beginning when [start_byte] is negative), in non-empty chunks, whatever
    the sizes of the chunks the upstream delivers. *)
Theorem direct_stream_yields_suffix (start_byte : Z) (upstream : list bytes) :
  concat (_direct_stream start_byte upstream)
    = drop (Z.to_nat start_byte) (concat upstream) /\
  Forall (λ chunk, chunk <> []) (_direct_stream start_byte upstream).
Proof. apply direct_stream_spec. Qed.

Section Lagging.
(** A consumer reads one byte from the hub and then stops reading, while the
    producer appends two chunks of 30 MB: the second append evicts the first
    of them by force, and the consumer is marked as lagged. *)
Variable c : bytes.
Hypothesis c_len : len c = 30000000.

Lemma gc_locked_kept h cid off s d rest :
  _consumers h = {[cid := off]} ->
  _chunks h = (s, d) :: rest ->
  off < s + len d ->
  _total_written h - _MAX_STREAM_BUFFER_BYTES < s + len d ->
  _gc_locked h = h.
Proof using Type.
  destruct h as [cs tw dn er co la]; simpl. intros -> -> Hoff Hkeep.
  unfold _gc_locked, _buffer_start. simpl.
  rewrite min_cursor_singleton. simpl.
  destruct (Z.leb_spec (s + len d) off); [lia|]. simpl.
  destruct (Z.leb_spec (tw - s) _MAX_STREAM_BUFFER_BYTES); [done|].
  destruct (Z.leb_spec (s + len d) (tw - _MAX_STREAM_BUFFER_BYTES)); [lia|].
  simpl. destruct (Z.leb_spec s s); [done | lia].
Qed.

Lemma gc_locked_forced_one h cid off s1 d1 s2 d2 :
  _consumers h = {[cid := off]} ->
  _chunks h = [(s1, d1); (s2, d2)] ->
  off < s1 + len d1 -> off < s2 -> s1 < s2 ->
  _MAX_STREAM_BUFFER_BYTES < _total_written h - s1 ->
  s1 + len d1 <= _total_written h - _MAX_STREAM_BUFFER_BYTES < s2 + len d2 ->
  _gc_locked h =
    {| _chunks := [(s2, d2)]; _total_written := _total_written h; _done := _done h;
       _error := _error h; _consumers := _consumers h;
       _lagged := _lagged h ∪ {[cid]} |}.
Proof using Type.
  destruct h as [cs tw dn er co la]; simpl. intros -> -> Hoff Hoff2 Hs Hcap [Hk1 Hk2].
  unfold _gc_locked, _buffer_start. simpl.
  rewrite min_cursor_singleton. simpl.
  destruct (Z.leb_spec (s1 + len d1) off); [lia|]. simpl.
  destruct (Z.leb_spec (tw - s1) _MAX_STREAM_BUFFER_BYTES); [lia|].
  destruct (Z.leb_spec (s1 + len d1) (tw - _MAX_STREAM_BUFFER_BYTES)); [|lia].
  destruct (Z.leb_spec (s2 + len d2) (tw - _MAX_STREAM_BUFFER_BYTES)); [lia|].
  simpl. destruct (Z.leb_spec s2 s1); [lia|].
  unfold with_lagged, behind. simpl.
  rewrite map_filter_singleton_True by done. by rewrite dom_singleton_L.
Qed.

Lemma consume_other cid sb h out ev tr :
  actor ev <> Some cid ->
  consume cid sb h out (ev :: tr) = consume cid sb (apply ev h) out tr.
Proof using Type. intros Hne. simpl. by rewrite decide_False. Qed.

Lemma consume_advanced cid sb h h' out o tr :
  iter_pass cid sb h = (h', Advanced o) ->
  consume cid sb h out (Pass cid sb :: tr) = consume cid sb h' (out ++ o) tr.
Proof using Type.
  intros Hp. simpl. rewrite decide_True by done. rewrite decide_True by done.
  by rewrite Hp.
Qed.

Lemma lagging_life :
  let d := ["001"%byte] in
  let h := {| _chunks := [(30000001, c)]; _total_written := 60000001; _done := false;
              _error := None; _consumers := {["a" := 1]}; _lagged := ∅ ∪ {["a"]} |} in
  consume "a" (clamp_start 0) (iter_register "a" 0 (run init [])) []
    [Chunk d; Pass "a" 0; Chunk c; Chunk c] = Some (h, d) /\
  (iter_pass "a" (clamp_start 0) h).2 = Behind.
Proof using c_len.
  intros d h.
  assert (Hne : c <> []) by (intros E%len_nil_iff; lia).
  split.
  - rewrite consume_other by done.
    rewrite (consume_advanced "a" (clamp_start 0) _
               {| _chunks := []; _total_written := 1; _done := false; _error := None;
                  _consumers := {["a" := 1]}; _lagged := ∅ |} [] d)
      by (vm_compute; reflexivity).
    rewrite consume_other by done. cbn [apply].
    rewrite (run_chunk_nonempty c Hne).
    rewrite (gc_locked_kept _ "a" 1 1 c []); [|done|done|..].
    2: { rewrite c_len. lia. }
    2: { unfold append. cbn [_total_written]. rewrite c_len.
         unfold _MAX_STREAM_BUFFER_BYTES. lia. }
    rewrite consume_other by done. cbn [apply].
    rewrite (run_chunk_nonempty c Hne).
    rewrite (gc_locked_forced_one _ "a" 1 1 c (1 + len c) c); [|done|done|..].
    + unfold append. cbn [consume _total_written _done _error _consumers _lagged app].
      rewrite c_len. done.
    + rewrite c_len. lia.
    + rewrite c_len. lia.
    + rewrite c_len. lia.
    + unfold append. cbn [_total_written]. rewrite c_len.
      unfold _MAX_STREAM_BUFFER_BYTES. lia.
    + unfold append. cbn [_total_written]. rewrite c_len.
      unfold _MAX_STREAM_BUFFER_BYTES. lia.
  - unfold iter_pass. rewrite decide_True; [done|]. subst h. simpl. set_solver.
Qed.
End Lagging.

(** X6.  Take a hub whose producer has appended a prefix of the file that the
    fallback connection reads (so the producer has not been spawned a second
    time, which would append the file again), and a consumer of
    [_stream_file_id] whose consumer id no other generator uses.  When the hub
    tells this consumer that it fell behind, the bytes already yielded from
    the hub followed by the bytes of the direct fallback are exactly the file
    from [max(0, start_byte)] on: nothing is lost or repeated across the
    switch. *)
Theorem stream_file_id_behind_is_seamless
    (cid : string) (start_byte : Z) (pre life : list event) (fallback : list bytes)
    (h : hub) (out : bytes) :
  produced (pre ++ life) `prefix_of` concat fallback ->
  consume cid (clamp_start start_byte)
    (iter_register cid start_byte (run init pre)) [] life = Some (h, out) ->
  (iter_pass cid (clamp_start start_byte) h).2 = Behind ->
  _stream_file_id cid start_byte (run init pre) life fallback
    = Some (drop (Z.to_nat (clamp_start start_byte)) (concat fallback)).
Proof.
  intros [rest Hfile] Hrun Hbehind.
  unfold _stream_file_id. rewrite Hrun, Hbehind. f_equal.
  assert (Hsb : 0 <= clamp_start start_byte) by (unfold clamp_start; lia).
  pose proof (run_wf init pre init_wf) as Hwf.
  pose proof (run_holds pre [] init init_wf init_holds) as Hh. simpl in Hh.
  destruct (consume_inv cid (clamp_start start_byte) Hsb life
              (iter_register cid start_byte (run init pre)) (produced pre) []
              h out) as (_ & _ & (off & _ & Hle & Hcase & Hout)); try done.
  { exists (clamp_start start_byte). unfold iter_register. simpl.
    rewrite lookup_insert_eq. split; [done|]. split; [lia|]. split; [by left|].
    by rewrite slice_empty. }
  rewrite <- produced_app in Hcase, Hout. subst out.
  set (w := produced (pre ++ life)) in *. set (sb := clamp_start start_byte) in *.
  destruct (direct_stream_spec (Z.max 0 start_byte + len (slice w sb off)) fallback)
    as [-> _].
  rewrite Hfile. destruct Hcase as [->|Hin].
  - rewrite slice_empty. simpl. f_equal. unfold sb, clamp_start.
    change (len (@nil byte)) with 0. lia.
  - assert (Hlen : len (slice w sb off) = off - sb).
    { unfold slice, len in *. rewrite length_drop, length_take. lia. }
    rewrite Hlen. replace (Z.max 0 start_byte + (off - sb)) with off
      by (unfold sb, clamp_start; lia).
    rewrite <- (slice_grow w rest sb off Hin).
    assert (Hoff : off <= len (w ++ rest)).
    { rewrite len_app. pose proof (len_nonneg rest). lia. }
    rewrite <- (slice_to_end (w ++ rest) off (len (w ++ rest))) by lia.
    rewrite <- (slice_to_end (w ++ rest) sb (len (w ++ rest))) by lia.
    apply slice_app; lia.
Qed.

Lemma stream_file_id_behind_is_seamless_witness :
  let d := ["001"%byte] in
  let big := repeat "000"%byte (Z.to_nat 30000000) in
  let life := [Chunk d; Pass "a" 0; Chunk big; Chunk big] in
  exists h,
    consume "a" (clamp_start 0) (iter_register "a" 0 (run init [])) [] life = Some (h, d) /\
    (iter_pass "a" (clamp_start 0) h).2 = Behind /\
    _stream_file_id "a" 0 (run init []) life [d; big; big]
      = Some (drop (Z.to_nat (clamp_start 0)) (concat [d; big; big])).
Proof.
  intros d big life.
  assert (Hbig : len big = 30000000).
  { unfold big, len. rewrite repeat_length, Z2Nat.id; lia. }
  subst life. revert Hbig. generalize big as c. clear big. intros c Hc.
  destruct (lagging_life c Hc) as (Hrun & Hbehind).
  eexists. split; [exact Hrun|]. split; [exact Hbehind|].
  eapply (stream_file_id_behind_is_seamless "a" 0 []
            [Chunk d; Pass "a" 0; Chunk c; Chunk c] [d; c; c] _ d).
  - exists []. cbn [app produced concat]. by rewrite !app_nil_r.
  - exact Hrun.
  - exact Hbehind.
Defined.

End StreamFileFacts.

(** ** The connection pool: further properties *)

Module PoolMore.
Import Pool PoolPrefer DictFacts PoolFacts.

Section Pick.
Implicit Types (p : pool) (c cid : Z) (cands : list Z).

Lemma acquire_is_pick cfg p :
  acquire_stream_client cfg p =
    if negb (streaming_enabled cfg) then None else pick p (candidates cfg p).
Proof. reflexivity. Qed.

Lemma index_of_Some x l i : index_of x l = Some i -> l !! i = Some x.
Proof.
  revert i. induction l as [|y l IH]; intros i; simpl; [done|].
  case_decide as E; [by intros [= <-]; subst|].
  destruct (index_of x l) as [j|]; simpl; [|done].
  intros [= <-]. by apply IH.
Qed.

Lemma index_of_None x l : index_of x l = None -> x ∉ l.
Proof.
  induction l as [|y l IH]; simpl; [by intros _ ?%elem_of_nil|].
  case_decide as E; [done|]. destruct (index_of x l); [done|].
  intros _ [->|Hin]%elem_of_cons; [done | by apply IH].
Qed.

Lemma elem_of_tied p cands c :
  c ∈ tied_of p cands <->
  c ∈ cands /\ forall c', c' ∈ cands -> load p c <= load p c'.
Proof.
  destruct cands as [|c0 cs]; simpl; [set_solver|].
  rewrite merge_sort_Permutation, list_elem_of_filter.
  set (m := foldr Z.min (load p c0) (load p <$> cs)).
  assert (Hmin : forall c', c' ∈ c0 :: cs -> m <= load p c').
  { intros c' Hc'. apply foldr_min_le.
    change (load p c0 :: (load p <$> cs)) with (load p <$> c0 :: cs).
    by apply list_elem_of_fmap_2. }
  assert (Hatt : exists c', c' ∈ c0 :: cs /\ load p c' = m).
  { pose proof (foldr_min_in (load p c0) (load p <$> cs)) as Hin.
    change (load p c0 :: (load p <$> cs)) with (load p <$> c0 :: cs) in Hin.
    apply list_elem_of_fmap in Hin as (c' & E & Hin). eauto. }
  split.
  - intros [E Hin]. split; [done|]. intros c' Hc'. rewrite E. by apply Hmin.
  - intros [Hin Hle]. split; [|done].
    destruct Hatt as (c' & Hc' & E). specialize (Hle c' Hc'). specialize (Hmin c Hin). lia.
Qed.

Lemma tied_nonempty p cands : cands <> [] -> tied_of p cands <> [].
Proof.
  destruct cands as [|c0 cs]; [done|]. intros _ E.
  pose proof (foldr_min_in (load p c0) (load p <$> cs)) as Hin.
  change (load p c0 :: (load p <$> cs)) with (load p <$> c0 :: cs) in Hin.
  apply list_elem_of_fmap in Hin as (c' & E' & Hin).
  assert (c' ∈ tied_of p (c0 :: cs)) as Hc; [|rewrite E in Hc; by apply elem_of_nil in Hc].
  simpl. rewrite merge_sort_Permutation. apply list_elem_of_filter. by split.
Qed.

(** The selection in terms of the tied list. *)
Lemma pick_unfold p cands :
  cands <> [] ->
  let tied := tied_of p cands in
  let start_idx :=
    match index_of (_rr_cursor p) tied with
    | Some i => ((i + 1) mod length tied)%nat
    | None => 0%nat
    end in
  pick p cands =
    (λ cid, (cid, {| work_loads := Dict.set cid (load p cid + 1) (work_loads p);
                     _rr_cursor := cid |})) <$> tied !! start_idx.
Proof.
  intros Hne. pose proof (tied_nonempty p cands Hne) as Ht.
  destruct cands as [|c0 cs]; [done|]. cbv zeta.
  unfold pick. change (merge_sort Z.le _) with (tied_of p (c0 :: cs)).
  destruct (tied_of p (c0 :: cs)) as [|t0 ts] eqn:E; [done|].
  by destruct (_ !! _).
Qed.

Lemma pick_succeeds p cands : cands <> [] -> is_Some (pick p cands).
Proof.
  intros Hne. rewrite pick_unfold by done. cbv zeta.
  pose proof (tied_nonempty p cands Hne) as Ht.
  assert (Hlen : (0 < length (tied_of p cands))%nat).
  { destruct (tied_of p cands); [done | simpl; lia]. }
  apply fmap_is_Some, lookup_lt_is_Some.
  destruct (index_of _ _); [|done]. by apply Nat.mod_upper_bound, Nat.neq_0_lt_0.
Qed.

Lemma pick_spec p cands cid p' :
  pick p cands = Some (cid, p') ->
  cid ∈ cands /\ (forall c, c ∈ cands -> load p cid <= load p c) /\
  work_loads p' = Dict.set cid (load p cid + 1) (work_loads p) /\
  _rr_cursor p' = cid.
Proof.
  intros Hp. assert (Hne : cands <> []) by (by intros ->).
  rewrite pick_unfold in Hp by done. cbv zeta in Hp.
  destruct (_ !! _) as [c|] eqn:E; [|done]. simpl in Hp. injection Hp as <- <-.
  apply list_elem_of_lookup_2, elem_of_tied in E as [Hin Hle]. by repeat split.
Qed.

Lemma candidates_nonempty cfg p : candidates cfg p = [] <-> work_loads p = [].
Proof.
  unfold candidates, Dict.keys. split.
  - destruct (_primary_user_id cfg) as [primary|].
    + destruct (_ && _).
      * destruct (filter _ _) eqn:E; [|done]. by intros ?%fmap_nil_inv.
      * by intros ?%fmap_nil_inv.
    + by intros ?%fmap_nil_inv.
  - intros ->. simpl. destruct (_primary_user_id cfg); [|done].
    by rewrite andb_false_r.
Qed.
End Pick.

(** X7.  [acquire_stream_client] fails only when streaming is disabled or no
    handle is registered; otherwise it returns one of the candidate handles,
    of least load among them, with its counter raised by one, the other
    counters untouched, and the round-robin cursor set to it. *)
Theorem acquire_succeeds_unless_empty (cfg : config) (p : pool) :
  (acquire_stream_client cfg p = None <->
     streaming_enabled cfg = false \/ work_loads p = []) /\
  (forall cid p', acquire_stream_client cfg p = Some (cid, p') ->
     cid ∈ candidates cfg p /\
     (forall c, c ∈ candidates cfg p -> load p cid <= load p c) /\
     (forall c, load p' c = if decide (c = cid) then load p c + 1 else load p c) /\
     Dict.keys (work_loads p') = Dict.keys (work_loads p) /\
     _rr_cursor p' = cid).
Proof.
  split.
  - rewrite acquire_is_pick. destruct (streaming_enabled cfg); simpl.
    + split.
      * intros Hn. right. apply (candidates_nonempty cfg).
        destruct (candidates cfg p) as [|c0 cs] eqn:E; [done|].
        destruct (pick_succeeds p (c0 :: cs)) as [x Hx]; [done|]. congruence.
      * intros [?| Hw]; [done|]. apply (candidates_nonempty cfg) in Hw. by rewrite Hw.
    + split; [by left | done].
  - intros cid p' Ha. pose proof Ha as Ha'.
    rewrite acquire_is_pick in Ha'. destruct (negb _); [done|].
    apply pick_spec in Ha' as (Hin & Hle & Hw & Hrr).
    split; [done|]. split; [done|]. split; [|split; [|done]].
    + intros c. rewrite (acquire_load cfg p cid p' c Ha).
      repeat case_decide; congruence.
    + by eapply acquire_keys.
Qed.

Lemma acquire_succeeds_unless_empty_witness :
  let cfg := Config true false None in
  let p := fresh [5; 3] in
  let p' := {| work_loads := [(5, 0); (3, 1)]; _rr_cursor := 3 |} in
  acquire_stream_client cfg p = Some (3, p') /\
  3 ∈ candidates cfg p /\ _rr_cursor p' = 3.
Proof.
  intros cfg p p'. split; [vm_compute; reflexivity|].
  destruct (proj2 (acquire_succeeds_unless_empty cfg p) 3 p' eq_refl)
    as (Hin & _ & _ & _ & Hcur).
  by split.
Defined.

(** X8.  Releasing the handle that an acquire returned restores the load
    table exactly as it was before the acquire. *)
Theorem acquire_release_restores (cfg : config) (p p' : pool) (cid : Z) :
  nonneg p ->
  acquire_stream_client cfg p = Some (cid, p') ->
  work_loads (release_stream_client cid p') = work_loads p.
Proof.
  intros Hnn Ha. pose proof (acquire_spec cfg p cid p' Ha) as (Hin & _ & Hw).
  apply candidates_subset, get_is_Some in Hin as [v Hv].
  assert (Hload : load p cid = v) by (unfold load; by rewrite Hv).
  assert (0 <= v) by (rewrite <- Hload; by apply load_nonneg).
  unfold release_stream_client, load. rewrite Hw, get_set.
  case_decide; [|done]. simpl. rewrite Hload.
  replace (if 0 <? v + 1 - 1 then v + 1 - 1 else 0) with v
    by (destruct (Z.ltb_spec 0 (v + 1 - 1)); lia).
  clear -Hv. induction (work_loads p) as [|[k0 v0] d IH]; simpl in *; [done|].
  case_decide as E.
  - simpl. case_decide; [|done]. injection Hv as ->. by subst.
  - simpl. case_decide; [done|]. f_equal. by apply IH.
Qed.

Lemma acquire_release_restores_witness :
  let cfg := Config true false None in
  let p := fresh [5; 3] in
  exists cid p', acquire_stream_client cfg p = Some (cid, p') /\
    work_loads (release_stream_client cid p') = work_loads p.
Proof.
  intros cfg p. exists 3. eexists. split; [vm_compute; reflexivity|].
  eapply (acquire_release_restores cfg p _ 3).
  - unfold nonneg. eapply Forall_impl; [apply fresh_zero|]. simpl. intros; lia.
  - vm_compute. reflexivity.
Defined.

(** [release_stream_client] never drives a counter below zero and never
    touches the table for an id that is not registered: a second release of
    the same acquisition, or a release of an unknown id, changes no counter
    that is already 0. *)
Theorem release_floor_and_unknown (client_id : Z) (p : pool) :
  (Dict.get client_id (work_loads p) = None -> release_stream_client client_id p = p) /\
  (forall c, load (release_stream_client client_id p) c =
     if decide (c = client_id) then Z.max 0 (load p c - 1) else load p c) /\
  Dict.keys (work_loads (release_stream_client client_id p)) = Dict.keys (work_loads p).
Proof.
  unfold release_stream_client.
  destruct (Dict.get client_id (work_loads p)) as [v|] eqn:E.
  - split; [done|]. split.
    + intros c. unfold load at 1. simpl. rewrite get_set.
      destruct (decide (c = client_id)) as [->|Hne].
      * rewrite decide_True by done. simpl.
        destruct (Z.ltb_spec 0 (load p client_id - 1)); lia.
      * by rewrite decide_False by done.
    + simpl. apply keys_set_present. apply get_is_Some. by rewrite E.
  - split; [done|]. split; [|done]. intros c. case_decide; [|done]. subst.
    unfold load. rewrite E. done.
Qed.

Lemma release_floor_and_unknown_witness :
  release_stream_client 9 (fresh [5; 3]) = fresh [5; 3].
Proof.
  apply (proj1 (release_floor_and_unknown 9 (fresh [5; 3]))). reflexivity.
Defined.

(** X9.  [acquire_stream_client_prefer] chooses among the preferred
    candidates whenever there is one, a least-loaded one of them; with no
    preference, or when no candidate is preferred, it behaves exactly as
    [acquire_stream_client]. *)
Theorem prefer_honours_preference (cfg : config) (preferred : list Z) (p : pool) :
  (forall cid p',
     acquire_stream_client_prefer cfg preferred p = Some (cid, p') ->
     (exists c, c ∈ candidates cfg p /\ c ∈ preferred) ->
     cid ∈ preferred /\ cid ∈ candidates cfg p /\
     forall c, c ∈ candidates cfg p -> c ∈ preferred -> load p cid <= load p c) /\
  ((forall c, c ∈ candidates cfg p -> c ∉ preferred) ->
     acquire_stream_client_prefer cfg preferred p = acquire_stream_client cfg p).
Proof.
  split.
  - intros cid p' Ha (c & Hc & Hpref). unfold acquire_stream_client_prefer in Ha.
    destruct (negb _); [done|].
    destruct preferred as [|q qs]; [by apply elem_of_nil in Hpref|].
    destruct (filter (λ c, c ∈ q :: qs) (candidates cfg p)) as [|x xs] eqn:E.
    { assert (c ∈ filter (λ c, c ∈ q :: qs) (candidates cfg p)) as Hin
        by (by apply list_elem_of_filter).
      rewrite E in Hin. by apply elem_of_nil in Hin. }
    apply pick_spec in Ha as (Hin & Hle & _). rewrite <- E in Hin, Hle.
    apply list_elem_of_filter in Hin as [H1 H2]. split; [done|]. split; [done|].
    intros c' Hc' Hp'. apply Hle. by apply list_elem_of_filter.
  - intros Hnone. rewrite acquire_is_pick. unfold acquire_stream_client_prefer.
    destruct (negb _); [done|]. destruct preferred as [|q qs]; [done|].
    destruct (filter (λ c, c ∈ q :: qs) (candidates cfg p)) as [|x xs] eqn:E; [done|].
    assert (x ∈ filter (λ c, c ∈ q :: qs) (candidates cfg p)) as Hin by (rewrite E; left).
    apply list_elem_of_filter in Hin as [H1 H2]. by destruct (Hnone x H2).
Qed.

Lemma prefer_honours_preference_witness :
  let cfg := Config true true (Some 1) in
  let p := run cfg (fresh [1; 2; 3]) [Acquire; Acquire; Acquire] in
  exists cid p', acquire_stream_client_prefer cfg [3; 9] p = Some (cid, p') /\
    cid ∈ [3; 9].
Proof.
  intros cfg p.
  assert (E : exists p', acquire_stream_client_prefer cfg [3; 9] p = Some (3, p')).
  { eexists. vm_compute. reflexivity. }
  destruct E as [p' E]. exists 3, p'. split; [exact E|].
  assert (Hc : candidates cfg p = [2; 3]) by (vm_compute; reflexivity).
  apply (proj1 (prefer_honours_preference cfg [3; 9] p) 3 p' E).
  exists 3. rewrite Hc. split; [right; left | left].
Defined.

(** X10.  Round robin: when at least two candidate handles tie at the least
    load, the handle chosen is not the one the cursor points to, that is, not
    the one chosen last time. *)
Theorem tie_is_not_given_to_last_choice (cfg : config) (p p' : pool) (cid c1 c2 : Z) :
  NoDup (Dict.keys (work_loads p)) ->
  acquire_stream_client cfg p = Some (cid, p') ->
  c1 <> c2 ->
  c1 ∈ candidates cfg p -> c2 ∈ candidates cfg p ->
  (forall c, c ∈ candidates cfg p -> load p c1 <= load p c /\ load p c2 <= load p c) ->
  cid <> _rr_cursor p.
Proof.
  intros Hnd Ha Hne H1 H2 Hmin.
  rewrite acquire_is_pick in Ha. destruct (negb _); [done|].
  assert (Hcne : candidates cfg p <> []).
  { intros E. rewrite E in H1. by apply elem_of_nil in H1. }
  rewrite pick_unfold in Ha by done. cbv zeta in Ha.
  set (tied := tied_of p (candidates cfg p)) in *.
  assert (Ht1 : c1 ∈ tied) by (apply elem_of_tied; split; [done | intros; by apply Hmin]).
  assert (Ht2 : c2 ∈ tied) by (apply elem_of_tied; split; [done | intros; by apply Hmin]).
  assert (Hndt : NoDup tied).
  { unfold tied. destruct (candidates cfg p) as [|c0 cs] eqn:E; [done|]. simpl.
    rewrite merge_sort_Permutation. apply NoDup_filter. rewrite <- E.
    unfold candidates. destruct (_primary_user_id cfg); [|done].
    destruct (_ && _); [|done].
    destruct (filter _ _) eqn:E'; [done|]. rewrite <- E'. by apply NoDup_filter. }
  assert (Hlen : (2 <= length tied)%nat).
  { apply list_elem_of_lookup in Ht1 as [i1 Hi1]. apply list_elem_of_lookup in Ht2 as [i2 Hi2].
    assert (i1 <> i2) by (intros ->; congruence).
    apply lookup_lt_Some in Hi1, Hi2. lia. }
  destruct (tied !! _) as [c|] eqn:E; [|done]. simpl in Ha. injection Ha as <- _.
  destruct (index_of (_rr_cursor p) tied) as [i|] eqn:Ei.
  - apply index_of_Some in Ei. intros ->.
    pose proof (NoDup_lookup _ _ _ _ Hndt E Ei) as Hij.
    apply lookup_lt_Some in Ei.
    destruct (decide (S i = length tied)) as [Hs|Hs].
    + replace (i + 1)%nat with (length tied) in Hij by lia.
      rewrite Nat.Div0.mod_same in Hij. lia.
    + rewrite Nat.mod_small in Hij by lia. lia.
  - apply index_of_None in Ei. intros ->. apply Ei.
    by apply list_elem_of_lookup_2 in E.
Qed.

Lemma tie_is_not_given_to_last_choice_witness :
  let cfg := Config true false None in
  let p := run cfg (fresh [1; 2]) [Acquire; Release 1] in
  exists cid p', acquire_stream_client cfg p = Some (cid, p') /\ cid <> _rr_cursor p.
Proof.
  intros cfg p.
  assert (E : exists p', acquire_stream_client cfg p = Some (2, p')).
  { eexists. vm_compute. reflexivity. }
  destruct E as [p' E]. exists 2, p'. split; [exact E|].
  assert (Hk : Dict.keys (work_loads p) = [1; 2]) by (vm_compute; reflexivity).
  assert (Hc : candidates cfg p = [1; 2]) by (vm_compute; reflexivity).
  assert (Hl : forall c, c ∈ [1; 2] -> load p c = 0).
  { intros c [->|[->|Hn]%elem_of_cons]%elem_of_cons;
      [vm_compute; reflexivity | vm_compute; reflexivity | by apply elem_of_nil in Hn]. }
  apply (tie_is_not_given_to_last_choice cfg p p' 2 1 2).
  - rewrite Hk. repeat constructor; set_solver.
  - exact E.
  - done.
  - rewrite Hc. left.
  - rewrite Hc. right; left.
  - rewrite Hc. intros c Hin. rewrite (Hl c Hin), (Hl 1), (Hl 2); [lia|set_solver..].
Defined.

End PoolMore.

(** ** The play-progress tracker: further properties *)

Module PlayProgressMore.
Import PlayProgress DictFacts MergeFacts PlayProgressFacts.

Section Pruning.
Implicit Types (t : table) (k : string) (ks : list string).

Lemma elem_of_pop kv k t : kv ∈ Dict.pop k t <-> kv ∈ t /\ kv.1 <> k.
Proof. unfold Dict.pop. rewrite list_elem_of_filter. tauto. Qed.

Lemma elem_of_pop_all kv ks t :
  kv ∈ pop_all ks t <-> kv ∈ t /\ kv.1 ∉ ks.
Proof.
  revert t. induction ks as [|k ks IH]; intros t; simpl.
  - split; [intros H; split; [done | by intros ?%elem_of_nil] | by intros [? _]].
  - rewrite IH, elem_of_pop, not_elem_of_cons. tauto.
Qed.

Lemma keys_pop k t : (Dict.pop k t).*1 = filter (λ k', k' <> k) t.*1.
Proof.
  unfold Dict.pop. induction t as [|[k0 v0] t IH]; [done|].
  rewrite fmap_cons, !filter_cons. simpl.
  destruct (decide (k0 <> k)); [rewrite fmap_cons; simpl; by f_equal | done].
Qed.

Lemma pop_absent k t : k ∉ t.*1 -> Dict.pop k t = t.
Proof.
  unfold Dict.pop. induction t as [|[k0 v0] t IH]; [done|].
  rewrite fmap_cons, not_elem_of_cons, filter_cons. simpl. intros [Hne Hk].
  rewrite decide_True by done. f_equal. by apply IH.
Qed.

Lemma length_pop k t :
  NoDup t.*1 -> k ∈ t.*1 -> (length (Dict.pop k t) + 1 = length t)%nat.
Proof.
  induction t as [|[k0 v0] t IH]; [by intros _ ?%elem_of_nil|].
  rewrite fmap_cons. simpl. intros [Hk0 Hnd]%NoDup_cons Hin.
  unfold Dict.pop. rewrite filter_cons. simpl.
  destruct (decide (k0 <> k)) as [Hne|Heq].
  - apply elem_of_cons in Hin as [->|Hin]; [done|].
    simpl. specialize (IH Hnd Hin). unfold Dict.pop in IH. lia.
  - assert (k0 = k) as -> by (destruct (decide (k0 = k)); [done | by destruct Heq]).
    fold (Dict.pop k t). rewrite pop_absent by done. lia.
Qed.

Lemma NoDup_pop_all ks t : NoDup t.*1 -> NoDup (pop_all ks t).*1.
Proof.
  revert t. induction ks as [|k ks IH]; intros t Hnd; [done|].
  simpl. apply IH. rewrite keys_pop. by apply NoDup_filter.
Qed.

Lemma length_pop_all ks t :
  NoDup t.*1 -> NoDup ks -> (forall k, k ∈ ks -> k ∈ t.*1) ->
  (length (pop_all ks t) + length ks = length t)%nat.
Proof.
  revert t. induction ks as [|k ks IH]; intros t Hnd Hks Hin; simpl; [lia|].
  apply NoDup_cons in Hks as [Hk Hks].
  pose proof (length_pop k t Hnd (Hin k ltac:(left))) as Hl.
  rewrite <- Hl, <- (IH (Dict.pop k t)); [lia| |done|].
  - rewrite keys_pop. by apply NoDup_filter.
  - intros k' Hk'. rewrite keys_pop. apply list_elem_of_filter. split.
    + intros ->. done.
    + apply Hin. by right.
Qed.

Lemma insert_by_age_perm x t : insert_by_age x t ≡ₚ x :: t.
Proof.
  induction t as [|y t IH]; simpl; [done|].
  destruct (PrimFloat.ltb _ _); [|done]. rewrite IH. apply perm_swap.
Qed.

Lemma sort_by_age_perm t : sort_by_age t ≡ₚ t.
Proof.
  induction t as [|x t IH]; simpl; [done|]. by rewrite insert_by_age_perm, IH.
Qed.

Lemma prune_NoDup now t :
  NoDup t.*1 -> NoDup (_prune_play_progress_locked now t).*1.
Proof.
  intros Hnd. unfold _prune_play_progress_locked. destruct t as [|kv t]; [done|].
  destruct (_ <=? _); by repeat apply NoDup_pop_all.
Qed.

Lemma prune_capacity now t :
  NoDup t.*1 -> len (_prune_play_progress_locked now t) <= _PLAY_PROGRESS_MAX.
Proof.
  intros Hnd. unfold _prune_play_progress_locked.
  destruct t as [|kv t]; [by unfold len, _PLAY_PROGRESS_MAX|].
  set (t1 := pop_all _ (kv :: t)).
  assert (Hnd1 : NoDup t1.*1) by by apply NoDup_pop_all.
  destruct (Z.leb_spec (len t1) _PLAY_PROGRESS_MAX) as [|Hgt]; [done|].
  set (n := Z.to_nat (Z.max 0 (len (sort_by_age t1) - _PLAY_PROGRESS_MAX))).
  assert (Hlen : length (sort_by_age t1) = length t1) by by rewrite sort_by_age_perm.
  assert (Hn : (n + Z.to_nat _PLAY_PROGRESS_MAX = length t1)%nat).
  { unfold n, len in *. rewrite Hlen. unfold _PLAY_PROGRESS_MAX in *. lia. }
  pose proof (length_pop_all (take n (sort_by_age t1)).*1 t1 Hnd1) as Hp.
  rewrite length_fmap, length_take_le in Hp by lia.
  unfold len. unfold _PLAY_PROGRESS_MAX in *.
  enough (length (pop_all (take n (sort_by_age t1)).*1 t1) + n = length t1)%nat by lia.
  apply Hp.
  - rewrite fmap_take. eapply sublist_NoDup; [|apply sublist_take].
    by rewrite sort_by_age_perm.
  - intros k Hk. rewrite fmap_take in Hk.
    apply (subseteq_take n) in Hk. by rewrite sort_by_age_perm in Hk.
Qed.

Lemma NoDup_set k (p : _PlayProgress) t :
  NoDup t.*1 -> NoDup (Dict.set k p t).*1 /\
  (length (Dict.set k p t) <= length t + 1)%nat /\
  forall k', k' ∈ (Dict.set k p t).*1 -> k' = k \/ k' ∈ t.*1.
Proof.
  induction t as [|[k0 p0] t IH]; simpl.
  - intros _. split; [apply NoDup_singleton|]. split; [lia|].
    intros k' ->%list_elem_of_singleton. by left.
  - intros [Hk0 Hnd]%NoDup_cons. case_decide as E.
    + subst k0. simpl. split; [by apply NoDup_cons|]. split; [lia|].
      intros k' [->|?]%elem_of_cons; [by left | right; by right].
    + destruct (IH Hnd) as (IH1 & IH2 & IH3). simpl. split; [|split; [lia|]].
      * apply NoDup_cons. split; [|done]. intros [->|Hin]%IH3; done.
      * intros k' [->|[->|?]%IH3]%elem_of_cons;
          [right; by left | by left | right; by right].
Qed.
End Pruning.

(** X11.  After [_prune_play_progress_locked] no entry that remains has been
    idle for longer than the time to live: each one fails the test
    [now - last_seen > 1800] that marks an entry as expired. *)
Theorem prune_leaves_no_expired_entry (now : float) (t : table) :
  Forall (λ kv, PrimFloat.ltb _PLAY_PROGRESS_TTL_SEC (now - last_seen kv.2) = false)
    (_prune_play_progress_locked now t) /\
  forall kv, kv ∈ _prune_play_progress_locked now t -> kv ∈ t.
Proof.
  unfold _prune_play_progress_locked. destruct t as [|kv0 t].
  { split; [constructor | done]. }
  set (t0 := kv0 :: t).
  set (expired := (filter (λ kv, PrimFloat.ltb _PLAY_PROGRESS_TTL_SEC
                                   (now - last_seen kv.2) = true) t0).*1).
  assert (H1 : forall kv, kv ∈ pop_all expired t0 ->
            kv ∈ t0 /\ PrimFloat.ltb _PLAY_PROGRESS_TTL_SEC (now - last_seen kv.2) = false).
  { intros kv [Hin Hk]%elem_of_pop_all. split; [done|].
    destruct (PrimFloat.ltb _ _) eqn:E; [|done]. exfalso. apply Hk.
    apply list_elem_of_fmap. exists kv. split; [done|]. by apply list_elem_of_filter. }
  destruct (_ <=? _).
  - split; [apply Forall_forall; intros kv Hkv; by apply H1 | intros kv Hkv; by apply H1].
  - split; [apply Forall_forall|]; intros kv [Hkv _]%elem_of_pop_all; by apply H1.
Qed.

Lemma prune_leaves_no_expired_entry_witness :
  let prog := {| file_size := None; duration_sec := None; bitrate_kbps := None;
                 ranges := []; counted := false; last_seen := 100 |} in
  ("0:t:fp", prog) ∈ [("0:t:fp", prog)].
Proof.
  intros prog.
  apply (proj2 (prune_leaves_no_expired_entry 200 [("0:t:fp", prog)]) ("0:t:fp", prog)).
  assert (E : _prune_play_progress_locked 200 [("0:t:fp", prog)] = [("0:t:fp", prog)])
    by (vm_compute; reflexivity).
  rewrite E. left.
Defined.

(** X12.  The table is bounded: along any sequence of calls of
    [_update_play_progress], from the empty table, it never holds two entries
    for one key nor more than [_PLAY_PROGRESS_MAX + 1] entries (pruning cuts
    it to 5000 before the entry of the call is added). *)
Theorem play_progress_table_bounded (cs : list call) :
  let t := (updates cs []).2 in
  NoDup t.*1 /\ len t <= _PLAY_PROGRESS_MAX + 1.
Proof.
  assert (Hstep : forall c t, NoDup t.*1 ->
            NoDup (_update_play_progress c t).2.*1 /\
            len (_update_play_progress c t).2 <= _PLAY_PROGRESS_MAX + 1).
  { intros c t Hnd. unfold _update_play_progress.
    pose proof (prune_NoDup (c_now c) t Hnd) as Hnd'.
    pose proof (prune_capacity (c_now c) t Hnd) as Hcap.
    destruct (counted _); simpl;
      match goal with |- context [Dict.set ?k ?p ?t'] =>
        destruct (NoDup_set k p t' Hnd') as (? & ? & _) end;
      (split; [done | unfold len in *; lia]). }
  assert (Hgen : forall t, NoDup t.*1 -> len t <= _PLAY_PROGRESS_MAX + 1 ->
            NoDup (updates cs t).2.*1 /\ len (updates cs t).2 <= _PLAY_PROGRESS_MAX + 1).
  { induction cs as [|c cs IH]; intros t Hnd Hlen; [done|].
    simpl. destruct (Hstep c t Hnd) as [Hnd' Hlen'].
    destruct (_update_play_progress c t) as [hit t'] eqn:E. simpl in *.
    specialize (IH t' Hnd' Hlen'). by destruct (updates cs t'). }
  intros t. apply Hgen; [constructor | by unfold len, _PLAY_PROGRESS_MAX].
Qed.

(** X13.  Without usable metadata no play is counted: when the entry has no
    positive file size with a positive duration, and no positive bitrate, the
    estimate is 0 seconds and [_update_play_progress] returns false, whatever
    has been covered. *)
Theorem no_metadata_never_fires (c : call) (t : table) :
  let prog := refreshed c (_prune_play_progress_locked (c_now c) t) in
  (file_size prog = None \/ duration_sec prog = None \/
   (exists n, file_size prog = Some n /\ n <= 0) \/
   (exists d, duration_sec prog = Some d /\ PrimFloat.ltb 0 d = false)) ->
  (bitrate_kbps prog = None \/ exists b, bitrate_kbps prog = Some b /\ b <= 0) ->
  (forall covered,
     _seconds_from_bytes covered (file_size prog) (duration_sec prog) (bitrate_kbps prog)
       = 0%float) /\
  (_update_play_progress c t).1 = false.
Proof.
  intros prog Hsize Hrate.
  assert (Hsec : forall covered,
    _seconds_from_bytes covered (file_size prog) (duration_sec prog) (bitrate_kbps prog)
      = 0%float).
  { intros covered. unfold _seconds_from_bytes.
    assert (Hb : match bitrate_kbps prog with
                 | Some br =>
                     if negb (br =? 0) && (0 <? br)
                     then if PrimFloat.ltb 0 (float_of_int br * 1000 / 8)
                          then (float_of_int (Z.max 0 covered) / (float_of_int br * 1000 / 8))%float
                          else 0%float
                     else 0%float
                 | None => 0%float
                 end = 0%float).
    { destruct Hrate as [->|(b & -> & Hb)]; [done|].
      destruct (Z.ltb_spec 0 b); [lia|]. by rewrite andb_false_r. }
    cbv zeta. rewrite Hb.
    destruct (file_size prog) as [fs|]; [|done].
    destruct (duration_sec prog) as [d|]; [|done].
    destruct Hsize as [?|[?|[(n & [= <-] & Hn)|(d' & [= <-] & Hd)]]]; try done.
    - destruct (Z.ltb_spec 0 fs); [lia|]. by rewrite andb_false_r.
    - rewrite Hd. by rewrite andb_false_r. }
  split; [done|].
  unfold _update_play_progress. fold prog. destruct (counted prog); [done|].
  cbn [fst]. by rewrite Hsec.
Qed.

Lemma no_metadata_never_fires_witness :
  (_update_play_progress (Call 0 "0:t:fp" 0 99999999 (Some 0) (Some 200%float) None) []).1
  = false.
Proof.
  apply (no_metadata_never_fires (Call 0 "0:t:fp" 0 99999999 (Some 0) (Some 200%float) None) []).
  - right; right; left. exists 0. by split.
  - by left.
Defined.

Section Covered.
Implicit Types (rs obs : list (Z * Z)) (s e lo hi k : Z).

Lemma covered_acc (acc : Z) rs :
  foldl (λ total r, total + Z.max 0 (r.2 - r.1 + 1)) acc rs = acc + _covered_bytes rs.
Proof.
  unfold _covered_bytes. revert acc. induction rs as [|r rs IH]; intros acc; simpl; [lia|].
  rewrite IH, (IH (0 + _)). lia.
Qed.

Lemma covered_cons a b rs :
  _covered_bytes ((a, b) :: rs) = Z.max 0 (b - a + 1) + _covered_bytes rs.
Proof. unfold _covered_bytes at 1. simpl. by rewrite covered_acc. Qed.

Lemma merge_ranges_is_tail rs s e :
  s <= e -> canonical rs -> _merge_ranges rs s e = merged_tail rs s e false.
Proof.
  intros Hse Hc. rewrite merge_ranges_unfold by done.
  assert (Hlo : head_above (Z.min s (fst (hd (s, e) rs)) - 2) rs).
  { destruct rs as [|[a b] rs]; simpl; [done | lia]. }
  destruct (merged_tail_canonical rs s e _ Hse Hc Hlo) as (Hm & _ & _); [lia|].
  rewrite (sort_canonical _ Hm).
  destruct (merged_tail rs s e false) as [|r m] eqn:E; [done|].
  by apply coalesce_canonical.
Qed.

Lemma covered_tail_upper rs s e :
  s <= e -> canonical rs ->
  _covered_bytes (merged_tail rs s e false) <= _covered_bytes rs + (e - s + 1).
Proof.
  revert s e. induction rs as [|[a b] rs IH]; intros s e Hse Hc.
  - simpl. rewrite covered_cons. unfold _covered_bytes. simpl. lia.
  - simpl in Hc. destruct Hc as (Hab & Hb & Hc). cbn [merged_tail].
    destruct (Z.ltb_spec (b + 1) s).
    { rewrite !covered_cons. specialize (IH s e Hse Hc). lia. }
    destruct (Z.ltb_spec (e + 1) a).
    { rewrite merged_tail_inserted; [|done|done|].
      - cbn [app]. rewrite !covered_cons. lia.
      - eapply head_above_weaken; [|done]. lia. }
    rewrite covered_cons. specialize (IH (Z.min s a) (Z.max e b) ltac:(lia) Hc). lia.
Qed.

Lemma covered_tail_lower_from rs s e k :
  s <= e -> canonical rs -> head_above k rs -> k <= e -> s - 1 <= k ->
  (k - s + 1) + _covered_bytes rs <= _covered_bytes (merged_tail rs s e false).
Proof.
  revert s e k. induction rs as [|[a b] rs IH]; intros s e k Hse Hc Hh Hke Hsk.
  - simpl. rewrite covered_cons. unfold _covered_bytes. simpl. lia.
  - simpl in Hc, Hh. destruct Hc as (Hab & Hb & Hc). cbn [merged_tail].
    destruct (Z.ltb_spec (b + 1) s); [lia|].
    destruct (Z.ltb_spec (e + 1) a).
    { rewrite merged_tail_inserted; [|done|done|].
      - cbn [app]. rewrite !covered_cons. lia.
      - eapply head_above_weaken; [|done]. lia. }
    rewrite covered_cons.
    specialize (IH (Z.min s a) (Z.max e b) b ltac:(lia) Hc Hb ltac:(lia) ltac:(lia)). lia.
Qed.

Lemma covered_tail_lower rs s e :
  s <= e -> canonical rs ->
  _covered_bytes rs <= _covered_bytes (merged_tail rs s e false).
Proof.
  revert s e. induction rs as [|[a b] rs IH]; intros s e Hse Hc.
  - simpl. rewrite covered_cons. unfold _covered_bytes. simpl. lia.
  - simpl in Hc. destruct Hc as (Hab & Hb & Hc). cbn [merged_tail].
    destruct (Z.ltb_spec (b + 1) s).
    { rewrite !covered_cons. specialize (IH s e Hse Hc). lia. }
    destruct (Z.ltb_spec (e + 1) a).
    { rewrite merged_tail_inserted; [|done|done|].
      - cbn [app]. rewrite !covered_cons. lia.
      - eapply head_above_weaken; [|done]. lia. }
    rewrite covered_cons.
    pose proof (covered_tail_lower_from rs (Z.min s a) (Z.max e b) b
                  ltac:(lia) Hc Hb ltac:(lia) ltac:(lia)). lia.
Qed.

Lemma covered_within rs lo hi :
  canonical rs -> head_above (lo - 2) rs -> Forall (λ r, r.2 <= hi) rs ->
  0 <= _covered_bytes rs <= Z.max 0 (hi - lo + 1).
Proof.
  revert lo. induction rs as [|[a b] rs IH]; intros lo Hc Hh Hhi.
  - unfold _covered_bytes. simpl. lia.
  - simpl in Hc, Hh. destruct Hc as (Hab & Hb & Hc).
    apply Forall_cons in Hhi as [Hbhi Hhi]. simpl in Hbhi.
    rewrite covered_cons.
    specialize (IH (b + 2) Hc). replace (b + 2 - 2) with b in IH by lia.
    specialize (IH Hb Hhi). lia.
Qed.

Lemma canonical_ends_covered rs r :
  canonical rs -> r ∈ rs -> covers rs r.1 /\ covers rs r.2.
Proof.
  induction rs as [|[a b] rs IH]; [by intros _ ?%elem_of_nil|].
  simpl. intros (Hab & _ & Hc) [->|Hin]%elem_of_cons.
  - split; left; simpl; lia.
  - destruct (IH Hc Hin). split; by right.
Qed.

Lemma covers_elem rs x : covers rs x <-> exists r, r ∈ rs /\ r.1 <= x <= r.2.
Proof. unfold covers. by rewrite Exists_exists. Qed.
End Covered.

(** X14.  Covered bytes move with what is delivered and no faster: observing
    one more range never lowers [_covered_bytes] of an entry, raises it by at
    most the length of the range, and leaves the ranges as they are when
    every byte of it was covered already. *)
Theorem covered_bytes_grow_with_delivery (obs : list (Z * Z)) (s e : Z) :
  let before := observe [] obs in
  let after := _merge_ranges before s e in
  _covered_bytes before <= _covered_bytes after <=
    _covered_bytes before + Z.max 0 (e - s + 1) /\
  ((forall x, s <= x <= e -> covers before x) -> after = before).
Proof.
  intros before after.
  destruct (observe_canonical obs [] I) as [Hc _]. fold before in Hc.
  destruct (merge_ranges_canonical before s e Hc) as [Hca Hx]. fold after in Hca, Hx.
  split.
  - destruct (Z.lt_ge_cases e s) as [Hes|Hse].
    + unfold after, _merge_ranges. destruct (Z.ltb_spec e s); lia.
    + unfold after. rewrite merge_ranges_is_tail by done.
      pose proof (covered_tail_upper before s e Hse Hc).
      pose proof (covered_tail_lower before s e Hse Hc). lia.
  - intros Hall. apply canonical_unique; [done | done |].
    intros x. rewrite Hx. split; [intros [?|?]; auto | by left].
Qed.

Lemma covered_bytes_grow_with_delivery_witness :
  _merge_ranges (observe [] [(0, 99)]) 10 20 = observe [] [(0, 99)].
Proof.
  apply (proj2 (covered_bytes_grow_with_delivery [(0, 99)] 10 20)).
  intros x Hx. left. simpl. lia.
Defined.

(** X15.  When every range observed lies inside a file of [size] bytes, the
    covered bytes of the entry never exceed [size], however the ranges
    overlap or repeat. *)
Theorem covered_bytes_within_file (obs : list (Z * Z)) (size : Z) :
  Forall (λ r, 0 <= r.1 /\ r.2 < size) obs ->
  0 <= _covered_bytes (observe [] obs) <= Z.max 0 size.
Proof.
  intros Hobs. destruct (observe_canonical obs [] I) as [Hc Hx].
  assert (Hin : forall r, r ∈ observe [] obs -> 0 <= r.1 /\ r.2 <= size - 1).
  { intros r Hr. destruct (canonical_ends_covered _ r Hc Hr) as [H1 H2].
    apply Hx in H1 as [H1|H1]; [by apply Exists_nil in H1|].
    apply Hx in H2 as [H2|H2]; [by apply Exists_nil in H2|].
    apply covers_elem in H1 as (r1 & Hr1 & ?), H2 as (r2 & Hr2 & ?).
    rewrite Forall_forall in Hobs.
    pose proof (Hobs r1 Hr1). pose proof (Hobs r2 Hr2). lia. }
  enough (0 <= _covered_bytes (observe [] obs) <= Z.max 0 ((size - 1) - 0 + 1)) by lia.
  apply covered_within; [done | |].
  - destruct (observe [] obs) as [|[a b] rs]; [done|]. simpl.
    specialize (Hin (a, b) ltac:(left)). simpl in Hin. lia.
  - apply Forall_forall. intros r Hr. by apply Hin.
Qed.

Lemma covered_bytes_within_file_witness :
  0 <= _covered_bytes (observe [] [(0, 599); (300, 999); (0, 999); (200, 400)]) <= Z.max 0 1000.
Proof.
  apply (covered_bytes_within_file [(0, 599); (300, 999); (0, 999); (200, 400)] 1000).
  repeat constructor; simpl; lia.
Defined.

End PlayProgressMore.

(** ** Play counting around a response body *)

Module PlayCountFacts.
Import PlayProgress PlayCount.

Section Wrapper.
Context (w : wrapped).
Implicit Types (st : state) (t : table) (evs : list event) (ev : event).

Lemma wrapper_run_snoc t evs ev : run w t (evs ++ [ev]) = advance w (run w t evs) ev.
Proof. unfold run. by rewrite foldl_app. Qed.

Lemma chunks_of_snoc evs ev :
  chunks_of (evs ++ [ev]) =
  chunks_of evs ++ match ev with Deliver _ chunk => [chunk] | Elsewhere _ => [] end.
Proof. unfold chunks_of. rewrite bind_app. simpl. by rewrite app_nil_r. Qed.

Lemma report_fields now st :
  let c := Call now (w_key w) (last_flush st) (cursor st - 1)
             (w_file_size w) (w_duration_sec w) (w_bitrate_kbps w) in
  cursor (report w now st).2 = cursor st /\
  last_flush (report w now st).2 = last_flush st /\
  triggered (report w now st).2 = triggered st /\
  yields (report w now st).2 = yields st /\
  calls (report w now st).2 = calls st ++ [c] /\
  plays (report w now st).2 = plays st.
Proof. unfold report. by destruct (_update_play_progress _ _). Qed.

Lemma covers_ranges_snoc cs c x :
  covers (ranges_of (cs ++ [c])) x <->
  covers (ranges_of cs) x \/ c_start c <= x <= c_end c.
Proof.
  unfold covers, ranges_of. rewrite fmap_app, Exists_app. simpl.
  rewrite Exists_cons, Exists_nil. simpl. tauto.
Qed.

Lemma yields_run_head t evs :
  w_head w = true ->
  let st := run w t evs in
  yields st = chunks_of evs /\ calls st = [] /\ plays st = 0%nat.
Proof.
  intros Hh. induction evs as [|ev evs IH] using rev_ind; [done|].
  rewrite wrapper_run_snoc, chunks_of_snoc. cbv zeta in IH. destruct IH as (IH1 & IH2 & IH3).
  destruct ev as [now chunk|c]; simpl; rewrite ?Hh; simpl.
  - by rewrite IH1.
  - by rewrite app_nil_r.
Qed.

Lemma yields_step st ev :
  w_head w = false ->
  yields (advance w st ev) =
  yields st ++ List.filter nonempty
                 match ev with Deliver _ chunk => [chunk] | Elsewhere _ => [] end.
Proof.
  intros Hh. destruct ev as [now chunk|c]; simpl; [|by rewrite app_nil_r].
  rewrite Hh. destruct chunk as [|b chunk]; [by rewrite app_nil_r|].
  cbn [nonempty].
  destruct (Z.leb_spec (len (b :: chunk)) 0); [done|]. cbn [cursor triggered last_flush].
  destruct (triggered st); [done|].
  destruct (_ <? _); [done|].
  match goal with |- context [report w now ?s] =>
    pose proof (report_fields now s) as Hr; destruct (report w now s) as [hit st'] end.
  simpl in Hr. simpl. by destruct Hr as (_ & _ & _ & -> & _).
Qed.

Lemma yields_run t evs :
  w_head w = false ->
  yields (run w t evs) = List.filter nonempty (chunks_of evs).
Proof.
  intros Hh. induction evs as [|ev evs IH] using rev_ind; [done|].
  by rewrite wrapper_run_snoc, chunks_of_snoc, yields_step, IH, List.filter_app.
Qed.

Lemma concat_filter_nonempty (cs : list bytes) :
  concat (List.filter nonempty cs) = concat cs.
Proof.
  induction cs as [|c cs IH]; [done|]. simpl.
  destruct c as [|b c]; simpl; [done|]. by rewrite IH.
Qed.

Lemma start_inv t : loop_inv w (initial w t).
Proof.
  unfold loop_inv, initial. simpl. unfold len. simpl.
  split; [lia|]. split; [lia|]. split; [done|]. split; [|lia].
  intros x. split; [by intros ?%Exists_nil | lia].
Qed.

Lemma step_inv st ev : w_head w = false -> loop_inv w st -> loop_inv w (advance w st ev).
Proof.
  intros Hh (Hord & Hcur & Hplays & Hcov & Hrate).
  destruct ev as [now chunk|c]; [|done].
  simpl. rewrite Hh. destruct chunk as [|b chunk]; [done|].
  pose proof (len_pos (b :: chunk) ltac:(done)) as Hpos.
  destruct (Z.leb_spec (len (b :: chunk)) 0); [lia|]. cbn [cursor triggered last_flush].
  assert (Hcat : len (concat (yields st ++ [b :: chunk]))
                 = len (concat (yields st)) + len (b :: chunk)).
  { rewrite concat_app, len_app. simpl. by rewrite app_nil_r. }
  destruct (triggered st) eqn:Htr.
  { unfold loop_inv. simpl. rewrite Hcat. repeat split; try lia; try done;
      by apply Hcov. }
  destruct (Z.ltb_spec (cursor st + len (b :: chunk) - last_flush st)
              _PLAY_PROGRESS_UPDATE_EVERY_BYTES) as [Hsmall|Hbig].
  { unfold loop_inv. simpl. rewrite Hcat. repeat split; try lia; try done;
      by apply Hcov. }
  match goal with |- context [report w now ?s] =>
    pose proof (report_fields now s) as Hr; destruct (report w now s) as [hit st'] end.
  simpl in Hr. destruct Hr as (Hc' & Hl' & Ht' & Hy' & Hcs' & Hp').
  unfold loop_inv. simpl. rewrite Hc', Ht', Hy', Hcs', Hp', Hcat, Hplays.
  split; [lia|]. split; [lia|]. split; [by destruct hit|]. split.
  - intros x. rewrite covers_ranges_snoc, Hcov. simpl. lia.
  - rewrite length_app. simpl. lia.
Qed.

Lemma run_inv t evs : w_head w = false -> loop_inv w (run w t evs).
Proof.
  intros Hh. induction evs as [|ev evs IH] using rev_ind; [apply start_inv|].
  rewrite wrapper_run_snoc. by apply step_inv.
Qed.

Lemma step_triggered st ev :
  triggered st = true ->
  triggered (advance w st ev) = true /\ calls (advance w st ev) = calls st /\
  plays (advance w st ev) = plays st.
Proof.
  intros Htr. destruct ev as [now chunk|c]; [|done]. simpl.
  destruct (w_head w); [done|]. destruct chunk as [|b chunk]; [done|].
  destruct (_ <=? _); [done|]. cbn [triggered]. by rewrite Htr.
Qed.

Lemma steps_triggered st evs :
  triggered st = true ->
  triggered (foldl (advance w) st evs) = true /\
  calls (foldl (advance w) st evs) = calls st /\
  plays (foldl (advance w) st evs) = plays st.
Proof.
  revert st. induction evs as [|ev evs IH]; intros st Htr; [done|]. simpl.
  destruct (step_triggered st ev Htr) as (H1 & H2 & H3).
  destruct (IH _ H1) as (? & ? & ?). split; [done|]. split; congruence.
Qed.
End Wrapper.

Section Endings.
Context (w : wrapped).
Implicit Types (st : state) (t : table) (evs : list event) (e : ending).

Lemma finally_fields now st :
  yields (finally_block w now st) = yields st /\
  (w_head w = true -> finally_block w now st = st) /\
  (w_head w = false ->
   let c := Call now (w_key w) (last_flush st) (cursor st - 1)
              (w_file_size w) (w_duration_sec w) (w_bitrate_kbps w) in
   (triggered st = false -> last_flush st < cursor st ->
    calls (finally_block w now st) = calls st ++ [c] /\
    (plays st <= plays (finally_block w now st) <= plays st + 1)%nat) /\
   (triggered st = true \/ cursor st <= last_flush st ->
    calls (finally_block w now st) = calls st /\
    plays (finally_block w now st) = plays st)).
Proof.
  unfold finally_block. destruct (w_head w); [done|].
  pose proof (report_fields w now st) as Hr.
  destruct (report w now st) as [hit st']. simpl in Hr.
  destruct Hr as (_ & _ & _ & Hy & Hc & Hp).
  destruct (triggered st); simpl.
  { split; [done|]. split; [done|]. intros _. split; [done|]. done. }
  destruct (Z.ltb_spec (last_flush st) (cursor st)); simpl.
  - split; [done|]. split; [done|]. intros _. split.
    + intros _ _. rewrite Hc, Hp. split; [done|]. destruct hit; lia.
    + intros [?|?]; [done | lia].
  - split; [done|]. split; [done|]. intros _. split; [lia | done].
Qed.

Lemma finally_suspended now e st :
  yields (finally_block w now (suspended w e st))
    = yields st ++ (if w_head w then last_chunk e else List.filter nonempty (last_chunk e)) /\
  calls (finally_block w now (suspended w e st)) = calls (finally_block w now st) /\
  plays (finally_block w now (suspended w e st)) = plays (finally_block w now st).
Proof.
  destruct e as [|chunk]; simpl.
  { split; [|done]. destruct (finally_fields now st) as [-> _].
    destruct (w_head w); by rewrite app_nil_r. }
  destruct (w_head w) eqn:Hh; simpl.
  { unfold finally_block. rewrite Hh. done. }
  destruct chunk as [|b chunk]; simpl.
  { split; [|done]. destruct (finally_fields now st) as [-> _]. by rewrite app_nil_r. }
  unfold finally_block, report. rewrite Hh. simpl.
  destruct (triggered st); simpl; [done|].
  destruct (last_flush st <? cursor st); simpl; [|done].
  by destruct (_update_play_progress _ _).
Qed.

Lemma concat_delivered evs e :
  concat (chunks_of evs ++ List.filter nonempty (last_chunk e)) = concat (delivered evs e).
Proof.
  unfold delivered. rewrite !concat_app. f_equal. apply concat_filter_nonempty.
Qed.

Lemma wrap_yields t evs e now :
  yields (_wrap_with_play_count w t evs e now)
  = if w_head w then delivered evs e else List.filter nonempty (delivered evs e).
Proof.
  unfold _wrap_with_play_count. destruct (finally_suspended now e (run w t evs)) as [-> _].
  destruct (w_head w) eqn:Hh.
  - destruct (yields_run_head w t evs Hh) as (-> & _). done.
  - rewrite (yields_run w t evs Hh). unfold delivered. by rewrite List.filter_app.
Qed.

Lemma wrap_head t evs e now :
  w_head w = true ->
  calls (_wrap_with_play_count w t evs e now) = [] /\
  plays (_wrap_with_play_count w t evs e now) = 0%nat.
Proof.
  intros Hh. unfold _wrap_with_play_count.
  destruct (finally_suspended now e (run w t evs)) as (_ & -> & ->).
  destruct (finally_fields now (run w t evs)) as (_ & Hid & _). rewrite (Hid Hh).
  by destruct (yields_run_head w t evs Hh) as (_ & -> & ->).
Qed.

Lemma wrap_plays t evs e now :
  (plays (_wrap_with_play_count w t evs e now) <= 1)%nat.
Proof.
  destruct (w_head w) eqn:Hh.
  { destruct (wrap_head t evs e now Hh) as [_ ->]. lia. }
  unfold _wrap_with_play_count.
  destruct (finally_suspended now e (run w t evs)) as (_ & _ & ->).
  destruct (run_inv w t evs Hh) as (_ & _ & Hp & _).
  destruct (finally_fields now (run w t evs)) as (_ & _ & Hf).
  destruct (Hf Hh) as [Hcall Hskip].
  destruct (triggered (run w t evs)) eqn:Htr.
  - destruct Hskip as [_ ->]; [by left|]. lia.
  - destruct (Z.lt_ge_cases (last_flush (run w t evs)) (cursor (run w t evs))).
    + destruct (Hcall eq_refl) as [_ ?]; [done|]. lia.
    + destruct Hskip as [_ ->]; [right; lia|]. lia.
Qed.

Lemma wrap_after_play t evs evs' e now :
  plays (run w t evs) = 1%nat ->
  calls (_wrap_with_play_count w t (evs ++ evs') e now) = calls (run w t evs) /\
  plays (_wrap_with_play_count w t (evs ++ evs') e now) = 1%nat.
Proof.
  intros Hone. destruct (w_head w) eqn:Hh.
  { destruct (yields_run_head w t evs Hh) as (_ & _ & Hp). lia. }
  destruct (run_inv w t evs Hh) as (_ & _ & Hp & _).
  assert (Htr : triggered (run w t evs) = true).
  { destruct (triggered (run w t evs)); [done | lia]. }
  unfold _wrap_with_play_count.
  destruct (finally_suspended now e (run w t (evs ++ evs'))) as (_ & -> & ->).
  unfold run. rewrite foldl_app. fold (run w t evs).
  destruct (steps_triggered w (run w t evs) evs' Htr) as (H1 & H2 & H3).
  destruct (finally_fields now (foldl (advance w) (run w t evs) evs')) as (_ & _ & Hf).
  destruct (Hf Hh) as [_ Hskip]. destruct Hskip as [-> ->]; [by left|].
  by rewrite H2, H3.
Qed.

Lemma wrap_reports t evs e now :
  w_head w = false ->
  let st := _wrap_with_play_count w t evs e now in
  let first := Z.max 0 (w_from_bytes w) in
  let resumed := len (concat (chunks_of evs)) in
  (exists upto, first <= upto <= first + resumed /\
     forall x, covers (ranges_of (calls st)) x <-> first <= x < upto) /\
  (plays st = 0%nat ->
   forall x, covers (ranges_of (calls st)) x <-> first <= x < first + resumed).
Proof.
  intros Hh st first resumed.
  destruct (run_inv w t evs Hh) as (Hord & Hcur & Hp & Hcov & _).
  assert (Hsent : cursor (run w t evs) = first + resumed).
  { rewrite Hcur, (yields_run w t evs Hh), concat_filter_nonempty. done. }
  fold first in Hord, Hcov. unfold st, _wrap_with_play_count.
  destruct (finally_suspended now e (run w t evs)) as (_ & -> & ->).
  destruct (finally_fields now (run w t evs)) as (_ & _ & Hf).
  destruct (Hf Hh) as [Hcall Hskip].
  destruct (triggered (run w t evs)) eqn:Htr.
  { destruct Hskip as [-> ->]; [by left|]. split.
    - exists (last_flush (run w t evs)). split; [lia | done].
    - intros; lia. }
  destruct (Z.lt_ge_cases (last_flush (run w t evs)) (cursor (run w t evs))) as [Hlt|Hge].
  - destruct (Hcall eq_refl Hlt) as [-> _].
    assert (Hall : forall x,
      covers (ranges_of (calls (run w t evs) ++
        [Call now (w_key w) (last_flush (run w t evs)) (cursor (run w t evs) - 1)
           (w_file_size w) (w_duration_sec w) (w_bitrate_kbps w)])) x
      <-> first <= x < first + resumed).
    { intros x. rewrite covers_ranges_snoc, Hcov. simpl. lia. }
    split; [|done]. exists (first + resumed). split; [lia | done].
  - destruct Hskip as [-> _]; [right; lia|].
    assert (Hall : forall x, covers (ranges_of (calls (run w t evs))) x
                             <-> first <= x < first + resumed).
    { intros x. rewrite Hcov. lia. }
    split; [|done]. exists (first + resumed). split; [lia | done].
Qed.

Lemma wrap_rate t evs e now :
  Z.of_nat (length (calls (_wrap_with_play_count w t evs e now)))
    * _PLAY_PROGRESS_UPDATE_EVERY_BYTES
  <= len (concat (chunks_of evs)) + _PLAY_PROGRESS_UPDATE_EVERY_BYTES.
Proof.
  pose proof (len_nonneg (concat (chunks_of evs))) as Hnn.
  destruct (w_head w) eqn:Hh.
  { destruct (wrap_head t evs e now Hh) as [-> _]. simpl.
    unfold _PLAY_PROGRESS_UPDATE_EVERY_BYTES. lia. }
  destruct (run_inv w t evs Hh) as (Hord & Hcur & _ & _ & Hrate).
  rewrite (yields_run w t evs Hh), concat_filter_nonempty in Hcur.
  unfold _wrap_with_play_count.
  destruct (finally_suspended now e (run w t evs)) as (_ & -> & _).
  destruct (finally_fields now (run w t evs)) as (_ & _ & Hf).
  destruct (Hf Hh) as [Hcall Hskip].
  destruct (triggered (run w t evs)) eqn:Htr.
  { destruct Hskip as [-> _]; [by left|]. unfold _PLAY_PROGRESS_UPDATE_EVERY_BYTES in *. lia. }
  destruct (Z.lt_ge_cases (last_flush (run w t evs)) (cursor (run w t evs))) as [Hlt|Hge].
  - destruct (Hcall eq_refl Hlt) as [-> _]. rewrite length_app. simpl.
    unfold _PLAY_PROGRESS_UPDATE_EVERY_BYTES in *. lia.
  - destruct Hskip as [-> _]; [right; lia|]. unfold _PLAY_PROGRESS_UPDATE_EVERY_BYTES in *. lia.
Qed.
End Endings.

(** X16.  The wrapper is transparent: it yields the chunks of the inner
    iterator in their order, all of them for HEAD and the non-empty ones
    otherwise, so the bytes of the body are those of the inner iterator; and
    for HEAD it makes no call of [_update_play_progress] and registers no
    play.  This holds however the iteration ends. *)
Theorem wrapper_passes_bytes_through (w : wrapped) (t : table) (evs : list event)
    (e : ending) (now : float) :
  let st := _wrap_with_play_count w t evs e now in
  yields st = (if w_head w then delivered evs e
               else List.filter nonempty (delivered evs e)) /\
  concat (yields st) = concat (delivered evs e) /\
  (if w_head w then calls st = [] /\ plays st = 0%nat else True).
Proof.
  intros st. unfold st. rewrite wrap_yields. split; [done|].
  destruct (w_head w) eqn:Hh.
  - split; [done|]. by apply wrap_head.
  - split; [|done]. apply concat_filter_nonempty.
Qed.

(** X17.  One response registers at most one play, and once it has, the
    wrapper makes no further call of [_update_play_progress], whatever is
    still delivered and however the iteration ends. *)
Theorem wrapper_registers_at_most_one_play (w : wrapped) (t : table)
    (evs evs' : list event) (e : ending) (now : float) :
  (plays (_wrap_with_play_count w t evs e now) <= 1)%nat /\
  (plays (run w t evs) = 1%nat ->
   calls (_wrap_with_play_count w t (evs ++ evs') e now) = calls (run w t evs) /\
   plays (_wrap_with_play_count w t (evs ++ evs') e now) = 1%nat).
Proof. split; [apply wrap_plays | apply wrap_after_play]. Qed.

Lemma wrapper_registers_at_most_one_play_witness :
  let w := Wrapped false "7:t:fp" 0 (Some (2 * 1024 * 1024)) (Some 60%float) None in
  let evs := [Deliver 1 StreamHub.chunk_1MiB] in
  let evs' := [Deliver 2 StreamHub.chunk_1MiB] in
  let e := ClosedAtYield ["a"%byte] in
  plays (run w [] evs) = 1%nat /\
  calls (_wrap_with_play_count w [] (evs ++ evs') e 3) = calls (run w [] evs) /\
  plays (_wrap_with_play_count w [] (evs ++ evs') e 3) = 1%nat.
Proof.
  intros w evs evs' e.
  assert (Hone : plays (run w [] evs) = 1%nat) by (vm_compute; reflexivity).
  split; [exact Hone|].
  exact (proj2 (wrapper_registers_at_most_one_play w [] evs evs' e 3) Hone).
Defined.

(** X18.  The wrapper reports only what it delivered and was resumed after.
    The ranges it passes to [_update_play_progress] cover an initial stretch,
    without gaps, of the bytes of the chunks after whose [yield] it was
    resumed, counted from [max(0, from_bytes)]; unless the response
    registered a play they cover all of these bytes once the [finally] block
    has run.  A chunk at whose [yield] the generator is closed is delivered
    but never reported. *)
Theorem wrapper_reports_delivered_bytes (w : wrapped) (t : table) (evs : list event)
    (e : ending) (now : float) :
  w_head w = false ->
  let st := _wrap_with_play_count w t evs e now in
  let first := Z.max 0 (w_from_bytes w) in
  let resumed := len (concat (chunks_of evs)) in
  (exists upto, first <= upto <= first + resumed /\
     forall x, covers (ranges_of (calls st)) x <-> first <= x < upto) /\
  (plays st = 0%nat ->
   forall x, covers (ranges_of (calls st)) x <-> first <= x < first + resumed) /\
  len (concat (yields st)) = resumed + len (concat (last_chunk e)).
Proof.
  intros Hh st first resumed.
  destruct (wrap_reports w t evs e now Hh) as [H1 H2].
  split; [exact H1|]. split; [exact H2|].
  unfold st. rewrite wrap_yields, Hh, concat_filter_nonempty.
  unfold delivered. by rewrite concat_app, len_app.
Qed.

Lemma wrapper_reports_delivered_bytes_witness :
  let w := Wrapped false "7:t:fp" 100 (Some 1000) (Some 60%float) None in
  let evs := [Deliver 1 ["a"%byte; "b"%byte]; Deliver 2 []; Deliver 3 ["c"%byte]] in
  let st := _wrap_with_play_count w [] evs (ClosedAtYield ["d"%byte; "e"%byte]) 4 in
  ranges_of (calls st) = [(100, 102)] /\
  (forall x, covers (ranges_of (calls st)) x <-> 100 <= x < 100 + 3) /\
  len (concat (yields st)) = 3 + 2.
Proof.
  intros w evs st. split; [vm_compute; reflexivity|].
  pose proof (wrapper_reports_delivered_bytes w [] evs (ClosedAtYield ["d"%byte; "e"%byte])
                4 eq_refl) as (_ & Hall & Hlen).
  split; [|exact Hlen]. apply Hall. vm_compute. reflexivity.
Defined.

(** X19.  Reports are rate limited: the wrapper calls
    [_update_play_progress] at most once for every 512 KiB it has delivered,
    and once more when the iteration ends. *)
Theorem wrapper_reports_are_rate_limited (w : wrapped) (t : table) (evs : list event)
    (e : ending) (now : float) :
  let st := _wrap_with_play_count w t evs e now in
  Z.of_nat (length (calls st)) * _PLAY_PROGRESS_UPDATE_EVERY_BYTES
    <= len (concat (chunks_of evs)) + _PLAY_PROGRESS_UPDATE_EVERY_BYTES.
Proof. intros st. apply wrap_rate. Qed.

End PlayCountFacts.

(** ** Range requests: further properties *)

Module RangeRequestMore.
Import RangeRequest Upstream RangeRequestFacts.

Section Accepting.
Implicit Types (s d rest unit lit : string) (c : ascii).

Lemma is_space_lower c : is_space (lower c) = is_space c.
Proof. destruct c as [[] [] [] [] [] [] [] []]; vm_compute; reflexivity. Qed.

Lemma is_digit_not_space c : is_digit c = true -> is_space c = false.
Proof. destruct c as [[] [] [] [] [] [] [] []]; vm_compute; done. Qed.

Lemma match_literal_accepts lit unit rest :
  lower_string unit = lower_string lit -> match_literal lit (unit +:+ rest) = Some rest.
Proof.
  revert unit. induction lit as [|l lit IH]; intros [|c unit] Hu; try done.
  simpl in Hu. injection Hu as Hc Hu. rewrite append_cons. cbn [match_literal].
  rewrite decide_True by done. by apply IH.
Qed.

Lemma span_digits_accepts d rest :
  all_digits d = true ->
  match rest with String c _ => is_digit c = false | EmptyString => True end ->
  span_digits (d +:+ rest) = (d, rest).
Proof.
  intros Hd Hrest. induction d as [|c d IH].
  - rewrite append_nil_l. destruct rest as [|c rest]; [done|]. simpl. by rewrite Hrest.
  - simpl in Hd. apply andb_true_iff in Hd as [Hc Hd].
    rewrite append_cons. simpl. rewrite Hc, (IH Hd). done.
Qed.

Lemma lstrip_no_space s :
  Forall (λ c, is_space c = false) (list_ascii_of_string s) -> lstrip s = s.
Proof. destruct s as [|c s]; [done|]. simpl. intros [-> _]%Forall_cons. done. Qed.

Lemma rstrip_no_space s :
  Forall (λ c, is_space c = false) (list_ascii_of_string s) -> rstrip s = s.
Proof.
  induction s as [|c s IH]; [done|]. simpl. intros [Hc Hs]%Forall_cons.
  rewrite (IH Hs). destruct s; [by rewrite Hc | done].
Qed.

Lemma chars_append s1 s2 :
  list_ascii_of_string (s1 +:+ s2) = list_ascii_of_string s1 ++ list_ascii_of_string s2.
Proof. induction s1 as [|c s1 IH]; [done|]. rewrite append_cons. simpl. by rewrite IH. Qed.

Lemma digits_no_space d :
  all_digits d = true -> Forall (λ c, is_space c = false) (list_ascii_of_string d).
Proof.
  induction d as [|c d IH]; simpl; [constructor|].
  intros [Hc Hd]%andb_true_iff. constructor; [by apply is_digit_not_space | by apply IH].
Qed.

Lemma lowered_no_space unit lit :
  lower_string unit = lower_string lit ->
  Forall (λ c, is_space c = false) (list_ascii_of_string lit) ->
  Forall (λ c, is_space c = false) (list_ascii_of_string unit).
Proof.
  revert lit. induction unit as [|c unit IH]; intros [|l lit]; simpl; try done.
  intros [= Hc Hu] [Hl Hlit]%Forall_cons. constructor; [|by eapply IH].
  by rewrite <- is_space_lower, Hc, is_space_lower.
Qed.

Lemma decimal_acc (acc : Z) d :
  all_digits d = true -> 0 <= acc ->
  0 <= foldl (λ acc c, 10 * acc + (code c - 48)) acc (list_ascii_of_string d).
Proof.
  revert acc. induction d as [|c d IH]; intros acc; simpl; [done|].
  intros [Hc Hd]%andb_true_iff Hacc. apply IH; [done|].
  unfold is_digit in Hc. lia.
Qed.

Lemma decimal_nonneg d : all_digits d = true -> 0 <= decimal d.
Proof. intros Hd. by apply decimal_acc. Qed.

Lemma py_int_short d :
  (String.length d <= 4300)%nat -> py_int d = Some (decimal d).
Proof. intros Hl. unfold py_int. destruct (Z.ltb_spec 4300 (Z.of_nat (String.length d))); [lia | done]. Qed.
End Accepting.

Section Responses.
Implicit Types (range value : string) (size : Z).

Lemma parse_range_header_wf value :
  match _parse_range_header value with
  | (Some s, Some e) => 0 <= s <= e
  | (Some s, None) => 0 <= s
  | (None, Some _) => False
  | (None, None) => True
  end.
Proof.
  unfold _parse_range_header. destruct value as [|c value]; [done|].
  destruct (match_range _) as [[g1 g2]|]; [|done].
  destruct (py_int g1) as [start|]; [|done].
  destruct (Z.ltb_spec start 0); [done|].
  destruct g2 as [d|]; [|done]. destruct (py_int d) as [e|]; [|done].
  destruct (Z.ltb_spec e start); [done | lia].
Qed.

Lemma stream_track_cases range size :
  match _parse_range_header (strip range) with
  | (None, _) =>
      stream_track range (Some size) =
        inr {| status_code := 200; headers := [("Accept-Ranges", "bytes")];
               body := DirectStream 0 |}
  | (Some s, e) =>
      0 <= s /\
      if decide (size <= s) then stream_track range (Some size) = inl 416
      else
        let u := Z.min (default (size - 1) e) (size - 1) in
        s <= u < size /\
        stream_track range (Some size) =
          inr {| status_code := 206;
                 headers :=
                   [("Accept-Ranges", "bytes");
                    ("Content-Range",
                     "bytes " +:+ pretty s +:+ "-" +:+ pretty u +:+ "/" +:+ pretty size);
                    ("Content-Length", pretty (u - s + 1))];
                 body := StreamRange s (Some u) |}
  end.
Proof.
  unfold stream_track. pose proof (parse_range_header_wf (strip range)) as Hwf.
  destruct (strip range) as [|c v] eqn:E; [done|].
  destruct (_parse_range_header (String c v)) as [[s|] [e|]]; try done.
  - split; [lia|]. simpl. case_decide as Hs.
    + destruct (Z.leb_spec size s); [done | lia].
    + destruct (Z.leb_spec size s); [lia|]. split; [lia | done].
  - split; [lia|]. simpl. case_decide as Hs.
    + destruct (Z.leb_spec size s); [done | lia].
    + destruct (Z.leb_spec size s); [lia|]. split; [lia | done].
Qed.
End Responses.

Section Ranges.
Implicit Types (upstream : list bytes) (chunk : bytes).

Lemma window_cons chunk (data : bytes) (f t : nat) :
  (f <= length chunk)%nat ->
  drop f (take t (chunk ++ data)) = drop f (take t chunk) ++ take (t - length chunk) data.
Proof.
  intros Hf. rewrite take_app, drop_app.
  destruct (decide (t <= length chunk)%nat) as [Hle|Hgt].
  - replace (t - length chunk)%nat with 0%nat by lia. by rewrite take_0, drop_nil.
  - rewrite length_take. replace (f - t `min` length chunk)%nat with 0%nat by lia. done.
Qed.

Lemma concat_optional (out : bytes) :
  concat (match out with [] => [] | _ => [out] end) = out /\
  Forall (λ chunk, chunk <> []) (match out with [] => [] | _ => [out] end).
Proof.
  destruct out as [|b out]; simpl; [by split|].
  rewrite app_nil_r. split; [done|]. by repeat constructor.
Qed.

Lemma stream_range_loop_until from u cursor upstream :
  from <= u ->
  concat (_stream_range_loop from (Some u) cursor upstream)
    = drop (Z.to_nat (from - cursor)) (take (Z.to_nat (u + 1 - cursor)) (concat upstream)) /\
  Forall (λ chunk, chunk <> []) (_stream_range_loop from (Some u) cursor upstream).
Proof.
  intros Hfu. revert cursor. induction upstream as [|chunk upstream IH]; intros cursor.
  - simpl. by rewrite take_nil, drop_nil.
  - destruct chunk as [|b chunk]; [by apply IH|].
    cbn [_stream_range_loop]. set (c := b :: chunk).
    assert (Hc : 0 < len c) by (unfold len, c; simpl; lia).
    clearbody c. change (concat (c :: upstream)) with (c ++ concat upstream).
    destruct (Z.ltb_spec (cursor + len c - 1) from) as [Hskip|Hin].
    { destruct (IH (cursor + len c)) as [E F]. split; [|done]. rewrite E.
      rewrite take_app, drop_app.
      rewrite (take_ge c) by (unfold len in *; lia).
      rewrite (drop_ge c) by (unfold len in *; lia). simpl.
      f_equal; [unfold len in *; lia|]. f_equal. unfold len in *. lia. }
    destruct (Z.ltb_spec u cursor) as [Hpast|Hnot].
    { split; [|constructor]. simpl.
      replace (Z.to_nat (u + 1 - cursor)) with 0%nat by lia. by rewrite take_0, drop_nil. }
    set (out := drop _ (take _ c)).
    destruct (concat_optional out) as [Eo Fo].
    assert (Hout : out = drop (Z.to_nat (from - cursor)) (take (Z.to_nat (u + 1 - cursor)) c)).
    { unfold out.
      replace (Z.to_nat (Z.max from cursor - cursor)) with (Z.to_nat (from - cursor)) by lia.
      f_equal.
      destruct (Z.le_gt_cases u (cursor + len c - 1)).
      - f_equal. lia.
      - rewrite !take_ge; [done | unfold len in *; lia | unfold len in *; lia]. }
    rewrite concat_app, Eo, Hout. rewrite Hout in Fo.
    rewrite window_cons by (unfold len in *; lia).
    destruct (Z.leb_spec u (Z.min u (cursor + len c - 1))) as [Hstop|Hgo].
    + split; [|rewrite app_nil_r; exact Fo]. simpl.
      replace (Z.to_nat (u + 1 - cursor) - length c)%nat with 0%nat
        by (unfold len in *; lia). done.
    + destruct (IH (cursor + len c)) as [E F]. split; [|by apply Forall_app].
      rewrite E. f_equal.
      replace (Z.to_nat (from - (cursor + len c))) with 0%nat by lia. rewrite drop_0.
      f_equal. unfold len in *. lia.
Qed.

Lemma stream_range_loop_open from cursor upstream :
  concat (_stream_range_loop from None cursor upstream)
    = drop (Z.to_nat (from - cursor)) (concat upstream) /\
  Forall (λ chunk, chunk <> []) (_stream_range_loop from None cursor upstream).
Proof.
  revert cursor. induction upstream as [|chunk upstream IH]; intros cursor.
  - simpl. by rewrite drop_nil.
  - destruct chunk as [|b chunk]; [by apply IH|].
    cbn [_stream_range_loop]. set (c := b :: chunk).
    assert (Hc : 0 < len c) by (unfold len, c; simpl; lia).
    clearbody c. change (concat (c :: upstream)) with (c ++ concat upstream).
    destruct (Z.ltb_spec (cursor + len c - 1) from) as [Hskip|Hin].
    { destruct (IH (cursor + len c)) as [E F]. split; [|done]. rewrite E.
      rewrite drop_app, (drop_ge c) by (unfold len in *; lia). simpl.
      f_equal. unfold len in *. lia. }
    set (out := drop _ (take _ c)).
    destruct (concat_optional out) as [Eo Fo].
    assert (Hout : out = drop (Z.to_nat (from - cursor)) c).
    { unfold out.
      replace (Z.to_nat (Z.max from cursor - cursor)) with (Z.to_nat (from - cursor)) by lia.
      f_equal. rewrite take_ge; [done | unfold len in *; lia]. }
    destruct (IH (cursor + len c)) as [E F]. split; [|by apply Forall_app].
    rewrite concat_app, Eo, Hout, E.
    rewrite drop_app_le by (unfold len in *; lia). f_equal.
    replace (Z.to_nat (from - (cursor + len c))) with 0%nat by lia. by rewrite drop_0.
Qed.

Lemma len_concat_full upstream :
  Forall (λ chunk, len chunk = _CHUNK_SIZE) upstream ->
  len (concat upstream) = Z.of_nat (length upstream) * _CHUNK_SIZE.
Proof.
  induction 1 as [|chunk upstream Hc _ IH]; [done|].
  simpl. rewrite len_app, IH, Hc. unfold len. simpl length. lia.
Qed.

Lemma stream_range_spec from until upstream :
  let first := Z.max 0 from in
  Forall (λ chunk, len chunk = _CHUNK_SIZE)
    (take (Z.to_nat (first / _CHUNK_SIZE)) upstream) ->
  concat (_stream_range from until upstream)
    = drop (Z.to_nat first)
        match until with
        | Some u => take (Z.to_nat (Z.max first u + 1)) (concat upstream)
        | None => concat upstream
        end /\
  Forall (λ chunk, chunk <> []) (_stream_range from until upstream).
Proof.
  intros first Hfull. unfold _stream_range. fold first.
  set (k := Z.to_nat (first / _CHUNK_SIZE)) in *.
  assert (Hk : 0 <= first / _CHUNK_SIZE) by (apply Z.div_pos; unfold first, _CHUNK_SIZE; lia).
  assert (Hcur : first / _CHUNK_SIZE * _CHUNK_SIZE <= first).
  { pose proof (Z.mul_div_le first _CHUNK_SIZE ltac:(unfold _CHUNK_SIZE; lia)). lia. }
  pose proof (len_concat_full _ Hfull) as Hlen.
  assert (Hsplit : concat upstream = concat (take k upstream) ++ concat (drop k upstream))
    by (by rewrite <- concat_app, take_drop).
  rewrite Hsplit. clear Hsplit.
  set (A := concat (take k upstream)) in *. set (B := concat (drop k upstream)).
  destruct (decide (k <= length upstream)%nat) as [Hle|Hgt].
  - rewrite length_take in Hlen.
    assert (HA : length A = Z.to_nat (first / _CHUNK_SIZE * _CHUNK_SIZE)).
    { unfold len in Hlen. fold k. unfold _CHUNK_SIZE in *. lia. }
    assert (Hcur0 : 0 <= first / _CHUNK_SIZE * _CHUNK_SIZE) by (apply Z.mul_nonneg_nonneg; [done | unfold _CHUNK_SIZE; lia]).
    generalize dependent (first / _CHUNK_SIZE * _CHUNK_SIZE). intros cur Hcur HA Hcur0.
    destruct until as [u|]; simpl.
    + destruct (stream_range_loop_until first (Z.max first u) cur (drop k upstream))
        as [E F]; [lia|].
      split; [|done]. rewrite E. fold B.
      rewrite take_app, drop_app. rewrite (take_ge A) by lia. rewrite (drop_ge A) by lia.
      simpl. f_equal; [lia|]. f_equal. lia.
    + destruct (stream_range_loop_open first cur (drop k upstream)) as [E F].
      split; [|done]. rewrite E. fold B.
      rewrite drop_app, (drop_ge A) by lia. simpl. f_equal. lia.
  - assert (Hnil : drop k upstream = []) by (apply drop_ge; lia).
    assert (HA : (length A <= Z.to_nat first)%nat).
    { rewrite length_take in Hlen. unfold len in Hlen. unfold _CHUNK_SIZE in *. nia. }
    unfold B. rewrite Hnil. simpl. rewrite app_nil_r. split; [|by destruct until].
    destruct until as [u|]; simpl.
    + symmetry. apply drop_ge. rewrite length_take. lia.
    + symmetry. by apply drop_ge.
Qed.

Lemma regular_prefix_full upstream (k : nat) :
  regular upstream -> Z.of_nat k * _CHUNK_SIZE < len (concat upstream) ->
  Forall (λ chunk, len chunk = _CHUNK_SIZE) (take k upstream).
Proof.
  revert k. induction upstream as [|chunk upstream IH]; intros k Hreg Hk.
  - by rewrite take_nil.
  - destruct k as [|k]; [constructor|]. simpl in Hreg.
    change (concat (chunk :: upstream)) with (chunk ++ concat upstream) in Hk.
    rewrite len_app in Hk. destruct upstream as [|chunk' upstream].
    + exfalso. change (len (concat [])) with 0 in Hk. unfold _CHUNK_SIZE in *. lia.
    + destruct Hreg as [Hc Hreg]. simpl. constructor; [done|].
      apply IH; [done|]. unfold _CHUNK_SIZE in *. lia.
Qed.
End Ranges.

(** X20.  [_parse_range_header] accepts every value of the grammar: for
    [bytes=<digits>-<digits>], the unit in any case and at most 4300 digits in
    each number, it returns the two numbers, [None] for an end that is left
    out, and [(None, None)] when the end is below the start. *)
Theorem parse_range_header_accepts (unit d1 d2 : string) :
  lower_string unit = "bytes=" -> d1 <> "" ->
  all_digits d1 = true -> all_digits d2 = true ->
  (String.length d1 <= 4300)%nat -> (String.length d2 <= 4300)%nat ->
  _parse_range_header (unit +:+ (d1 +:+ ("-" +:+ d2))) =
    match d2 with
    | EmptyString => (Some (decimal d1), None)
    | _ => if decimal d2 <? decimal d1 then (None, None)
           else (Some (decimal d1), Some (decimal d2))
    end.
Proof.
  intros Hu Hd1 H1 H2 Hl1 Hl2.
  remember (unit +:+ (d1 +:+ ("-" +:+ d2))) as value eqn:Hv.
  assert (Hns : Forall (λ c, is_space c = false) (list_ascii_of_string value)).
  { rewrite Hv, !chars_append. repeat apply Forall_app_2.
    - apply (lowered_no_space unit "bytes="); [done|]. by repeat constructor.
    - by apply digits_no_space.
    - by repeat constructor.
    - by apply digits_no_space. }
  assert (Hstrip : strip value = value).
  { unfold strip. by rewrite (lstrip_no_space _ Hns), (rstrip_no_space _ Hns). }
  unfold _parse_range_header. rewrite Hstrip. clear Hns Hstrip.
  destruct value as [|c v].
  { destruct unit as [|c unit]; [done|]. by rewrite append_cons in Hv. }
  rewrite Hv. clear Hv c v.
  unfold match_range. rewrite (match_literal_accepts "bytes=" unit) by done.
  rewrite (span_digits_accepts d1 ("-" +:+ d2)) by done.
  destruct d1 as [|c1 d1]; [done|]. rewrite append_cons, append_nil_l.
  rewrite decide_True by done.
  pose proof (span_digits_accepts d2 "" H2 I) as Hs2. rewrite append_nil_r in Hs2.
  rewrite Hs2. rewrite decide_True by (by left).
  rewrite (py_int_short _ Hl1).
  pose proof (decimal_nonneg _ H1) as Hnn.
  destruct (Z.ltb_spec (decimal (String c1 d1)) 0); [lia|].
  destruct d2 as [|c2 d2]; [done|].
  rewrite (py_int_short _ Hl2). done.
Qed.

Lemma parse_range_header_accepts_witness :
  _parse_range_header "Bytes=100-2047" = (Some 100, Some 2047).
Proof.
  exact (parse_range_header_accepts "Bytes=" "100" "2047" eq_refl ltac:(done)
           eq_refl eq_refl ltac:(simpl; lia) ltac:(simpl; lia)).
Defined.

(** X21.  What [_parse_range_header] returns is well formed: a start is
    never negative, an end never comes without a start, and an end is never
    below its start. *)
Theorem parse_range_header_well_formed (value : string) :
  match _parse_range_header value with
  | (Some s, Some e) => 0 <= s <= e
  | (Some s, None) => 0 <= s
  | (None, Some _) => False
  | (None, None) => True
  end.
Proof. apply parse_range_header_wf. Qed.

(** X22.  With a known file size, [stream_track] answers 416 exactly when the
    header parses and its start is at or beyond the size; a 206 names a range
    that is not empty and lies inside the file, [0 <= from <= until < size],
    with [Content-Length] its length; and every other request gets the 200 of
    a request without a range. *)
Theorem stream_track_known_size (range : string) (size : Z) :
  match _parse_range_header (strip range) with
  | (None, _) =>
      stream_track range (Some size) =
        inr {| status_code := 200; headers := [("Accept-Ranges", "bytes")];
               body := DirectStream 0 |}
  | (Some s, e) =>
      0 <= s /\
      if decide (size <= s) then stream_track range (Some size) = inl 416
      else
        let u := Z.min (default (size - 1) e) (size - 1) in
        s <= u < size /\
        stream_track range (Some size) =
          inr {| status_code := 206;
                 headers :=
                   [("Accept-Ranges", "bytes");
                    ("Content-Range",
                     "bytes " +:+ pretty s +:+ "-" +:+ pretty u +:+ "/" +:+ pretty size);
                    ("Content-Length", pretty (u - s + 1))];
                 body := StreamRange s (Some u) |}
  end.
Proof. apply stream_track_cases. Qed.

(** X23.  [_stream_range] yields the bytes [from_bytes .. until_bytes] of the
    file (to the end when [until_bytes] is [None]), in non-empty chunks,
    provided the chunks it skips by [offset] hold [_CHUNK_SIZE] bytes
    each. *)
Theorem stream_range_yields_the_range (from_bytes : Z) (until_bytes : option Z)
    (upstream : list bytes) :
  let first := Z.max 0 from_bytes in
  Forall (λ chunk, len chunk = _CHUNK_SIZE)
    (take (Z.to_nat (first / _CHUNK_SIZE)) upstream) ->
  concat (_stream_range from_bytes until_bytes upstream)
    = drop (Z.to_nat first)
        match until_bytes with
        | Some u => take (Z.to_nat (Z.max first u + 1)) (concat upstream)
        | None => concat upstream
        end /\
  Forall (λ chunk, chunk <> []) (_stream_range from_bytes until_bytes upstream).
Proof. apply stream_range_spec. Qed.

Lemma stream_range_yields_the_range_witness :
  concat (_stream_range 2 (Some 4)
            [["a"%byte; "b"%byte; "c"%byte]; []; ["d"%byte; "e"%byte; "f"%byte]])
  = ["c"%byte; "d"%byte; "e"%byte].
Proof.
  apply (stream_range_yields_the_range 2 (Some 4)
           [["a"%byte; "b"%byte; "c"%byte]; []; ["d"%byte; "e"%byte; "f"%byte]]).
  constructor.
Defined.

(** X24.  A 206 delivers what its headers announce: for a file of [size]
    bytes that the upstream delivers in regular chunks, the body of the
    response is the range named in [Content-Range], byte for byte, and
    [Content-Length] is its length. *)
Theorem partial_content_body_matches_headers (range : string) (size : Z)
    (upstream : list bytes) (r : response) (s u : Z) :
  regular upstream -> len (concat upstream) = size ->
  stream_track range (Some size) = inr r -> body r = StreamRange s (Some u) ->
  body_bytes (body r) upstream
    = drop (Z.to_nat s) (take (Z.to_nat (u + 1)) (concat upstream)) /\
  len (body_bytes (body r) upstream) = u - s + 1 /\
  Dict.get "Content-Length" (headers r)
    = Some (pretty (len (body_bytes (body r) upstream))) /\
  Dict.get "Content-Range" (headers r)
    = Some ("bytes " +:+ pretty s +:+ "-" +:+ pretty u +:+ "/" +:+ pretty size).
Proof.
  intros Hreg Hsize Hr Hbody.
  pose proof (stream_track_cases range size) as Hcases.
  destruct (_parse_range_header (strip range)) as [[s0|] e].
  2: { rewrite Hcases in Hr. injection Hr as <-. done. }
  destruct Hcases as [Hs0 Hcases]. case_decide as Hbeyond.
  { by rewrite Hcases in Hr. }
  cbv zeta in Hcases. destruct Hcases as [Hu Hcases]. rewrite Hcases in Hr.
  injection Hr as <-. simpl in Hbody. injection Hbody as <- <-.
  set (u := Z.min (default (size - 1) e) (size - 1)) in *.
  assert (Hfull : Forall (λ chunk, len chunk = _CHUNK_SIZE)
                    (take (Z.to_nat (Z.max 0 s0 / _CHUNK_SIZE)) upstream)).
  { apply regular_prefix_full; [done|].
    assert (0 <= Z.max 0 s0 / _CHUNK_SIZE)
      by (apply Z.div_pos; unfold _CHUNK_SIZE; lia).
    pose proof (Z.mul_div_le (Z.max 0 s0) _CHUNK_SIZE ltac:(unfold _CHUNK_SIZE; lia)).
    lia. }
  destruct (stream_range_spec s0 (Some u) upstream Hfull) as [E _].
  assert (Hb : body_bytes (StreamRange s0 (Some u)) upstream
               = drop (Z.to_nat s0) (take (Z.to_nat (u + 1)) (concat upstream))).
  { simpl. rewrite E. f_equal; [lia|]. f_equal. lia. }
  assert (Hl : len (body_bytes (StreamRange s0 (Some u)) upstream) = u - s0 + 1).
  { rewrite Hb. unfold len in *. rewrite length_drop, length_take. lia. }
  cbn [body headers]. split; [done|]. split; [done|]. rewrite Hl. done.
Qed.

Lemma partial_content_body_matches_headers_witness :
  let upstream := [["a"%byte; "b"%byte; "c"%byte; "d"%byte; "e"%byte]] in
  exists r, stream_track "bytes=1-3" (Some 5) = inr r /\
    body_bytes (body r) upstream = ["b"%byte; "c"%byte; "d"%byte].
Proof.
  intros upstream.
  destruct (stream_track "bytes=1-3" (Some 5)) as [code|r] eqn:E;
    [by vm_compute in E|].
  exists r. split; [done|].
  assert (Hb : body r = StreamRange 1 (Some 3)).
  { vm_compute in E. injection E as <-. reflexivity. }
  apply (partial_content_body_matches_headers "bytes=1-3" 5 upstream r 1 3);
    [| |done|done].
  - vm_compute. split; [reflexivity | by intros ?].
  - vm_compute. reflexivity.
Defined.

End RangeRequestMore.

(** ** Registering a play *)

Module RegisterPlayFacts.
Import RangeRequest RegisterPlay.

Section Plays.
Implicit Types (c : play) (d : db) (track src : string).

Lemma normal_source_cases s : normal_source s = "direct" \/ normal_source s = "jam".
Proof. unfold normal_source. case_decide as E; [done | by left]. Qed.

Lemma user_upsert_keeps c track src users id doc :
  users !! id = Some doc -> (user_upsert c track src users).2 !! id = Some doc.
Proof.
  intros Hid. unfold user_upsert. destruct (user_id c) as [uid|]; [|done].
  destruct (0 <? uid); [|done]. destruct (user_write_ok c); [|done].
  destruct (users !! user_play_id uid track (played_bucket c)) eqn:E; [done|].
  simpl. rewrite lookup_insert_ne; [done|]. intros <-. congruence.
Qed.

Lemma user_upsert_counts c track src users uid :
  user_id c = Some uid -> 0 < uid ->
  (user_upsert c track src users).1 = true ->
  users !! user_play_id uid track (played_bucket c) = None /\
  is_Some ((user_upsert c track src users).2 !! user_play_id uid track (played_bucket c)).
Proof.
  intros Hu Hpos. unfold user_upsert. rewrite Hu.
  destruct (Z.ltb_spec 0 uid); [|lia]. destruct (user_write_ok c); [|done].
  destruct (users !! user_play_id uid track (played_bucket c)) eqn:E; [done|].
  simpl. intros _. split; [done|]. rewrite lookup_insert_eq. eauto.
Qed.

Lemma plays_of_upsert c track src globals users t :
  plays_of t {| userplayback := users; globalplayback := global_upsert c track src globals |}
  = plays_of t {| userplayback := users; globalplayback := globals |}
    + (if decide (t = track) then 1 else 0).
Proof.
  unfold plays_of, global_upsert. simpl. destruct (decide (t = track)) as [->|E].
  - rewrite lookup_insert_eq. simpl. by destruct (globals !! track).
  - rewrite lookup_insert_ne by done. lia.
Qed.

Lemma register_play_step c d :
  let track := strip (track_id c) in
  let d' := _register_play c d in
  (forall id doc, userplayback d !! id = Some doc -> userplayback d' !! id = Some doc) /\
  (forall t, t <> track -> globalplayback d' !! t = globalplayback d !! t) /\
  (forall t, plays_of t d <= plays_of t d' <= plays_of t d + 1) /\
  (forall t uid, plays_of t d' <> plays_of t d -> user_id c = Some uid -> 0 < uid ->
     t = track /\
     userplayback d !! user_play_id uid track (played_bucket c) = None /\
     is_Some (userplayback d' !! user_play_id uid track (played_bucket c))).
Proof.
  intros track d'. unfold d', _register_play. fold track.
  destruct track as [|a track'] eqn:Et.
  { split; [done|]. split; [done|]. split; [intros; lia | intros; done]. }
  rewrite <- Et. clear Et a track'.
  pose proof (user_upsert_keeps c track (normal_source (source c)) (userplayback d)) as Hkeep.
  pose proof (user_upsert_counts c track (normal_source (source c)) (userplayback d)) as Hcnt.
  destruct (user_upsert c track (normal_source (source c)) (userplayback d))
    as [count users]. simpl in Hkeep, Hcnt.
  destruct count; simpl.
  2: { split; [done|]. split; [done|]. split; [intros; unfold plays_of; simpl; lia|].
       intros t uid Hne. by destruct Hne. }
  destruct (global_write_ok c); simpl.
  2: { split; [done|]. split; [done|]. split; [intros; unfold plays_of; simpl; lia|].
       intros t uid Hne. by destruct Hne. }
  split; [done|]. split.
  { intros t Ht. unfold global_upsert. by rewrite lookup_insert_ne. }
  split.
  { intros t. rewrite plays_of_upsert. unfold plays_of. simpl. case_decide; lia. }
  intros t uid Hne Hu Hpos. rewrite plays_of_upsert in Hne. unfold plays_of in Hne.
  simpl in Hne. case_decide as E; [|lia]. split; [done|]. by apply Hcnt.
Qed.

Lemma registers_snoc cs c d : registers (cs ++ [c]) d = _register_play c (registers cs d).
Proof. unfold registers. by rewrite foldl_app. Qed.

Lemma register_play_sources c d : sources_add_up d -> sources_add_up (_register_play c d).
Proof.
  intros Hd. unfold _register_play. destruct (strip (track_id c)) as [|a track'] eqn:Et; [done|].
  destruct (user_upsert _ _ _ _) as [count users]. destruct count; simpl; [|done].
  destruct (global_write_ok c); [|done].
  unfold sources_add_up, global_upsert. simpl. apply map_Forall_insert_2; [|done].
  simpl. set (g := default _ _).
  assert (Hg : plays g = sources_direct g + sources_jam g).
  { unfold g. destruct (globalplayback d !! _) as [g0|] eqn:E; [|done].
    simpl. by apply (Hd _ _ E). }
  destruct (normal_source_cases (source c)) as [->| ->].
  - rewrite decide_True by done. rewrite decide_False by done. lia.
  - rewrite decide_False by done. rewrite decide_True by done. lia.
Qed.
End Plays.

(** X25.  A signed-in user raises the play counter of a track at most once
    in a bucket: when every call for the track comes from one user with a
    positive id, in one bucket, the counter ends at most one above where it
    started, however many calls there are and whichever writes fail. *)
Theorem register_play_once_per_bucket (cs : list play) (d : db) (track : string)
    (uid bucket : Z) :
  0 < uid ->
  Forall (λ c, strip (track_id c) = track ->
               user_id c = Some uid /\ played_bucket c = bucket) cs ->
  plays_of track d <= plays_of track (registers cs d) <= plays_of track d + 1.
Proof.
  intros Hpos Hcs.
  enough (plays_of track d <= plays_of track (registers cs d) <= plays_of track d + 1 /\
          (plays_of track (registers cs d) = plays_of track d + 1 ->
           is_Some (userplayback (registers cs d) !! user_play_id uid track bucket)))
    as [? _]; [done|].
  induction cs as [|c cs IH] using rev_ind.
  { split; [simpl; lia | simpl; intros; lia]. }
  apply Forall_app in Hcs as [Hcs [Hc _]%Forall_cons]. specialize (IH Hcs).
  destruct IH as [Hrange Hdoc]. rewrite registers_snoc.
  destruct (register_play_step c (registers cs d)) as (Hkeep & _ & Hstep & Hcount).
  specialize (Hstep track).
  destruct (decide (plays_of track (_register_play c (registers cs d))
                    = plays_of track (registers cs d))) as [Hsame|Hdiff].
  - rewrite Hsame. split; [done|]. intros Hone.
    destruct (Hdoc Hone) as [doc Hd]. exists doc. by apply Hkeep.
  - destruct (decide (strip (track_id c) = track)) as [Ht|Ht].
    + destruct (Hc Ht) as [Hu Hb].
      destruct (Hcount track uid Hdiff Hu Hpos) as (_ & Hnone & Hsome).
      rewrite Ht, Hb in Hnone, Hsome.
      assert (plays_of track (registers cs d) = plays_of track d).
      { destruct (decide (plays_of track (registers cs d) = plays_of track d + 1)) as [E|E];
          [|lia]. destruct (Hdoc E) as [doc Hd]. congruence. }
      split; [lia | done].
    + exfalso. apply Hdiff. unfold plays_of.
      destruct (register_play_step c (registers cs d)) as (_ & Hother & _).
      by rewrite Hother.
Qed.

Lemma register_play_once_per_bucket_witness :
  let c := Play " t1 " (Some 7) "jam" (Some "j") 5000 2 true true in
  plays_of "t1" (registers [c; c; c] empty_db) <= plays_of "t1" empty_db + 1.
Proof.
  intros c.
  apply (register_play_once_per_bucket [c; c; c] empty_db "t1" 7 2); [lia|].
  repeat constructor.
Defined.

(** X26.  The counters of a track add up: after any calls of
    [_register_play] on empty collections, [plays] of every track is the sum
    of [sources.direct] and [sources.jam], whatever [source] the callers
    pass. *)
Theorem register_play_sources_add_up (cs : list play) :
  sources_add_up (registers cs empty_db).
Proof.
  induction cs as [|c cs IH] using rev_ind; [apply map_Forall_empty|].
  rewrite registers_snoc. by apply register_play_sources.
Qed.

(** X27.  [_register_play] only adds: it never changes or removes a document
    of the user collection, never touches the document of another track, and
    raises the counter of its track by one or leaves it. *)
Theorem register_play_only_adds (c : play) (d : db) :
  let d' := _register_play c d in
  (forall id doc, userplayback d !! id = Some doc -> userplayback d' !! id = Some doc) /\
  (forall t, t <> strip (track_id c) -> globalplayback d' !! t = globalplayback d !! t) /\
  (forall t, plays_of t d <= plays_of t d' <= plays_of t d + 1).
Proof.
  intros d'. destruct (register_play_step c d) as (H1 & H2 & H3 & _).
  split; [exact H1|]. split; [exact H2 | exact H3].
Qed.

Lemma register_play_only_adds_witness :
  let doc := UserPlay 7 "t1" 4000 2 "direct" None in
  let d := {| userplayback := {["7:t1:2" := doc]}; globalplayback := ∅ |} in
  let c := Play "t1" (Some 7) "jam" None 5000 2 true true in
  userplayback (_register_play c d) !! "7:t1:2" = Some doc.
Proof.
  intros doc d c.
  apply (proj1 (register_play_only_adds c d) "7:t1:2" doc).
  vm_compute. reflexivity.
Defined.

End RegisterPlayFacts.

(** ** Shutting the hubs down *)

Module HubShutdownFacts.
Import HubRegistry HubShutdown HubRegistryFacts.

Section Closing.
Implicit Types (h : hub) (w : world) (hs : list hub) (a : nat).

Lemma running_idle h : hub_ok h -> producer_done h = true -> running h = 0%nat.
Proof.
  intros Hok Hd. unfold running. rewrite no_running; [done|].
  intros t Ht. pose proof (Hok t Ht) as Hp.
  unfold producer_done in Hd. by rewrite Hp, Ht in Hd.
Qed.

Lemma running_busy h : hub_ok h -> producer_done h = false -> running h = 1%nat.
Proof.
  intros Hok Hd. pose proof (running_le_1 h Hok) as Hle.
  enough (0 < running h)%nat by lia.
  unfold producer_done in Hd. destruct (_producer h) as [t|]; [|done].
  destruct (tasks h !! t) as [[]|] eqn:Et; try done.
  unfold running. apply list_elem_of_lookup_2 in Et.
  assert (Hin : false ∈ filter (λ d, d = false) (tasks h)) by by apply list_elem_of_filter.
  destruct (filter _ _); [by apply elem_of_nil in Hin | simpl; lia].
Qed.

Lemma close_running h : hub_ok h -> running (close h).1 = 0%nat.
Proof.
  intros Hok. unfold running. rewrite no_running; [done|].
  intros t. simpl. destruct (producer_done h) eqn:Hd; simpl.
  - assert (Hsame : match _producer h with Some _ => tasks h | None => tasks h end = tasks h)
      by by destruct (_producer h).
    rewrite Hsame. intros Ht. pose proof (Hok t Ht) as Hp.
    unfold producer_done in Hd. by rewrite Hp, Ht in Hd.
  - destruct (_producer h) as [t0|] eqn:Ep;
      [|by unfold producer_done in Hd; rewrite Ep in Hd].
    destruct (decide (t0 = t)) as [->|Hne].
    + intros Ht. apply list_lookup_insert_Some in Ht as [(_ & ? & _)|[? _]]; done.
    + rewrite list_lookup_insert_ne by done. intros Ht. apply Hok in Ht. congruence.
Qed.

Lemma close_shape h :
  hub_key (close h).1 = hub_key h /\ length (tasks (close h).1) = length (tasks h).
Proof.
  split; [done|]. simpl. destruct (_producer h); [|done].
  destruct (negb _); [apply length_insert | done].
Qed.

Lemma close_each_spec reg a hs :
  Forall hub_ok hs ->
  (forall i h, hs !! i = Some h -> reg !! hub_key h = Some (a + i)%nat) ->
  let hs' := (close_each reg a hs).1 in
  let raised := (close_each reg a hs).2 in
  Forall2 (λ h h', hub_key h' = hub_key h /\ length (tasks h') = length (tasks h)) hs hs' /\
  raised = bool_decide (0 < sum_list_with running hs)%nat /\
  sum_list_with running hs' = Nat.pred (sum_list_with running hs) /\
  (forall i h h', hs !! i = Some h -> hs' !! i = Some h' ->
     running h' = if decide (first_running a hs = Some (a + i)%nat) then 0%nat
                  else running h).
Proof.
  revert a. induction hs as [|h hs IH]; intros a Hok Hreg.
  { simpl. split; [constructor|]. split; [done|]. split; [done|]. intros i ? ?. done. }
  apply Forall_cons in Hok as [Hh Hok].
  pose proof (Hreg 0%nat h eq_refl) as Hh0. rewrite Nat.add_0_r in Hh0.
  assert (Hreg' : forall i h0, hs !! i = Some h0 -> reg !! hub_key h0 = Some (S a + i)%nat).
  { intros i h0 Hi. specialize (Hreg (S i) h0 Hi). by rewrite Nat.add_succ_r in Hreg. }
  specialize (IH (S a) Hok Hreg'). cbv zeta in IH.
  destruct IH as (IH2 & IHr & IHs & IHf).
  destruct (close_shape h) as [Hk Hl].
  cbn [close_each first_running]. rewrite decide_True by done.
  change (close h).2 with (negb (producer_done h)).
  destruct (producer_done h) eqn:Hd; cbn [negb fst snd sum_list_with].
  - rewrite (running_idle h Hh Hd), (close_running h Hh). simpl.
    split; [by constructor|]. split; [done|]. split; [done|].
    intros [|i] h0 h0' Hi Hi'; simpl in Hi, Hi'.
    + injection Hi as <-. injection Hi' as <-.
      etrans; [apply (close_running h Hh)|].
      rewrite (running_idle h Hh Hd). by destruct (decide _).
    + rewrite (IHf i h0 h0' Hi Hi'). by rewrite Nat.add_succ_r.
  - rewrite (running_busy h Hh Hd), (close_running h Hh). simpl.
    split.
    { constructor; [done|]. clear. induction hs; by constructor. }
    split; [done|]. split; [done|].
    intros [|i] h0 h0' Hi Hi'; simpl in Hi, Hi'.
    + injection Hi as <-. injection Hi' as <-.
      etrans; [apply (close_running h Hh)|].
      rewrite decide_True; [done | by rewrite Nat.add_0_r].
    + rewrite Hi in Hi'. injection Hi' as <-.
      rewrite decide_False; [done|]. intros [=]. lia.
Qed.

Lemma sum_keyed_rel (f : hub -> nat) key hs hs' :
  Forall2 (λ h h', hub_key h' = hub_key h /\ f h' = f h) hs hs' ->
  sum_list_with f (filter (λ h, hub_key h = key) hs')
  = sum_list_with f (filter (λ h, hub_key h = key) hs).
Proof.
  induction 1 as [|h h' hs hs' [Hk Hf] _ IH]; [done|].
  rewrite !filter_cons, Hk. destruct (decide (hub_key h = key)); simpl; [|done].
  by rewrite Hf, IH.
Qed.

Lemma close_stream_hubs_spec w :
  world_ok w ->
  let w' := (close_stream_hubs w).1 in
  let raised := (close_stream_hubs w).2 in
  _STREAM_HUBS w' = ∅ /\
  (forall key, spawned_for key w' = spawned_for key w) /\
  raised = bool_decide (0 < running_total w)%nat /\
  running_total w' = Nat.pred (running_total w) /\
  (forall a h h', heap w !! a = Some h -> heap w' !! a = Some h' ->
     running h' = if decide (first_running 0 (heap w) = Some a) then 0%nat
                  else running h).
Proof.
  intros [Hok [Hheap _]] w' raised.
  destruct (close_each_spec (_STREAM_HUBS w) 0 (heap w) Hok) as (H2 & Hr & Hs & Hf).
  { intros i h Hi. by apply Hheap. }
  split; [done|]. split; [|split; [done|split; [done|]]].
  - intros key. apply sum_keyed_rel. done.
  - intros a h h' Ha Ha'. by apply (Hf a h h').
Qed.
End Closing.

(** X28.  [close_stream_hubs] empties the registry and creates no task, but
    it stops one producer only.  After any requests on an empty registry, it
    raises exactly when a producer is running; the producer it stops is that
    of the first hub, in the order of creation, whose producer is running,
    and every other producer task is left as it was: the hubs before have
    none running, and the loop does not reach the hubs after. *)
Theorem close_stream_hubs_stops_first_producer_only (tr : list event) :
  let w := run empty tr in
  let w' := (close_stream_hubs w).1 in
  let raised := (close_stream_hubs w).2 in
  _STREAM_HUBS w' = ∅ /\
  (forall key, spawned_for key w' = spawned_for key w) /\
  raised = bool_decide (0 < running_total w)%nat /\
  running_total w' = Nat.pred (running_total w) /\
  (forall a h h', heap w !! a = Some h -> heap w' !! a = Some h' ->
     running h' = if decide (first_running 0 (heap w) = Some a) then 0%nat
                  else running h).
Proof. intros w. apply close_stream_hubs_spec, run_ok, empty_ok. Qed.

Lemma close_stream_hubs_stops_first_producer_only_witness :
  let w := run empty [Request "f1" None None; Request "f2" None None] in
  running_total w = 2%nat /\
  (close_stream_hubs w).2 = true /\
  running_total (close_stream_hubs w).1 = 1%nat /\
  (forall h', heap (close_stream_hubs w).1 !! 1%nat = Some h' -> running h' = 1%nat).
Proof.
  intros w.
  destruct (close_stream_hubs_stops_first_producer_only
              [Request "f1" None None; Request "f2" None None])
    as (_ & _ & Hr & Hs & Hf).
  assert (Hw : heap w = [HubObj "f1" None None [false] (Some 0%nat);
                         HubObj "f2" None None [false] (Some 0%nat)])
    by (vm_compute; reflexivity).
  fold w in Hr, Hs, Hf. split; [vm_compute; reflexivity|].
  split; [rewrite Hr; vm_compute; reflexivity|].
  split; [rewrite Hs; vm_compute; reflexivity|].
  intros h' Hh'.
  rewrite (Hf 1%nat (HubObj "f2" None None [false] (Some 0%nat)) h'); [| by rewrite Hw | done].
  rewrite Hw. vm_compute. reflexivity.
Defined.

End HubShutdownFacts.
